(** * Top-down beam-search auto-scheduler: a shallow embedding and its properties

    This development embeds the schedule search of [AutoScheduleTopDown.cpp]
    (function DAG, partial-schedule tree, bounds propagation, cost model,
    child enumeration, beam search) and states the properties that the
    design document gives for it.

    Conventions of the embedding:
    - [int64_t] values are integers of [Z]; the development describes the
      executions in which no signed 64-bit operation overflows. Conversions
      to the 32-bit [int] that the source writes ([int inner = ...],
      [(int)p.first], [int factor = t[i]]) are written out with [cast_int],
      and an [int] multiplication that leaves the [int] range is reported as
      undefined behaviour.
    - [double] is an interface ([DoubleOps]) with two instances: IEEE
      binary64 ([binary64_ops], on primitive floats) for evaluating the code
      as it runs, and exact rationals ([exact_ops]) for the statements that
      the design document makes in real arithmetic. [std::log] is a
      parameter of both.
    - [std::map] and [std::set] keyed by [Function] are [gmap] and [gset];
      [std::shared_ptr] is a pair of an address and the node it points to;
      [new] takes the next address of an allocation counter.
    - assertion failures, [std::map::at] on a missing key and undefined
      behaviour are the errors of a result monad. *)

From Stdlib Require Import ZArith QArith Qround Lia Lqa PrimFloat Uint63 Sorted.
From Stdlib Require Import SpecFloat FloatOps.
From stdpp Require Import gmap strings list fin_maps pretty.

Local Open Scope Z_scope.

#[local] Set Warnings "-inexact-float,-register-all".

(** ** Errors and the result monad *)

Inductive error : Type :=
| UserAssert       (* user_assert failed: fatal user error *)
| InternalAssert   (* internal_assert failed *)
| OutOfRange       (* std::map::at on a missing key *)
| Undefined        (* undefined behaviour: overflow of an int, bad index, null *)
| Cyclic.          (* get_bounds went deeper than the DAG has functions *)

Inductive Res (A : Type) : Type :=
| Ok (a : A)
| Err (e : error).
Arguments Ok {A} a.
Arguments Err {A} e.

#[global] Instance Res_ret : MRet Res := fun A a => Ok a.
#[global] Instance Res_bind : MBind Res := fun A B f m =>
  match m with Ok a => f a | Err e => Err e end.
#[global] Instance Res_fmap : FMap Res := fun A B f m =>
  match m with Ok a => Ok (f a) | Err e => Err e end.

Lemma bind_Ok_inv {A B} (m : Res A) (f : A -> Res B) b :
  m ≫= f = Ok b -> exists a, m = Ok a /\ f a = Ok b.
Proof. destruct m as [a|e]; [by exists a | discriminate]. Qed.

Lemma fmap_Ok_inv {A B} (m : Res A) (f : A -> B) b :
  f <$> m = Ok b -> exists a, m = Ok a /\ b = f a.
Proof. destruct m as [a|e]; [intros [= <-]; by exists a | discriminate]. Qed.

(** Inversion of a successful monadic computation, one bind at a time. *)
Ltac res_inv H :=
  let a := fresh "a" in
  let Ha := fresh "H" a in
  first
    [ apply bind_Ok_inv in H as (a & Ha & H)
    | apply fmap_Ok_inv in H as (a & Ha & H) ].

Definition is_Ok {A} (r : Res A) : bool :=
  match r with Ok _ => true | Err _ => false end.

Definition res_of_option {A} (e : error) (o : option A) : Res A :=
  match o with Some a => Ok a | None => Err e end.

(** ** Machine integers *)

Definition INT_MAX : Z := 2 ^ 31 - 1.

(** Conversion of a 64-bit value to [int] (two's complement, modulo 2^32). *)
Definition cast_int (z : Z) : Z := (z + 2 ^ 31) mod 2 ^ 32 - 2 ^ 31.

Lemma cast_int_id z : - 2 ^ 31 <= z <= INT_MAX -> cast_int z = z.
Proof.
  unfold cast_int, INT_MAX. intros Hz.
  rewrite Z.mod_small by lia. lia.
Qed.

Lemma cast_int_range z : - 2 ^ 31 <= cast_int z <= INT_MAX.
Proof.
  unfold cast_int, INT_MAX.
  pose proof (Z.mod_pos_bound (z + 2 ^ 31) (2 ^ 32) ltac:(lia)). lia.
Qed.

(** ** Tile enumeration ([generate_tilings]) *)

(** [inner] as the first loop computes it from an outer factor, and
    [outer] as the second loop computes it from an inner factor: the
    rounded-up quotient, stored in an [int]. *)
Definition ceil_div_int (sd k : Z) : Z := cast_int ((sd + k - 1) ÷ k).

(** [for (int outer = 1; outer <= s[d]; outer *= 2)]. [d0] is [d == 0]. *)
Fixpoint outer_sweep (fuel : nat) (sd : Z) (d0 is_one is_full : bool)
    (outer : Z) : Res (list Z) :=
  match fuel with
  | O => Err Undefined
  | S fuel' =>
    if outer <=? sd then
      let inner := ceil_div_int sd outer in
      let next :=
        if 2 * outer <=? INT_MAX
        then outer_sweep fuel' sd d0 is_one is_full (2 * outer)
        else Err Undefined in
      if is_one && (outer =? 1) then next
      else if is_full && (outer =? sd) then next
      else if (inner <? outer) || (d0 && (inner <? 16)) then Ok []
      else (fun l => outer :: l) <$> next
    else Ok []
  end.

(** [for (int inner = 1; inner < s[d]; inner *= 2)]. *)
Fixpoint inner_sweep (fuel : nat) (sd : Z) (is_one is_full : bool)
    (inner : Z) : Res (list Z) :=
  match fuel with
  | O => Err Undefined
  | S fuel' =>
    if inner <? sd then
      let outer := ceil_div_int sd inner in
      let next :=
        if 2 * inner <=? INT_MAX
        then inner_sweep fuel' sd is_one is_full (2 * inner)
        else Err Undefined in
      if is_one && (outer =? 1) then next
      else if is_full && (outer =? sd) then next
      else if outer <=? inner then Ok []
      else (fun l => outer :: l) <$> next
    else Ok []
  end.

(** An [int] that starts at 1 and doubles leaves the range after 31 steps. *)
Definition sweep_fuel : nat := 32.

(** The outer factors tried for dimension [d] after the prefix [t]. *)
Definition factors_of_dim (s : list Z) (d : nat) (allow_splits : bool)
    (t : list Z) : Res (list Z) :=
  let sd := s !!! d in
  let last := bool_decide (S d = length s) in
  let is_one := last && forallb (fun x => x =? 1) t in
  let is_full := last && bool_decide (t = take d s) in
  if negb allow_splits then
    Ok ((if negb is_one then [1] else []) ++
        (if negb (sd =? 1) && negb is_full then [sd] else []))
  else
    l1 ← outer_sweep sweep_fuel sd (bool_decide (d = 0%nat)) is_one is_full 1;
    l2 ← inner_sweep sweep_fuel sd is_one is_full 1;
    Ok (l1 ++ l2).

(** [for (auto t : v) { ... result.push_back(t) ... }] *)
Fixpoint extend_tilings (s : list Z) (d : nat) (allow_splits : bool)
    (v : list (list Z)) : Res (list (list Z)) :=
  match v with
  | [] => Ok []
  | t :: v' =>
    fs ← factors_of_dim s d allow_splits t;
    rest ← extend_tilings s d allow_splits v';
    Ok (map (fun o => t ++ [o]) fs ++ rest)
  end.

(** [generate_tilings s n allow_splits] is the source's
    [generate_tilings(s, n - 1, allow_splits)]: the recursion runs on the
    number [n = d + 1] of dimensions already covered, [d == -1] being
    [n = 0]. *)
Fixpoint generate_tilings (s : list Z) (n : nat) (allow_splits : bool)
    : Res (list (list Z)) :=
  match n with
  | O => Ok [[]]
  | S d =>
    v ← generate_tilings s d allow_splits;
    extend_tilings s d allow_splits v
  end.

(** *** Properties of the enumeration *)

Definition pow2 (z : Z) : Prop := exists k : nat, z = 2 ^ Z.of_nat k.

Lemma pow2_1 : pow2 1.
Proof. exists 0%nat. reflexivity. Qed.

Lemma pow2_double z : pow2 z -> pow2 (2 * z).
Proof.
  intros [k ->]. exists (S k).
  rewrite Nat2Z.inj_succ, Z.pow_succ_r by lia. reflexivity.
Qed.

Lemma pow2_pos z : pow2 z -> 1 <= z.
Proof.
  intros [k ->]. pose proof (Z.pow_pos_nonneg 2 (Z.of_nat k)). lia.
Qed.

Lemma ceil_div_int_le sd k : 1 <= k -> 1 <= sd -> ceil_div_int sd k <= sd.
Proof.
  intros Hk Hsd. unfold ceil_div_int.
  assert (Hq : 0 <= (sd + k - 1) ÷ k <= sd).
  { rewrite Z.quot_div_nonneg by lia. split.
    - apply Z.div_pos; lia.
    - apply Z.div_le_upper_bound; nia. }
  destruct (Z_le_gt_dec ((sd + k - 1) ÷ k) INT_MAX) as [Hle|Hgt].
  - rewrite cast_int_id; unfold INT_MAX in *; lia.
  - pose proof (cast_int_range ((sd + k - 1) ÷ k)). lia.
Qed.

(** What [outer_sweep] emits: powers of two not above their own [inner]. *)
Definition outer_factor (sd : Z) (d0 : bool) (o : Z) : Prop :=
  pow2 o /\ o <= sd /\ o <= ceil_div_int sd o /\
  (d0 = true -> 16 <= ceil_div_int sd o).

(** What [inner_sweep] emits: quotients by a power of two below them. *)
Definition inner_factor (sd : Z) (o : Z) : Prop :=
  exists p, pow2 p /\ p < sd /\ o = ceil_div_int sd p /\ p < o.

Lemma outer_sweep_spec fuel sd d0 is_one is_full outer l :
  pow2 outer ->
  outer_sweep fuel sd d0 is_one is_full outer = Ok l ->
  Forall (outer_factor sd d0) l.
Proof.
  revert outer l. induction fuel as [|fuel IH]; intros outer l Hp; simpl.
  - discriminate.
  - destruct (outer <=? sd) eqn:Hle; [|intros [= <-]; constructor].
    apply Z.leb_le in Hle.
    assert (Hnext : forall l',
      (if 2 * outer <=? INT_MAX
       then outer_sweep fuel sd d0 is_one is_full (2 * outer)
       else Err Undefined) = Ok l' -> Forall (outer_factor sd d0) l').
    { intros l'. destruct (2 * outer <=? INT_MAX); [|discriminate].
      apply IH. by apply pow2_double. }
    destruct (is_one && (outer =? 1)); [apply Hnext|].
    destruct (is_full && (outer =? sd)); [apply Hnext|].
    destruct ((ceil_div_int sd outer <? outer) ||
              (d0 && (ceil_div_int sd outer <? 16))) eqn:Hbrk.
    { intros [= <-]; constructor. }
    apply orb_false_iff in Hbrk as [Hb1 Hb2].
    apply Z.ltb_ge in Hb1.
    destruct (if 2 * outer <=? INT_MAX then _ else _) as [l'|e] eqn:Hn;
      simpl; [|discriminate].
    intros [= <-]. constructor; [|by apply Hnext].
    repeat split; try done.
    intros ->. simpl in Hb2. by apply Z.ltb_ge in Hb2.
Qed.

Lemma inner_sweep_spec fuel sd is_one is_full inner l :
  pow2 inner ->
  inner_sweep fuel sd is_one is_full inner = Ok l ->
  Forall (inner_factor sd) l.
Proof.
  revert inner l. induction fuel as [|fuel IH]; intros inner l Hp; simpl.
  - discriminate.
  - destruct (inner <? sd) eqn:Hlt; [|intros [= <-]; constructor].
    apply Z.ltb_lt in Hlt.
    assert (Hnext : forall l',
      (if 2 * inner <=? INT_MAX
       then inner_sweep fuel sd is_one is_full (2 * inner)
       else Err Undefined) = Ok l' -> Forall (inner_factor sd) l').
    { intros l'. destruct (2 * inner <=? INT_MAX); [|discriminate].
      apply IH. by apply pow2_double. }
    destruct (is_one && (ceil_div_int sd inner =? 1)); [apply Hnext|].
    destruct (is_full && (ceil_div_int sd inner =? sd)); [apply Hnext|].
    destruct (ceil_div_int sd inner <=? inner) eqn:Hbrk.
    { intros [= <-]; constructor. }
    apply Z.leb_gt in Hbrk.
    destruct (if 2 * inner <=? INT_MAX then _ else _) as [l'|e] eqn:Hn;
      simpl; [|discriminate].
    intros [= <-]. constructor; [|by apply Hnext].
    exists inner. done.
Qed.

(** Every factor emitted when splitting comes from one of the two sweeps and
    lies between 1 and the extent. *)
Definition split_factor (sd : Z) (d0 : bool) (o : Z) : Prop :=
  1 <= o <= sd /\ (outer_factor sd d0 o \/ inner_factor sd o).

Lemma factors_of_dim_split s d t fs :
  factors_of_dim s d true t = Ok fs ->
  Forall (split_factor (s !!! d) (bool_decide (d = 0%nat))) fs.
Proof.
  unfold factors_of_dim. cbn [negb]. intros H.
  apply bind_Ok_inv in H as (l1 & H1 & H).
  apply bind_Ok_inv in H as (l2 & H2 & H).
  injection H as <-.
  apply outer_sweep_spec in H1; [|apply pow2_1].
  apply inner_sweep_spec in H2; [|apply pow2_1].
  apply Forall_app. split.
  - eapply Forall_impl; [exact H1|]. intros o Ho. split; [|by left].
    destruct Ho as (Hp & Hle & _). apply pow2_pos in Hp. lia.
  - eapply Forall_impl; [exact H2|]. intros o Ho. split; [|by right].
    destruct Ho as (p & Hp & Hlt & -> & Hpo). apply pow2_pos in Hp.
    split; [lia|]. apply ceil_div_int_le; lia.
Qed.

(** A tiling of the first [n] dimensions, all of whose factors are split
    factors of their dimension. *)
Definition split_tiling (s : list Z) (n : nat) (t : list Z) : Prop :=
  length t = n /\
  forall i o, t !! i = Some o ->
    split_factor (s !!! i) (bool_decide (i = 0%nat)) o.

Lemma extend_tilings_split s d v ts :
  Forall (split_tiling s d) v ->
  extend_tilings s d true v = Ok ts ->
  Forall (split_tiling s (S d)) ts.
Proof.
  revert ts. induction v as [|t v IH]; intros ts Hv; cbn [extend_tilings].
  - intros [= <-]. constructor.
  - intros H.
    apply bind_Ok_inv in H as (fs & Hfs & H).
    apply bind_Ok_inv in H as (rest & Hrest & H).
    injection H as <-. inversion Hv as [|? ? [Hlen Ht] Hv']; subst.
    apply Forall_app. split; [|by apply IH].
    apply factors_of_dim_split in Hfs.
    apply Forall_forall. intros t' Ht'.
    apply list_elem_of_fmap in Ht' as (o & -> & Ho).
    rewrite Forall_forall in Hfs. specialize (Hfs o Ho).
    split; [rewrite length_app; simpl; lia|].
    intros i o' Hi.
    destruct (decide (i < length t)%nat) as [Hlt|Hge].
    + rewrite lookup_app_l in Hi by done. by apply Ht.
    + rewrite lookup_app_r in Hi by lia.
      destruct (i - length t)%nat eqn:Hd; simpl in Hi; [|done].
      injection Hi as <-. by replace i with (length t) by lia.
Qed.

Lemma generate_tilings_split s n ts :
  generate_tilings s n true = Ok ts -> Forall (split_tiling s n) ts.
Proof.
  revert ts. induction n as [|d IH]; intros ts; cbn [generate_tilings].
  - intros [= <-]. constructor; [|constructor].
    split; [done|]. intros i o Hi. done.
  - intros H. apply bind_Ok_inv in H as (v & Hv & H).
    eapply extend_tilings_split; [|exact H]. by apply IH.
Qed.

(** *** The enumeration returns for extents in the range of [int] *)

Lemma ceil_div_int_exact sd k :
  1 <= k -> 1 <= sd <= INT_MAX -> ceil_div_int sd k = (sd + k - 1) / k.
Proof.
  intros Hk Hsd. unfold ceil_div_int.
  rewrite Z.quot_div_nonneg by lia.
  apply cast_int_id. unfold INT_MAX in *.
  assert (0 <= (sd + k - 1) / k) by (apply Z.div_pos; lia).
  assert ((sd + k - 1) / k <= sd) by (apply Z.div_le_upper_bound; nia).
  lia.
Qed.

Lemma ceil_div_int_large sd k :
  2 ^ 16 <= k -> 1 <= sd <= INT_MAX -> ceil_div_int sd k < k.
Proof.
  intros Hk Hsd. rewrite ceil_div_int_exact by lia.
  apply Z.div_lt_upper_bound; [lia|]. unfold INT_MAX in Hsd. nia.
Qed.

Lemma ceil_div_int_ge_2 sd k : 1 <= k < sd -> sd <= INT_MAX -> 2 <= ceil_div_int sd k.
Proof.
  intros Hk Hsd. rewrite ceil_div_int_exact by lia.
  apply Z.div_le_lower_bound; lia.
Qed.

Lemma ceil_div_int_lt sd k : 2 <= k < sd -> sd <= INT_MAX -> ceil_div_int sd k < sd.
Proof.
  intros Hk Hsd. rewrite ceil_div_int_exact by lia.
  apply Z.div_lt_upper_bound; [lia|]. nia.
Qed.

Lemma outer_sweep_total fuel sd d0 is_one is_full outer :
  sd <= INT_MAX -> 1 <= outer <= 2 ^ 17 ->
  2 ^ 19 <= outer * 2 ^ Z.of_nat fuel ->
  exists l, outer_sweep fuel sd d0 is_one is_full outer = Ok l.
Proof.
  intros Hsd. revert outer. induction fuel as [|fuel IH]; intros outer Ho Hf.
  - cbn in Hf. lia.
  - cbn [outer_sweep]. destruct (outer <=? sd) eqn:Hle; [|by eexists].
    apply Z.leb_le in Hle.
    rewrite Nat2Z.inj_succ, Z.pow_succ_r in Hf by lia.
    assert (Hnext : exists l,
      (if 2 * outer <=? INT_MAX
       then outer_sweep fuel sd d0 is_one is_full (2 * outer)
       else Err Undefined) = Ok l \/
      (2 ^ 16 <= outer /\ outer <> sd)).
    { destruct (decide (outer < 2 ^ 16)) as [Hsmall|Hlarge].
      - rewrite (proj2 (Z.leb_le _ _)) by (unfold INT_MAX; lia).
        destruct (IH (2 * outer)) as [l Hl]; [lia|nia|]. exists l. by left.
      - destruct (decide (outer = sd)) as [->|Hne]; [|exists []; right; lia].
        rewrite (proj2 (Z.leb_le _ _)) by (unfold INT_MAX; lia).
        destruct fuel as [|fuel]; [cbn in Hf; lia|].
        cbn [outer_sweep]. rewrite (proj2 (Z.leb_gt _ _)) by lia.
        exists []. by left. }
    destruct Hnext as [l [Hl|[Hlarge Hne]]].
    + rewrite Hl.
      destruct (is_one && (outer =? 1)); [by eexists|].
      destruct (is_full && (outer =? sd)); [by eexists|].
      destruct ((ceil_div_int sd outer <? outer) || _); by eexists.
    + rewrite (proj2 (Z.eqb_neq outer 1)) by lia.
      rewrite (proj2 (Z.eqb_neq outer sd)) by done.
      rewrite !andb_false_r.
      rewrite (proj2 (Z.ltb_lt _ _)) by (apply ceil_div_int_large; lia).
      by eexists.
Qed.

Lemma inner_sweep_total fuel sd is_one is_full inner :
  sd <= INT_MAX -> 1 <= inner <= 2 ^ 17 ->
  2 ^ 19 <= inner * 2 ^ Z.of_nat fuel ->
  exists l, inner_sweep fuel sd is_one is_full inner = Ok l.
Proof.
  intros Hsd. revert inner. induction fuel as [|fuel IH]; intros inner Hi Hf.
  - cbn in Hf. lia.
  - cbn [inner_sweep]. destruct (inner <? sd) eqn:Hlt; [|by eexists].
    apply Z.ltb_lt in Hlt.
    rewrite Nat2Z.inj_succ, Z.pow_succ_r in Hf by lia.
    destruct (decide (inner < 2 ^ 16)) as [Hsmall|Hlarge].
    + rewrite (proj2 (Z.leb_le (2 * inner) _)) by (unfold INT_MAX; lia).
      destruct (IH (2 * inner)) as [l Hl]; [lia|nia|]. rewrite Hl.
      destruct (is_one && _); [by eexists|].
      destruct (is_full && _); [by eexists|].
      destruct (ceil_div_int sd inner <=? inner); by eexists.
    + rewrite (proj2 (Z.eqb_neq (ceil_div_int sd inner) 1))
        by (pose proof (ceil_div_int_ge_2 sd inner); lia).
      rewrite (proj2 (Z.eqb_neq (ceil_div_int sd inner) sd))
        by (pose proof (ceil_div_int_lt sd inner); lia).
      rewrite !andb_false_r.
      rewrite (proj2 (Z.leb_le (ceil_div_int sd inner) inner))
        by (pose proof (ceil_div_int_large sd inner); lia).
      by eexists.
Qed.

(** X3. For extents that an [int] holds, [generate_tilings] returns: the
    two sweeps end before their counters, which double in an [int], leave
    the range of [int]. *)
Theorem generate_tilings_total (s : list Z) (n : nat) (allow_splits : bool) :
  Forall (fun x => x <= INT_MAX) s ->
  exists ts, generate_tilings s n allow_splits = Ok ts.
Proof.
  intros Hs.
  assert (Hsd : forall d, s !!! d <= INT_MAX).
  { intros d. destruct (s !! d) as [x|] eqn:E.
    - rewrite (list_lookup_total_correct _ _ _ E).
      by eapply (Forall_lookup_1 _ _ _ _ Hs).
    - rewrite list_lookup_total_alt, E. cbn. unfold INT_MAX. lia. }
  assert (Hdim : forall d t, exists fs, factors_of_dim s d allow_splits t = Ok fs).
  { intros d t. unfold factors_of_dim. destruct allow_splits; cbn [negb].
    - destruct (outer_sweep_total sweep_fuel (s !!! d)
                  (bool_decide (d = 0%nat))
                  (bool_decide (S d = length s) && forallb (fun x => x =? 1) t)
                  (bool_decide (S d = length s) && bool_decide (t = take d s)) 1)
        as [l1 H1]; [apply Hsd|lia|vm_compute; discriminate|].
      destruct (inner_sweep_total sweep_fuel (s !!! d)
                  (bool_decide (S d = length s) && forallb (fun x => x =? 1) t)
                  (bool_decide (S d = length s) && bool_decide (t = take d s)) 1)
        as [l2 H2]; [apply Hsd|lia|vm_compute; discriminate|].
      rewrite H1, H2. by eexists.
    - by eexists. }
  assert (Hext : forall d v, exists ts, extend_tilings s d allow_splits v = Ok ts).
  { intros d v. induction v as [|t v [ts IH]]; cbn [extend_tilings]; [by eexists|].
    destruct (Hdim d t) as [fs ->]. rewrite IH. by eexists. }
  induction n as [|d [v IH]]; cbn [generate_tilings]; [by eexists|].
  rewrite IH. apply Hext.
Qed.

(** C6 (as amended). With splitting allowed, every tiling emitted for the
    extents [s] has one factor per dimension, and each factor [o] of a
    dimension of extent [sd] lies between 1 and [sd] and comes from one of
    the two sweeps: either [o] is a power of two not above
    [inner = ceil(sd / o)], with [inner >= 16] in dimension 0 (first
    sweep), or [o = ceil(sd / p)] for a power of two [p] below [sd] and
    below [o] (second sweep). The quotients are the ones the code stores in
    an [int]. *)
Theorem generate_tilings_split_factors (s : list Z) (ts : list (list Z))
    (t : list Z) :
  generate_tilings s (length s) true = Ok ts ->
  t ∈ ts ->
  length t = length s /\
  forall i o, t !! i = Some o ->
    1 <= o <= s !!! i /\
    ((pow2 o /\ o <= ceil_div_int (s !!! i) o /\
      (i = 0%nat -> 16 <= ceil_div_int (s !!! i) o)) \/
     (exists p, pow2 p /\ p < s !!! i /\ o = ceil_div_int (s !!! i) p /\ p < o)).
Proof.
  intros Hgen Ht. apply generate_tilings_split in Hgen.
  rewrite Forall_forall in Hgen. destruct (Hgen t Ht) as [Hlen Hfac].
  split; [done|]. intros i o Hi.
  destruct (Hfac i o Hi) as [Hrange [Hout|Hin]].
  - split; [done|]. left. destruct Hout as (Hp & _ & Hle & H16).
    repeat split; try done. intros ->. apply H16. by apply bool_decide_eq_true.
  - split; [done|]. by right.
Qed.

(** *** Trivial tilings *)

(** Membership in the result of one step of the enumeration. *)
Lemma extend_tilings_elem s d allow_splits v ts t' :
  extend_tilings s d allow_splits v = Ok ts ->
  t' ∈ ts <->
  exists t fs o, t ∈ v /\ factors_of_dim s d allow_splits t = Ok fs /\
                 o ∈ fs /\ t' = t ++ [o].
Proof.
  revert ts. induction v as [|t v IH]; intros ts; cbn [extend_tilings].
  - intros [= <-]. split; [by intros ?%elem_of_nil|].
    by intros (t & fs & o & ?%elem_of_nil & _).
  - intros H.
    apply bind_Ok_inv in H as (fs & Hfs & H).
    apply bind_Ok_inv in H as (rest & Hrest & H).
    injection H as <-. rewrite elem_of_app, (IH _ Hrest). split.
    + intros [Hin|(t0 & fs0 & o & Ht0 & Hfs0 & Ho & ->)].
      * apply list_elem_of_fmap in Hin as (o & -> & Ho).
        exists t, fs, o. by rewrite elem_of_cons; auto.
      * exists t0, fs0, o. rewrite elem_of_cons. auto.
    + intros (t0 & fs0 & o & Ht0 & Hfs0 & Ho & ->).
      apply elem_of_cons in Ht0 as [->|Ht0].
      * left. rewrite Hfs in Hfs0. injection Hfs0 as <-.
        apply list_elem_of_fmap. by exists o.
      * right. by exists t0, fs0, o.
Qed.

Lemma generate_tilings_length s n allow_splits ts t :
  generate_tilings s n allow_splits = Ok ts -> t ∈ ts -> length t = n.
Proof.
  revert ts t. induction n as [|d IH]; intros ts t; cbn [generate_tilings].
  - intros [= <-]. by intros ->%list_elem_of_singleton.
  - intros H Ht. apply bind_Ok_inv in H as (v & Hv & H).
    apply (extend_tilings_elem _ _ _ _ _ t H) in Ht
      as (t0 & fs & o & Ht0 & _ & _ & ->).
    rewrite length_app, (IH _ _ Hv Ht0). cbn. lia.
Qed.

(** [is_one] and [is_full] of a prefix. *)
Lemma all_ones_replicate (t : list Z) :
  forallb (fun x => x =? 1) t = true <-> t = replicate (length t) 1.
Proof.
  induction t as [|x t IH]; cbn; [done|].
  rewrite andb_true_iff, IH, Z.eqb_eq. split.
  - intros [-> <-]. done.
  - intros [= -> Ht]. done.
Qed.

Definition choice (o sd : Z) : Prop := o = 1 \/ o = sd.

(** Below the last dimension nothing is skipped: each factor is 1 or the
    extent. *)
Lemma generate_tilings_no_split_prefix s n ts t :
  (n < length s)%nat ->
  generate_tilings s n false = Ok ts ->
  t ∈ ts <-> Forall2 choice t (take n s).
Proof.
  revert ts t. induction n as [|d IH]; intros ts t Hn; cbn [generate_tilings].
  - intros [= <-]. rewrite list_elem_of_singleton, take_0. split.
    + intros ->. constructor.
    + by intros ->%Forall2_nil_inv_r.
  - intros H. apply bind_Ok_inv in H as (v & Hv & H).
    rewrite (extend_tilings_elem _ _ _ _ _ t H).
    destruct (lookup_lt_is_Some_2 s d ltac:(lia)) as [sd Hsd].
    rewrite (take_S_r _ _ _ Hsd).
    assert (Hfs : forall t0, factors_of_dim s d false t0 =
                    Ok ([1] ++ (if negb (sd =? 1) then [sd] else []))).
    { intros t0. unfold factors_of_dim. cbn [negb].
      rewrite (list_lookup_total_correct _ _ _ Hsd).
      rewrite (bool_decide_eq_false_2 (S d = length s)) by lia.
      cbn [andb negb]. by rewrite andb_true_r. }
    split.
    + intros (t0 & fs & o & Ht0 & Hfs0 & Ho & ->).
      apply Forall2_app; [by apply (IH _ _ ltac:(lia) Hv)|].
      rewrite Hfs in Hfs0. injection Hfs0 as <-.
      constructor; [|constructor]. unfold choice.
      apply elem_of_cons in Ho as [Ho|Ho].
      * by left.
      * destruct (negb (sd =? 1)); [|by apply elem_of_nil in Ho].
        apply list_elem_of_singleton in Ho. by right.
    + intros Hall. apply Forall2_app_inv_r in Hall
        as (t0 & l & Ht0 & Hl & ->).
      apply Forall2_cons_inv_r in Hl as (o & l' & Ho & Hl' & ->).
      apply Forall2_nil_inv_r in Hl' as ->.
      eexists t0, _, o. split; [by apply (IH _ _ ltac:(lia) Hv)|].
      split; [apply Hfs|]. split; [|done].
      destruct Ho as [-> | ->]; [set_solver|].
      destruct (sd =? 1) eqn:E; cbn.
      * apply Z.eqb_eq in E as ->. set_solver.
      * set_solver.
Qed.

(** X1. Without splits, and when the last extent is not 1, the tilings of
    the extents [s] are exactly the vectors that take 1 or the whole extent
    in every dimension, but for the two trivial ones: all ones, and [s]
    itself. *)
Theorem generate_tilings_no_split (s : list Z) (ts : list (list Z))
    (t : list Z) (x : Z) :
  last s = Some x -> x <> 1 ->
  generate_tilings s (length s) false = Ok ts ->
  t ∈ ts <->
  Forall2 (fun o sd => o = 1 \/ o = sd) t s /\
  t <> replicate (length s) 1 /\ t <> s.
Proof.
  intros Hlast Hx.
  destruct (length s) as [|d] eqn:Hlen.
  { apply length_zero_iff_nil in Hlen as ->. discriminate. }
  cbn [generate_tilings]. intros H.
  apply bind_Ok_inv in H as (v & Hv & H).
  rewrite (extend_tilings_elem _ _ _ _ _ t H).
  assert (Hsd : s !! d = Some x).
  { rewrite last_lookup, Hlen in Hlast. exact Hlast. }
  assert (Hs : s = take d s ++ [x]).
  { rewrite <- (take_S_r _ _ _ Hsd), <- Hlen. by rewrite firstn_all. }
  assert (Hpre : forall t0, t0 ∈ v <-> Forall2 choice t0 (take d s)).
  { intros t0. apply generate_tilings_no_split_prefix; [lia|done]. }
  assert (Hfs : forall t0, factors_of_dim s d false t0 =
    Ok ((if negb (forallb (fun x => x =? 1) t0) then [1] else []) ++
        (if negb (bool_decide (t0 = take d s)) then [x] else []))).
  { intros t0. unfold factors_of_dim. cbn [negb].
    rewrite (list_lookup_total_correct _ _ _ Hsd).
    rewrite (bool_decide_eq_true_2 (S d = length s)) by lia.
    cbn [andb]. by rewrite (proj2 (Z.eqb_neq x 1)) by done. }
  split.
  - intros (t0 & fs & o & Ht0 & Hfs0 & Ho & ->).
    rewrite Hfs in Hfs0. injection Hfs0 as <-.
    apply Hpre in Ht0.
    pose proof (Forall2_length _ _ _ Ht0) as Hlen0.
    rewrite length_take in Hlen0.
    apply elem_of_app in Ho as [Ho|Ho].
    + destruct (forallb _ t0) eqn:Hone; cbn in Ho; [by apply elem_of_nil in Ho|].
      apply list_elem_of_singleton in Ho as ->.
      split; [|split].
      * rewrite Hs. apply Forall2_app; [done|].
        constructor; [by left|constructor].
      * intros Heq. replace (S d) with (d + 1)%nat in Heq by lia.
        rewrite replicate_add in Heq. cbn in Heq.
        apply app_inj_tail in Heq as [Heq _].
        assert (forallb (fun x => x =? 1) t0 = true); [|congruence].
        apply all_ones_replicate. rewrite Heq. by rewrite length_replicate.
      * intros Heq. rewrite Hs in Heq.
        apply app_inj_tail in Heq as [_ Heq]. congruence.
    + destruct (bool_decide (t0 = take d s)) eqn:Hfull; cbn in Ho;
        [by apply elem_of_nil in Ho|].
      apply bool_decide_eq_false in Hfull.
      apply list_elem_of_singleton in Ho as ->.
      split; [|split].
      * rewrite Hs. apply Forall2_app; [done|].
        constructor; [by right|constructor].
      * intros Heq. replace (S d) with (d + 1)%nat in Heq by lia.
        rewrite replicate_add in Heq. cbn in Heq.
        apply app_inj_tail in Heq as [_ Heq]. congruence.
      * intros Heq. rewrite Hs in Heq.
        apply app_inj_tail in Heq as [Heq _]. done.
  - intros (Hall & Hones & Hfull).
    rewrite Hs in Hall. apply Forall2_app_inv_r in Hall
      as (t0 & l & Ht0 & Hl & ->).
    apply Forall2_cons_inv_r in Hl as (o & l' & Ho & Hl' & ->).
    apply Forall2_nil_inv_r in Hl' as ->.
    pose proof (Forall2_length _ _ _ Ht0) as Hlen0.
    rewrite length_take in Hlen0.
    eexists t0, _, o. split; [by apply Hpre|]. split; [apply Hfs|].
    split; [|done].
    destruct Ho as [-> | ->].
    + apply elem_of_app. left.
      destruct (forallb _ t0) eqn:Hone; cbn; [|set_solver].
      exfalso. apply Hones. apply all_ones_replicate in Hone.
      replace (S d) with (d + 1)%nat by lia.
      rewrite replicate_add. cbn. f_equal.
      rewrite Hone. f_equal. lia.
    + apply elem_of_app. right.
      destruct (bool_decide (t0 = take d s)) eqn:Hf; cbn; [|set_solver].
      exfalso. apply Hfull. apply bool_decide_eq_true in Hf.
      rewrite Hf. symmetry. exact Hs.
Qed.

Lemma outer_sweep_skips fuel sd d0 is_one is_full outer l :
  outer_sweep fuel sd d0 is_one is_full outer = Ok l ->
  (is_one = true -> 1 ∉ l) /\ (is_full = true -> sd ∉ l).
Proof.
  revert outer l. induction fuel as [|fuel IH]; intros outer l; cbn [outer_sweep].
  - discriminate.
  - destruct (outer <=? sd); [|intros [= <-]; split; intros _ ?%elem_of_nil; done].
    assert (Hnext : forall l',
      (if 2 * outer <=? INT_MAX
       then outer_sweep fuel sd d0 is_one is_full (2 * outer)
       else Err Undefined) = Ok l' ->
      (is_one = true -> 1 ∉ l') /\ (is_full = true -> sd ∉ l')).
    { intros l'. destruct (2 * outer <=? INT_MAX); [apply IH|discriminate]. }
    destruct (is_one && (outer =? 1)) eqn:H1; [apply Hnext|].
    destruct (is_full && (outer =? sd)) eqn:H2; [apply Hnext|].
    destruct ((ceil_div_int sd outer <? outer) || _).
    { intros [= <-]; split; intros _ ?%elem_of_nil; done. }
    intros H. apply fmap_Ok_inv in H as (l' & Hl' & ->).
    destruct (Hnext _ Hl') as [Hone Hfull]. split.
    + intros ->. cbn in H1. apply Z.eqb_neq in H1.
      rewrite not_elem_of_cons. split; [done|by apply Hone].
    + intros ->. cbn in H2. apply Z.eqb_neq in H2.
      rewrite not_elem_of_cons. split; [done|by apply Hfull].
Qed.

Lemma inner_sweep_skips fuel sd is_one is_full inner l :
  inner_sweep fuel sd is_one is_full inner = Ok l ->
  (is_one = true -> 1 ∉ l) /\ (is_full = true -> sd ∉ l).
Proof.
  revert inner l. induction fuel as [|fuel IH]; intros inner l; cbn [inner_sweep].
  - discriminate.
  - destruct (inner <? sd); [|intros [= <-]; split; intros _ ?%elem_of_nil; done].
    assert (Hnext : forall l',
      (if 2 * inner <=? INT_MAX
       then inner_sweep fuel sd is_one is_full (2 * inner)
       else Err Undefined) = Ok l' ->
      (is_one = true -> 1 ∉ l') /\ (is_full = true -> sd ∉ l')).
    { intros l'. destruct (2 * inner <=? INT_MAX); [apply IH|discriminate]. }
    destruct (is_one && (ceil_div_int sd inner =? 1)) eqn:H1; [apply Hnext|].
    destruct (is_full && (ceil_div_int sd inner =? sd)) eqn:H2; [apply Hnext|].
    destruct (ceil_div_int sd inner <=? inner).
    { intros [= <-]; split; intros _ ?%elem_of_nil; done. }
    intros H. apply fmap_Ok_inv in H as (l' & Hl' & ->).
    destruct (Hnext _ Hl') as [Hone Hfull]. split.
    + intros ->. cbn in H1. apply Z.eqb_neq in H1.
      rewrite not_elem_of_cons. split; [done|by apply Hone].
    + intros ->. cbn in H2. apply Z.eqb_neq in H2.
      rewrite not_elem_of_cons. split; [done|by apply Hfull].
Qed.

(** X2. "Skip trivial tilings": whether splitting or not, the tiling that is
    1 in every dimension is not emitted, and when splitting neither is the
    tiling that takes every extent whole. *)
Theorem generate_tilings_skips_trivial (s : list Z) (allow_splits : bool)
    (ts : list (list Z)) :
  s <> [] ->
  generate_tilings s (length s) allow_splits = Ok ts ->
  replicate (length s) 1 ∉ ts /\ (allow_splits = true -> s ∉ ts).
Proof.
  intros Hne. destruct (length s) as [|d] eqn:Hlen.
  { by apply length_zero_iff_nil in Hlen. }
  cbn [generate_tilings]. intros H.
  apply bind_Ok_inv in H as (v & Hv & H).
  destruct (lookup_lt_is_Some_2 s d ltac:(lia)) as [x Hsd].
  assert (Hs : s = take d s ++ [x]).
  { rewrite <- (take_S_r _ _ _ Hsd), <- Hlen. by rewrite firstn_all. }
  assert (Hfs : forall t0 fs o,
    factors_of_dim s d allow_splits t0 = Ok fs -> o ∈ fs ->
    (forallb (fun x => x =? 1) t0 = true -> o <> 1) /\
    (allow_splits = true -> t0 = take d s -> o <> x)).
  { intros t0 fs o. unfold factors_of_dim.
    rewrite (list_lookup_total_correct _ _ _ Hsd).
    rewrite (bool_decide_eq_true_2 (S d = length s)) by lia. cbn [andb].
    destruct allow_splits; cbn [negb].
    - intros Hf Ho.
      apply bind_Ok_inv in Hf as (l1 & H1 & Hf).
      apply bind_Ok_inv in Hf as (l2 & H2 & Hf). injection Hf as <-.
      apply outer_sweep_skips in H1 as [H1a H1b].
      apply inner_sweep_skips in H2 as [H2a H2b].
      apply elem_of_app in Ho. split.
      + intros Hone ->. destruct Ho as [Ho|Ho]; [by apply H1a|by apply H2a].
      + intros _ Hfull ->.
        destruct Ho as [Ho|Ho];
          [apply H1b in Ho|apply H2b in Ho]; try done;
          by apply bool_decide_eq_true.
    - intros [= <-] Ho. split; [|done]. intros Hone ->.
      rewrite Hone in Ho. cbn in Ho.
      destruct (negb (x =? 1) && _) eqn:E; [|by apply elem_of_nil in Ho].
      apply list_elem_of_singleton in Ho. subst x. done. }
  split.
  - intros Hin. apply (extend_tilings_elem _ _ _ _ _ _ H) in Hin
      as (t0 & fs & o & Ht0 & Hf & Ho & Heq).
    replace (S d) with (d + 1)%nat in Heq by lia.
    rewrite replicate_add in Heq. cbn in Heq.
    apply app_inj_tail in Heq as [<- <-].
    destruct (Hfs _ _ _ Hf Ho) as [Hone _]. apply Hone; [|done].
    apply all_ones_replicate. by rewrite length_replicate.
  - intros Hsplit Hin. apply (extend_tilings_elem _ _ _ _ _ _ H) in Hin
      as (t0 & fs & o & Ht0 & Hf & Ho & Heq).
    rewrite Hs in Heq. apply app_inj_tail in Heq as [<- <-].
    destruct (Hfs _ _ _ Hf Ho) as [_ Hfull]. by apply Hfull.
Qed.

(** ** The [double] interface *)

(** The operations the scheduler performs on [double] values: conversion
    from [int64_t], the two literals [0.01] and [1.01], the four arithmetic
    operations, [std::log] and [<]. *)
Class DoubleOps (D : Type) : Type := {
  d_of_int : Z -> D;
  d_0_01 : D;
  d_1_01 : D;
  d_add : D -> D -> D;
  d_sub : D -> D -> D;
  d_mul : D -> D -> D;
  d_div : D -> D -> D;
  d_log : D -> D;
  d_ltb : D -> D -> bool }.

(** [std::min(a, b)] on doubles: [(b < a) ? b : a]. *)
Definition d_min {D} `{DoubleOps D} (a b : D) : D :=
  if d_ltb b a then b else a.

(** Conversion of an [int64_t] to binary64, rounding to nearest. *)
Definition float_of_int64 (z : Z) : float :=
  if z =? - 2 ^ 63 then (-9223372036854775808)%float
  else if z <? 0 then PrimFloat.opp (PrimFloat.of_uint63 (Uint63.of_Z (- z)))
  else PrimFloat.of_uint63 (Uint63.of_Z z).

(** IEEE binary64, the arithmetic the program runs on. *)
Definition binary64_ops (log : float -> float) : DoubleOps float := {|
  d_of_int := float_of_int64;
  d_0_01 := 0.01%float;
  d_1_01 := 1.01%float;
  d_add := PrimFloat.add;
  d_sub := PrimFloat.sub;
  d_mul := PrimFloat.mul;
  d_div := PrimFloat.div;
  d_log := log;
  d_ltb := PrimFloat.ltb |}.

(** Exact rational arithmetic, the reading in which the design document
    states its formulas. Division by zero is outside this reading: the
    statements proved in it assume non-zero divisors. *)
Definition exact_ops (log : Q -> Q) : DoubleOps Q := {|
  d_of_int := inject_Z;
  d_0_01 := 1 # 100;
  d_1_01 := 101 # 100;
  d_add := Qplus;
  d_sub := Qminus;
  d_mul := Qmult;
  d_div := Qdiv;
  d_log := log;
  d_ltb := fun a b => negb (Qle_bool b a) |}.

(** ** Functions of the pipeline (external handles) *)

(** Modelled from the spec: the host compiler's [Function] handle, of which
    the scheduler uses the name, the argument names, and the estimates of
    the schedule, each a variable with a constant [min] and [extent]. Two
    handles are [same_as] each other when they are the same function. *)
Record Estimate : Type := mkEstimate {
  est_var : string;
  est_min : Z;
  est_extent : Z }.

Module Function.
Record t : Type := mk {
  name : string;
  args : list string;
  estimates : list Estimate }.
Definition dimensions (f : t) : nat := length (args f).
End Function.
Abbreviation Function := Function.t.

#[global] Instance Estimate_eq_dec : EqDecision Estimate.
Proof. solve_decision. Defined.
#[global] Instance Estimate_countable : Countable Estimate.
Proof.
  apply (inj_countable' (fun e => (est_var e, est_min e, est_extent e))
                        (fun p => mkEstimate p.1.1 p.1.2 p.2)).
  by intros [].
Defined.
#[global] Instance Function_eq_dec : EqDecision Function.
Proof. solve_decision. Defined.
#[global] Instance Function_countable : Countable Function.
Proof.
  apply (inj_countable'
    (fun f => (Function.name f, Function.args f, Function.estimates f))
    (fun p => Function.mk p.1.1 p.1.2 p.2)).
  by intros [].
Defined.

(** ** Symbolic expressions (external IR) *)

(** Modelled from the spec: the fragment of the host compiler's expressions
    in which edge footprints are written (integer constants, variables,
    sums, differences, products, minima and maxima), with [substitute],
    [simplify] (constant folding) and [as_const_int]. *)
Inductive Expr : Type :=
| IntImm (v : Z)
| Var (x : string)
| Add (a b : Expr)
| Sub (a b : Expr)
| Mul (a b : Expr)
| Min (a b : Expr)
| Max (a b : Expr).

Record Interval : Type := mkInterval { i_min : Expr; i_max : Expr }.

Fixpoint substitute (s : gmap string Expr) (e : Expr) : Expr :=
  match e with
  | IntImm v => IntImm v
  | Var x => default (Var x) (s !! x)
  | Add a b => Add (substitute s a) (substitute s b)
  | Sub a b => Sub (substitute s a) (substitute s b)
  | Mul a b => Mul (substitute s a) (substitute s b)
  | Min a b => Min (substitute s a) (substitute s b)
  | Max a b => Max (substitute s a) (substitute s b)
  end.

Definition fold_const (mk : Expr -> Expr -> Expr) (op : Z -> Z -> Z)
    (a b : Expr) : Expr :=
  match a, b with
  | IntImm x, IntImm y => IntImm (op x y)
  | _, _ => mk a b
  end.

Fixpoint simplify (e : Expr) : Expr :=
  match e with
  | IntImm v => IntImm v
  | Var x => Var x
  | Add a b => fold_const Add Z.add (simplify a) (simplify b)
  | Sub a b => fold_const Sub Z.sub (simplify a) (simplify b)
  | Mul a b => fold_const Mul Z.mul (simplify a) (simplify b)
  | Min a b => fold_const Min Z.min (simplify a) (simplify b)
  | Max a b => fold_const Max Z.max (simplify a) (simplify b)
  end.

Definition as_const_int (e : Expr) : option Z :=
  match e with IntImm v => Some v | _ => None end.

(** ** The function DAG *)

Module FunctionDAG.
Section DAG.
Context {D : Type}.

Record Node : Type := mkNode {
  func : Function;
  compute : D;
  compute_if_inlined : D;
  memory : D;
  region : list Interval }.

Record Edge : Type := mkEdge {
  producer : Function;
  consumer : Function;
  bounds : list Interval;
  calls : Z }.

(** The DAG proper: nodes and edges, both in reverse realization order. *)
Record t : Type := mk {
  nodes : list Node;
  edges : list Edge }.

(** The auxiliary maps, built as the constructor builds them: a key for
    every node, then every edge appended under its producer (consumer). *)
Definition outgoing_edges (dag : t) : gmap Function (list Edge) :=
  fold_left
    (fun m e => <[producer e := default [] (m !! producer e) ++ [e]]> m)
    (edges dag)
    (fold_left
       (fun m n => <[func n := default [] (m !! func n)]> m)
       (nodes dag) ∅).

Definition incoming_edges (dag : t) : gmap Function (list Edge) :=
  fold_left
    (fun m e => <[consumer e := default [] (m !! consumer e) ++ [e]]> m)
    (edges dag)
    (fold_left
       (fun m n => <[func n := default [] (m !! func n)]> m)
       (nodes dag) ∅).

Definition node_map (dag : t) : gmap Function Node :=
  fold_left (fun m n => <[func n := n]> m) (nodes dag) ∅.

(** [m.at(f)] *)
Definition at_ {V} (m : gmap Function V) (f : Function) : Res V :=
  res_of_option OutOfRange (m !! f).

End DAG.
Arguments Node : clear implicits.
Arguments t : clear implicits.
End FunctionDAG.
Abbreviation FunctionDAG := FunctionDAG.t.

(** ** The cost model of a node (constructor of the DAG) *)

Section NodeCosts.
Context {D : Type} {dops : DoubleOps D}.

(** "This is where the cost model is encoded!": [compute],
    [compute_if_inlined] and [memory] of a node, from the number of leaves
    that [LeafCounter] counted in the right-hand sides of the function, the
    number of its dimensions, the bytes of the type of each of its values,
    and the balance and the size of the last-level cache of the machine. *)
Definition node_cost_model (leaves dimensions : Z) (bytes : list Z)
    (balance : D) (last_level_cache_size : Z) : D * D * D :=
  let compute := d_of_int leaves in
  let compute_if_inlined :=
    d_of_int (Z.max 0 (cast_int (leaves - dimensions))) in
  let bytes_per_element := fold_left (fun b e => cast_int (b + e)) bytes 0 in
  (* Assume things vectorize OK, so bill more for wider types that have
     lower vector throughput *)
  let compute := d_mul compute (d_of_int bytes_per_element) in
  let compute_if_inlined :=
    d_mul compute_if_inlined (d_of_int bytes_per_element) in
  let memory := d_of_int bytes_per_element in
  let memory := d_mul memory balance in
  let memory := d_div memory (d_log (d_of_int last_level_cache_size)) in
  (compute, compute_if_inlined, memory).

End NodeCosts.

(** ** The partial-schedule tree *)

(** An address handed out by [new]. *)
Abbreviation ptr := nat.

Section Schedule.
Context {D : Type} {dops : DoubleOps D}.

(** [PartialScheduleNode::Bound] *)
Record Bound : Type := mkBound {
  region : list (Z * Z);
  min_points : Z;
  min_cost : D }.

(** [func = None] is the undefined handle of the root. A child is a
    [std::shared_ptr]: the address together with the node stored there. *)
Inductive PartialScheduleNode : Type := mkPSN {
  func : option Function;
  innermost : bool;
  tileable : bool;
  size : list Z;
  children : list (ptr * PartialScheduleNode);
  inlined : gmap Function Z;
  store_at : gset Function;
  bounds : gmap Function Bound }.

(** A default-constructed node. *)
Definition empty_node : PartialScheduleNode :=
  mkPSN None false false [] [] ∅ ∅ ∅.

Definition is_root (n : PartialScheduleNode) : bool :=
  bool_decide (func n = None).

Definition set_children (n : PartialScheduleNode) c :=
  mkPSN (func n) (innermost n) (tileable n) (size n) c
        (inlined n) (store_at n) (bounds n).
Definition set_inlined (n : PartialScheduleNode) i :=
  mkPSN (func n) (innermost n) (tileable n) (size n) (children n)
        i (store_at n) (bounds n).
Definition set_store_at (n : PartialScheduleNode) s :=
  mkPSN (func n) (innermost n) (tileable n) (size n) (children n)
        (inlined n) s (bounds n).
Definition set_bounds (n : PartialScheduleNode) b :=
  mkPSN (func n) (innermost n) (tileable n) (size n) (children n)
        (inlined n) (store_at n) b.
Definition set_tileable (n : PartialScheduleNode) t :=
  mkPSN (func n) (innermost n) t (size n) (children n)
        (inlined n) (store_at n) (bounds n).

Variable dag : FunctionDAG D.

(** *** Bounds propagation ([get_bounds]) *)

(** The name of the symbolic bound [<func>.<i>.min] or [<func>.<i>.max]. *)
Definition bound_var (f : Function) (i : nat) (suffix : string) : string :=
  Function.name f +:+ "." +:+ pretty i +:+ suffix.

(** [s[consumer.i.min] = (int)p.first; s[consumer.i.max] = (int)p.second]
    for every dimension [i] of the consumer's region. *)
Fixpoint consumer_scope (c : Function) (i : nat) (r : list (Z * Z))
    (s : gmap string Expr) : gmap string Expr :=
  match r with
  | [] => s
  | p :: r' =>
    consumer_scope c (S i) r'
      (<[bound_var c i ".max" := IntImm (cast_int p.2)]>
         (<[bound_var c i ".min" := IntImm (cast_int p.1)]> s))
  end.

(** One dimension of one edge: evaluate the edge's interval and merge it
    into the region built so far. The upper ends are merged with
    [std::min], as the lower ends are. *)
Definition merge_dim (s : gmap string Expr) (e : FunctionDAG.Edge)
    (i : nat) (reg : list (Z * Z)) : Res (list (Z * Z)) :=
  i_n ← res_of_option Undefined (FunctionDAG.bounds e !! i);
  let imin := as_const_int (simplify (substitute s (i_min i_n))) in
  let imax := as_const_int (simplify (substitute s (i_max i_n))) in
  match imin, imax with
  | Some lo, Some hi =>
    match reg !! i with
    | None => Ok (reg ++ [(lo, hi)])
    | Some p => Ok (<[i := (Z.min p.1 lo, Z.min p.2 hi)]> reg)
    end
  | _, _ => Err InternalAssert
  end.

(** [for (int i = 0; i < f.dimensions(); i++)], from dimension [i] on. *)
Fixpoint merge_dims (s : gmap string Expr) (e : FunctionDAG.Edge)
    (i todo : nat) (reg : list (Z * Z)) : Res (list (Z * Z)) :=
  match todo with
  | O => Ok reg
  | S todo' =>
    reg' ← merge_dim s e i reg;
    merge_dims s e (S i) todo' reg'
  end.

(** The estimates of an output: the map from variable to [(min, max)] (a
    later estimate of a variable replaces an earlier one) and the product
    of all the extents. *)
Definition estimate_map (es : list Estimate) : gmap string (Z * Z) :=
  fold_left
    (fun m b => <[est_var b := (est_min b, est_min b + est_extent b - 1)]> m)
    es ∅.

Definition estimate_points (es : list Estimate) : Z :=
  fold_left (fun p b => p * est_extent b) es 1.

(** [for (int i = 0; i < f.dimensions(); i++) user_assert(...)] *)
Fixpoint estimate_region (m : gmap string (Z * Z)) (args : list string)
    : Res (list (Z * Z)) :=
  match args with
  | [] => Ok []
  | a :: args' =>
    p ← res_of_option UserAssert (m !! a);
    r ← estimate_region m args';
    Ok (p :: r)
  end.

(** [points_if_realized]: the product of the first [dims] extents. *)
Fixpoint region_points (dims : nat) (i : nat) (reg : list (Z * Z)) : Res Z :=
  match dims with
  | O => Ok 1
  | S dims' =>
    p ← res_of_option Undefined (reg !! i);
    rest ← region_points dims' (S i) reg;
    Ok ((p.2 - p.1 + 1) * rest)
  end.

(** [get_bounds] on the memo table [cache] of a node that is the root or
    not. The result is the bound together with the table after the call:
    the table is [mutable] in the source and every bound computed on the
    way, also a consumer's, is stored in it. *)
Fixpoint get_bounds_rec (fuel : nat) (root : bool) (f : Function)
    (cache : gmap Function Bound) : Res (Bound * gmap Function Bound) :=
  match cache !! f with
  | Some b => Ok (b, cache)
  | None =>
    match fuel with
    | O => Err Cyclic
    | S fuel' =>
      out ← FunctionDAG.at_ (FunctionDAG.outgoing_edges dag) f;
      if bool_decide (out = []) && root then
        (* Use the bounds estimate *)
        let estimates := estimate_map (Function.estimates f) in
        let min_points := estimate_points (Function.estimates f) in
        reg ← estimate_region estimates (Function.args f);
        node ← FunctionDAG.at_ (FunctionDAG.node_map dag) f;
        let bound :=
          mkBound reg min_points
                  (d_mul (d_of_int min_points) (FunctionDAG.compute node)) in
        Ok (bound, <[f := bound]> cache)
      else
        if bool_decide (out = []) then Err InternalAssert else
        let each_edge :=
          fix each_edge (es : list (FunctionDAG.Edge))
              (st : gmap Function Bound * list (Z * Z) * Z)
              : Res (gmap Function Bound * list (Z * Z) * Z) :=
            match es with
            | [] => Ok st
            | e :: es' =>
              let '(cache, reg, calls_if_inlined) := st in
              '(c_bounds, cache) ←
                get_bounds_rec fuel' root (FunctionDAG.consumer e) cache;
              (* expand bounds to satisfy consumer *)
              let s := consumer_scope (FunctionDAG.consumer e) 0
                         (region c_bounds) ∅ in
              let calls_if_inlined :=
                calls_if_inlined + min_points c_bounds * FunctionDAG.calls e in
              reg ← merge_dims s e 0 (Function.dimensions f) reg;
              each_edge es' (cache, reg, calls_if_inlined)
            end in
        '(cache, reg, calls_if_inlined) ← each_edge out (cache, [], 0);
        points_if_realized ← region_points (Function.dimensions f) 0 reg;
        n ← FunctionDAG.at_ (FunctionDAG.node_map dag) f;
        let bound :=
          mkBound reg (Z.min points_if_realized calls_if_inlined)
            (d_min (d_mul (d_of_int points_if_realized) (FunctionDAG.compute n))
                   (d_mul (d_of_int calls_if_inlined)
                          (FunctionDAG.compute_if_inlined n))) in
        if bool_decide (reg = []) then Err InternalAssert
        else Ok (bound, <[f := bound]> cache)
    end
  end.

(** A chain of consumers in an acyclic DAG is no longer than the DAG. *)
Definition bounds_fuel : nat := S (length (FunctionDAG.nodes dag)).

(** [get_bounds(f, dag)]: the bound and the node with its memo table
    updated. *)
Definition get_bounds (n : PartialScheduleNode) (f : Function)
    : Res (Bound * PartialScheduleNode) :=
  '(b, cache) ← get_bounds_rec bounds_fuel (is_root n) f (bounds n);
  Ok (b, set_bounds n cache).


(** *** Allocation *)

(** Computations that may allocate nodes and may fail: the state is the
    next free address. *)
Definition Alloc (A : Type) : Type := ptr -> Res (A * ptr).

#[global] Instance Alloc_ret : MRet Alloc := fun A a next => Ok (a, next).
#[global] Instance Alloc_bind : MBind Alloc := fun A B f m next =>
  match m next with
  | Ok (a, next') => f a next'
  | Err e => Err e
  end.

(** [new PartialScheduleNode(...)]: the address of the fresh node. *)
Definition new_node : Alloc ptr := fun next => Ok (next, S next).

Definition lift {A} (r : Res A) : Alloc A := fun next =>
  match r with Ok a => Ok (a, next) | Err e => Err e end.

(** *** Queries on the tree ([calls], [computes]) *)

(** [calls(f, dag)], given [out = dag.outgoing_edges.at(f)]. *)
Fixpoint calls_in (out : list FunctionDAG.Edge) (n : PartialScheduleNode)
    : bool :=
  existsb (fun c => calls_in out c.2) (children n) ||
  existsb (fun e =>
             bool_decide (func n = Some (FunctionDAG.consumer e)) ||
             bool_decide (is_Some (inlined n !! FunctionDAG.consumer e)))
          out.

Definition calls (n : PartialScheduleNode) (f : Function) : Res bool :=
  out ← FunctionDAG.at_ (FunctionDAG.outgoing_edges dag) f;
  Ok (calls_in out n).

Fixpoint computes (n : PartialScheduleNode) (f : Function) : bool :=
  bool_decide (func n = Some f) ||
  bool_decide (is_Some (inlined n !! f)) ||
  existsb (fun c => computes c.2 f) (children n).

(** *** Inlining ([inline_func]) *)

(** The number of direct calls of [f] from an innermost node: for every
    outgoing edge, the calls through the inlined consumer and the calls
    from the node's own function. *)
Definition inlined_calls (out : list FunctionDAG.Edge)
    (n : PartialScheduleNode) : Z :=
  fold_left
    (fun calls e =>
       let calls :=
         match inlined n !! FunctionDAG.consumer e with
         | Some v => calls + v * FunctionDAG.calls e
         | None => calls
         end in
       if bool_decide (func n = Some (FunctionDAG.consumer e))
       then calls + FunctionDAG.calls e else calls)
    out 0.

(** [inline_func(f, dag)], given [out = dag.outgoing_edges.at(f)]: a copy
    of the node in which every child that calls [f] is replaced by a fresh
    node holding its inlined copy. *)
Fixpoint inline_func_in (out : list FunctionDAG.Edge) (f : Function)
    (n : PartialScheduleNode) : Alloc PartialScheduleNode :=
  let inline_children :=
    fix inline_children (cs : list (ptr * PartialScheduleNode))
        : Alloc (list (ptr * PartialScheduleNode)) :=
      match cs with
      | [] => mret []
      | c :: cs' =>
        c' ← (if calls_in out c.2
              then p ← new_node;
                   n' ← inline_func_in out f c.2;
                   mret (p, n')
              else mret c);
        rest ← inline_children cs';
        mret (c' :: rest)
      end in
  cs ← inline_children (children n);
  let result := set_children n cs in
  if innermost n then
    let calls := inlined_calls out n in
    if calls =? 0 then mret result
    else mret (set_inlined result (<[f := calls]> (inlined result)))
  else mret result.

Definition inline_func (n : PartialScheduleNode) (f : Function)
    : Alloc PartialScheduleNode :=
  out ← lift (FunctionDAG.at_ (FunctionDAG.outgoing_edges dag) f);
  inline_func_in out f n.

(** *** Realization at a node ([compute_here]) *)

(** The loop extents and the single-point region of the new leaf, from the
    first [dims] intervals of the required region. *)
Fixpoint leaf_shape (dims i : nat) (reg : list (Z * Z))
    : Res (list Z * list (Z * Z)) :=
  match dims with
  | O => Ok ([], [])
  | S dims' =>
    p ← res_of_option Undefined (reg !! i);
    '(sz, pt) ← leaf_shape dims' (S i) reg;
    Ok ((p.2 - p.1 + 1) :: sz, (p.1, p.1) :: pt)
  end.

Definition compute_here (n : PartialScheduleNode) (f : Function)
    : Alloc PartialScheduleNode :=
  '(b, n) ← lift (get_bounds n f);
  p ← new_node;
  node ← lift (FunctionDAG.at_ (FunctionDAG.node_map dag) f);
  '(sz, pt) ← lift (leaf_shape (Function.dimensions f) 0 (region b));
  let single_point := mkBound pt 1 (FunctionDAG.compute node) in
  let leaf := mkPSN (Some f) true true sz [] ∅ ∅ {[f := single_point]} in
  mret (set_children n (children n ++ [(p, leaf)])).

(** *** Tiled realization ([compute_in_tiles]) *)

(** [for (auto x : l) { ... result.push_back(...) ... }] in [Alloc]. *)
Fixpoint for_each {A B} (body : A -> Alloc (list B)) (l : list A)
    : Alloc (list B) :=
  match l with
  | [] => mret []
  | x :: l' =>
    r ← body x;
    rest ← for_each body l';
    mret (r ++ rest)
  end.

(** The indices of the children that call [f]: [child] is the last of
    them, [called_by_multiple_children] holds when there are two. *)
Definition calling_children (out : list FunctionDAG.Edge)
    (n : PartialScheduleNode) : list nat :=
  (fun ic => ic.1) <$>
    filter (fun ic => calls_in out ic.2.2) (imap (fun i c => (i, c)) (children n)).

(** [int total = 1; for (auto s : t) total *= s;] *)
Definition tiling_total (t : list Z) : Z :=
  fold_left (fun total s => cast_int (total * s)) t 1.

(** "Then move factors from the outer loop to the inner loop": the state is
    the inner sizes, the outer sizes and the region of the outer loop. *)
Fixpoint move_factors (t : list Z) (i : nat) (parent_reg : list (Z * Z))
    (st : list Z * list Z * list (Z * Z))
    : Res (list Z * list Z * list (Z * Z)) :=
  match t with
  | [] => Ok st
  | ti :: t' =>
    let '(isz, osz, reg) := st in
    let factor := cast_int ti in
    os ← res_of_option Undefined (osz !! i);
    _ ← res_of_option Undefined (isz !! i);
    if factor =? 0 then Err Undefined else
    pr ← res_of_option Undefined (parent_reg !! i);
    _ ← res_of_option Undefined (reg !! i);
    let min := pr.1 in
    let extent := pr.2 - min + 1 in
    let extent := (extent + factor - 1) ÷ factor in
    move_factors t' (S i) parent_reg
      (<[i := (os + factor - 1) ÷ factor]> isz,
       <[i := factor]> osz,
       <[i := (min, min + extent - 1)]> reg)
  end.

(** The outer and the inner loop of one tiling [t] of a node. The inner
    loop takes the children, the inlined functions, the memo table and the
    realizations of the node; the outer loop keeps the bound of its own
    function, shrunk to one tile. A tileable node has a function: only
    [compute_here] makes tileable nodes. *)
Definition tile_node (n : PartialScheduleNode) (parent : PartialScheduleNode)
    (t : list Z) : Res (PartialScheduleNode * PartialScheduleNode) :=
  fn ← res_of_option Undefined (func n);
  own ← res_of_option Undefined (bounds n !! fn);
  '(parent_bounds, _) ← get_bounds parent fn;
  '(isz, osz, reg) ←
    move_factors t 0 (region parent_bounds)
      (replicate (length (size n)) 1, size n, region own);
  let inner :=
    mkPSN (func n) (innermost n) (tileable n) isz (children n)
          (inlined n) (store_at n) (bounds n) in
  let outer :=
    mkPSN (func n) false (tileable n) osz [] ∅ ∅
          {[fn := mkBound reg (min_points own) (min_cost own)]} in
  Ok (outer, inner).

(** One unfolding of [compute_in_tiles], given [out =
    dag.outgoing_edges.at(f)]. The calls on the children are [recs], one
    per child, to be applied to the parent and [in_realization]; the call
    on the inner loop of a tiling is [on_inner], applied to the inner loop
    and its parent (it is made with [in_realization = true]). *)
Definition compute_in_tiles_step (out : list FunctionDAG.Edge) (f : Function)
    (on_inner : PartialScheduleNode -> PartialScheduleNode ->
                Alloc (list PartialScheduleNode))
    (recs : list (option PartialScheduleNode -> bool ->
                  Alloc (list PartialScheduleNode)))
    (n : PartialScheduleNode) (parent : option PartialScheduleNode)
    (in_realization : bool) : Alloc (list PartialScheduleNode) :=
  (* Figure out which child we can fuse this into *)
  let calling := calling_children out n in
  (* Place the computation inside this loop *)
  r ← compute_here n f;
  let r := if in_realization then r
           else set_store_at r ({[f]} ∪ store_at r) in
  if bool_decide (out = []) then mret [r] (* Can't tile outputs *) else
  tiled ←
    (if tileable n then
       tilings ← lift (generate_tilings (size n) (length (size n))
                                        (negb in_realization));
       for_each (fun t =>
         par ← lift (res_of_option Undefined parent);
         if is_root par && (tiling_total t <? 16) then mret [] else
         (* Tile this loop and place the computation at some coarser
            granularity *)
         p_inner ← new_node;
         '(outer, inner) ← lift (tile_node n par t);
         let outer := set_children outer [(p_inner, inner)] in
         (* Site the computation inside the outer loop *)
         compute_at_here ← compute_here outer f;
         let compute_at_here :=
           if in_realization then compute_at_here
           else set_store_at compute_at_here
                  ({[f]} ∪ store_at compute_at_here) in
         if in_realization then mret [compute_at_here] else
         (* Also consider just storing here, but computing further in *)
         let store_at_here := set_store_at outer ({[f]} ∪ store_at outer) in
         v ← on_inner inner store_at_here;
         slid ← for_each (fun n' =>
                   p ← new_node;
                   mret [set_children store_at_here
                           [(p, set_tileable n' false)]]) v;
         mret (compute_at_here :: slid)) tilings
     else mret []);
  pushed ←
    (match last calling with
     | Some child =>
       if bool_decide (length calling = 1%nat) then
         for_each (fun store_here : bool =>
           if store_here && (in_realization || is_root n) then mret [] else
           rec ← lift (res_of_option Undefined (recs !! child));
           v ← rec (Some n) store_here;
           for_each (fun n' =>
             (* Push the computation into the child. Possibly leaving the
                storage out here. *)
             let r := if store_here
                      then set_store_at n ({[f]} ∪ store_at n) else n in
             p ← new_node;
             mret [set_children r (<[child := (p, n')]> (children r))]) v)
           [false; true]
       else mret []
     | None => mret []
     end);
  mret (r :: tiled ++ pushed).

(** [compute_in_tiles]. The source calls itself on a child, and, when not
    in a realization, on the inner loop of each tiling with
    [in_realization = true]; that second call tiles no further (it calls
    itself on the children only), and the inner loop has the children of
    the node itself, so the recursion is on the children. *)
Fixpoint compute_in_tiles_in (out : list FunctionDAG.Edge) (f : Function)
    (n : PartialScheduleNode)
    : option PartialScheduleNode -> bool -> Alloc (list PartialScheduleNode) :=
  let recs := map (fun c => compute_in_tiles_in out f c.2) (children n) in
  compute_in_tiles_step out f
    (fun inner store_at_here =>
       compute_in_tiles_step out f (fun _ _ => mret []) recs
                             inner (Some store_at_here) true)
    recs n.

Definition compute_in_tiles (n : PartialScheduleNode) (f : Function)
    (parent : option PartialScheduleNode) (in_realization : bool)
    : Alloc (list PartialScheduleNode) :=
  out ← lift (FunctionDAG.at_ (FunctionDAG.outgoing_edges dag) f);
  compute_in_tiles_in out f n parent in_realization.

(** *** The cost model ([cost]) *)

(** The [State]'s own root is not allocated by [new]; it is given the
    address 0, and [new] hands out addresses from 1 on. *)
Definition root_addr : ptr := 0%nat.

(** A [const PartialScheduleNode *]: null, or an address and the node
    found there. *)
Definition node_ptr : Type := option (ptr * PartialScheduleNode).

(** [compute_site] and [overcompute]. The key of [overcompute] is the
    node's [func], which is undefined at the root. *)
Definition cost_maps : Type :=
  gmap Function node_ptr * gmap (option Function) D.

(** The vectorization of an innermost loop: [subinstances] rounded up to
    whole vectors of 16 along dimension 0, and the overcompute factor. *)
Definition vector_overcompute (sz : list Z) (subinstances : Z)
    : Res (Z * D) :=
  match sz with
  | [] => Err Undefined
  | s0 :: _ =>
    if s0 =? 0 then Err Undefined else
    let ideal_subinstances := subinstances in
    let subinstances := subinstances ÷ s0 in
    let subinstances := subinstances * (((s0 + 15) ÷ 16) * 16) in
    (* Record overcompute due to vectorization *)
    let factor := d_div (d_of_int subinstances) (d_of_int ideal_subinstances) in
    (* Add some generic loop overhead *)
    let factor :=
      d_mul factor (d_div (d_add (d_of_int s0) d_0_01) (d_of_int s0)) in
    Ok (subinstances, factor)
  end.

(** [if (innermost) { ... overcompute[func] = factor; }] *)
Definition record_overcompute (n : PartialScheduleNode) (subinstances : Z)
    (overcompute : gmap (option Function) D)
    : Res (Z * gmap (option Function) D) :=
  if innermost n then
    '(subinstances, factor) ← vector_overcompute (size n) subinstances;
    Ok (subinstances, <[func n := factor]> overcompute)
  else Ok (subinstances, overcompute).

(** [points]: the product of the extents of a region, as a double. *)
Definition region_points_d (reg : list (Z * Z)) : D :=
  fold_left (fun points p => d_mul points (d_of_int (p.2 - p.1 + 1)))
            reg (d_of_int 1).

(** The locality discount: from the last dimension down, the first one in
    which the computed extent differs from the realized extent gives
    [ec / er]; [1.01] when there is none. *)
Fixpoint folding_discount (i : nat) (realized computed : list (Z * Z))
    : Res D :=
  match i with
  | O => Ok d_1_01
  | S i' =>
    r ← res_of_option Undefined (realized !! i');
    c ← res_of_option Undefined (computed !! i');
    let er := r.2 - r.1 + 1 in
    let ec := c.2 - c.1 + 1 in
    if er =? ec then folding_discount i' realized computed
    else Ok (d_div (d_of_int ec) (d_of_int er))
  end.

(** [mem_cost] of a function realized at a node. *)
Definition mem_cost_of (memory : D) (instances : Z) (points discount : D)
    : D :=
  let cost_per_cold_load := d_log (d_mul discount points) in
  let num_cold_loads := d_mul (d_of_int instances) points in
  d_mul (d_mul memory num_cold_loads) cost_per_cold_load.

(** "This cost is applied to each outgoing edge": [result += mem_cost]
    once per edge. *)
Definition bill_edges (out : list FunctionDAG.Edge) (mem_cost result : D)
    : D :=
  fold_left (fun result _ => d_add result mem_cost) out result.

(** The discount of a function realized at the node at address [this]:
    1 when it is computed at that very node ([it->second == this]),
    otherwise the folding discount between the region realized here and the
    region required at the compute site. *)
Definition locality_discount (this : ptr) (site : node_ptr) (f : Function)
    (bounds_realized : Bound) : Res D :=
  match site with
  | None => Err Undefined
  | Some (p, pn) =>
    if bool_decide (p = this) then Ok (d_of_int 1)
    else
      '(bounds_computed, _) ← get_bounds pn f;
      folding_discount (length (region bounds_realized))
                       (region bounds_realized) (region bounds_computed)
  end.

(** The body of [for (Function f : store_at)]: the bill of one function
    realized at the node [n] at address [this]. The state is the node (its
    memo table grows), [overcompute] (a missing entry is created as 0) and
    the running [result]. *)
Definition bill_realized (this : ptr) (instances subinstances : Z)
    (compute_site : gmap Function node_ptr) (f : Function)
    (st : PartialScheduleNode * gmap (option Function) D * D)
    : Res (PartialScheduleNode * gmap (option Function) D * D) :=
  let '(n, overcompute, result) := st in
  '(bounds_realized, n) ← get_bounds n f;
  let points := region_points_d (region bounds_realized) in
  node ← FunctionDAG.at_ (FunctionDAG.node_map dag) f;
  let compute_cost :=
    d_mul (d_mul (FunctionDAG.compute node) points) (d_of_int subinstances) in
  let oc := default (d_of_int 0) (overcompute !! Some f) in
  let overcompute := <[Some f := oc]> overcompute in
  let compute_cost := d_mul compute_cost oc in
  (* Compute a locality discount due to assumed storage folding. *)
  site ← res_of_option InternalAssert (compute_site !! f);
  discount ← locality_discount this site f bounds_realized;
  let mem_cost :=
    mem_cost_of (FunctionDAG.memory node) instances points discount in
  out ← FunctionDAG.at_ (FunctionDAG.outgoing_edges dag) f;
  let result := bill_edges out mem_cost result in
  Ok (n, overcompute, d_add result (d_add mem_cost compute_cost)).

(** [for (Function f : store_at)] *)
Fixpoint bill_all_realized (this : ptr) (instances subinstances : Z)
    (compute_site : gmap Function node_ptr) (fs : list Function)
    (st : PartialScheduleNode * gmap (option Function) D * D)
    : Res (PartialScheduleNode * gmap (option Function) D * D) :=
  match fs with
  | [] => Ok st
  | f :: fs' =>
    st' ← bill_realized this instances subinstances compute_site f st;
    bill_all_realized this instances subinstances compute_site fs' st'
  end.

(** [for (auto p : inlined)] *)
Fixpoint bill_inlined (subinstances : Z) (ps : list (Function * Z))
    (result : D) : Res D :=
  match ps with
  | [] => Ok result
  | p :: ps' =>
    node ← FunctionDAG.at_ (FunctionDAG.node_map dag) p.1;
    let c :=
      d_mul (d_mul (FunctionDAG.compute_if_inlined node)
                   (d_of_int subinstances))
            (d_of_int p.2) in
    bill_inlined subinstances ps' (d_add result c)
  end.

(** [cost(dag, compute_site, overcompute, instances, parent)] of the node
    [n] at address [this]; the optional maps of the debugging output are
    left out. The memo tables are caches: the entries that the recursion
    adds to them are not part of the result. *)
Fixpoint cost (n : PartialScheduleNode) (this : ptr) (parent : node_ptr)
    (instances : Z) (maps : cost_maps) : Res (D * cost_maps) :=
  let '(compute_site, overcompute) := maps in
  let compute_site :=
    match func n with
    | Some fn =>
      if bool_decide (is_Some (compute_site !! fn)) then compute_site
      else <[fn := parent]> compute_site
    | None => compute_site
    end in
  let result := d_of_int 0 in
  let subinstances := fold_left Z.mul (size n) instances in
  '(subinstances, overcompute) ← record_overcompute n subinstances overcompute;
  let each_child :=
    fix each_child (cs : list (ptr * PartialScheduleNode))
        (st : D * cost_maps) : Res (D * cost_maps) :=
      match cs with
      | [] => Ok st
      | c :: cs' =>
        '(c_cost, maps) ← cost c.2 c.1 (Some (this, n)) subinstances st.2;
        each_child cs' (d_add st.1 c_cost, maps)
      end in
  '(result, (compute_site, overcompute)) ←
    each_child (children n) (result, (compute_site, overcompute));
  (* Bill compute and memory costs for all Funcs realized within this loop *)
  '(_, overcompute, result) ←
    bill_all_realized this instances subinstances compute_site
                      (elements (store_at n)) (n, overcompute, result);
  (* Bill compute cost for all Funcs inlined in this loop *)
  result ← bill_inlined subinstances (map_to_list (inlined n)) result;
  Ok (result, (compute_site, overcompute)).

(** ** Search states *)

Record State : Type := mkState {
  root : PartialScheduleNode;
  state_cost : D;
  num_funcs_scheduled : nat }.

(** [new State]: an empty root, cost 0, nothing scheduled. *)
Definition initial_state : State := mkState empty_node (d_of_int 0) 0.

(** "Subtract the essential compute cost of the funcs scheduled so far":
    [for (int i = 0; i < num_funcs_scheduled; i++)], from index [i] on. *)
Fixpoint subtract_essential (todo i : nat) (rt : PartialScheduleNode)
    (c : D) : Res (PartialScheduleNode * D) :=
  match todo with
  | O => Ok (rt, c)
  | S todo' =>
    n ← res_of_option Undefined (FunctionDAG.nodes dag !! i);
    '(b, rt) ← get_bounds rt (FunctionDAG.func n);
    subtract_essential todo' (S i) rt (d_sub c (min_cost b))
  end.

Definition calculate_cost (s : State) : Res State :=
  '(c, _) ← cost (root s) root_addr None 1 (∅, ∅);
  '(rt, c) ← subtract_essential (num_funcs_scheduled s) 0 (root s) c;
  Ok (mkState rt c (num_funcs_scheduled s)).

(** *** Successors of a state ([generate_children]) *)

(** [child->num_funcs_scheduled++; child->calculate_cost(dag);
    internal_assert(child->root.computes(f))] *)
Definition make_child (s : State) (f : Function) (rt : PartialScheduleNode)
    : Res State :=
  child ← calculate_cost (mkState rt (state_cost s) (S (num_funcs_scheduled s)));
  if computes (root child) f then Ok child else Err InternalAssert.

(** The children in the order in which [accept_child] receives them. *)
Definition generate_children (s : State) : Alloc (list State) :=
  if negb (is_root (root s)) then lift (Err InternalAssert) else
  if bool_decide (num_funcs_scheduled s = length (FunctionDAG.nodes dag))
  then mret [] else
  (* Enumerate all legal ways to schedule the next Func *)
  node ← lift (res_of_option Undefined
                 (FunctionDAG.nodes dag !! num_funcs_scheduled s));
  let f := FunctionDAG.func node in
  out ← lift (FunctionDAG.at_ (FunctionDAG.outgoing_edges dag) f);
  if negb (forallb (fun e => computes (root s) (FunctionDAG.consumer e)) out)
  then lift (Err InternalAssert) else
  (* 1) Inline it *)
  inl ← (if bool_decide (out = []) then mret []
         else rt ← inline_func (root s) f;
              child ← lift (make_child s f rt);
              mret [child]);
  (* 2) Realize it somewhere *)
  tile_options ← compute_in_tiles (root s) f None false;
  realized ← for_each (fun n => child ← lift (make_child s f n);
                                mret [child]) tile_options;
  mret (inl ++ realized).

(** *** The beam search ([optimal_schedule]) *)

(** [CompareStates]: [a->cost > b->cost]. *)
Definition CompareStates (a b : State) : bool :=
  d_ltb (state_cost b) (state_cost a).

(** Modelled from the spec: [std::priority_queue<.., CompareStates>], a
    queue whose [top] is an element that [CompareStates] puts below no
    other, here kept as a list with the top first; [push] places a state
    behind the states that do not compare above it. *)
Definition queue : Type := list State.

Fixpoint push (x : State) (q : queue) : queue :=
  match q with
  | [] => [x]
  | y :: q' => if CompareStates y x then x :: q else y :: push x q'
  end.

(** [for (int i = 0; i < beam_size; i++) { trimmed.push(q.top()); q.pop(); }] *)
Fixpoint trim_loop (k : nat) (q trimmed : queue) : Res queue :=
  match k with
  | O => Ok trimmed
  | S k' =>
    match q with
    | [] => Err Undefined
    | top :: q' => trim_loop k' q' (push top trimmed)
    end
  end.

(** [if (q.size() > (size_t)beam_size) { ... q.swap(trimmed); }] *)
Definition trim (beam_size : Z) (q : queue) : Res queue :=
  if Z.of_nat (length q) >? beam_size mod 2 ^ 64
  then trim_loop (Z.to_nat beam_size) q []
  else Ok q.

(** [while (!pending.empty())]: the state returned, or the next queue. *)
Fixpoint expand (pending q : queue) : Alloc (State + queue) :=
  match pending with
  | [] => mret (inr q)
  | state :: pending' =>
    if bool_decide (num_funcs_scheduled state = length (FunctionDAG.nodes dag))
    then mret (inl state)
    else
      cs ← generate_children state;
      expand pending' (fold_left (fun q c => push c q) cs q)
  end.

(** What a run of the search comes to: the state it returns, an abort of
    the program, or no answer within the passes given. *)
Inductive outcome : Type :=
| Found (s : State)
| Aborted (e : error)
| OutOfPasses.

(** [for (int i = 0; ; i++)], for at most [passes] passes. *)
Fixpoint search (passes : nat) (beam_size : Z) (q : queue) (next : ptr)
    : outcome :=
  match passes with
  | O => OutOfPasses
  | S passes' =>
    match trim beam_size q with
    | Err e => Aborted e
    | Ok q =>
      match expand q [] next with
      | Err e => Aborted e
      | Ok (inl state, _) => Found state
      | Ok (inr q', next') => search passes' beam_size q' next'
      end
    end
  end.

Definition optimal_schedule (passes : nat) (beam_size : Z) : outcome :=
  search passes beam_size [initial_state] 1%nat.

End Schedule.

Arguments Bound : clear implicits.
Arguments PartialScheduleNode : clear implicits.
Arguments State : clear implicits.
Arguments outcome : clear implicits.

(** ** Applying a schedule ([apply], [apply_schedule]) *)

(** Modelled from the spec: the scheduling calls of the host compiler's
    front end ([Func(f).compute_root()], [vectorize], [unroll], [parallel],
    [split], [fuse], [store_at], [compute_at], [reorder]) are recorded, in
    the order in which [apply] makes them, with the names of the variables
    that they are given. A [LoopLevel] is the root, or a loop variable of a
    function. *)
Inductive LoopLevel : Type :=
| LevelRoot
| LevelAt (f : Function) (v : string).

Inductive directive : Type :=
| ComputeRoot (f : Function)
| Vectorize (f : Function) (v : string) (factor : Z)
| Unroll (f : Function) (v : string)
| Parallel (f : Function) (v : string) (task_size : option Z)
| Split (f : Function) (old outer inner : string) (factor : Z)
| Fuse (f : Function) (inner outer fused : string)
| StoreAt (f : Function) (level : LoopLevel)
| ComputeAt (f : Function) (level : LoopLevel)
| Reorder (f : Function) (vars : list string).

(** [(int)std::ceil(x)]: undefined when the value is not in the range of
    [int]. *)
Class DoubleCeil (D : Type) : Type := d_ceil_int : D -> Res Z.

Definition int_of_integer (z : Z) : Res Z :=
  if (- 2 ^ 31 <=? z) && (z <=? INT_MAX) then Ok z else Err Undefined.

#[global] Instance binary64_ceil : DoubleCeil float := fun x =>
  match Prim2SF x with
  | S754_zero _ => Ok 0
  | S754_finite s m e =>
    let q := ((if s then Z.neg m # 1 else Z.pos m # 1) * 2 ^ e)%Q in
    int_of_integer (Qceiling q)
  | _ => Err Undefined
  end.

#[global] Instance exact_ceil : DoubleCeil Q := fun x =>
  int_of_integer (Qceiling x).

Section Apply.
Context {D : Type} {dops : DoubleOps D} {dceil : DoubleCeil D}.
Variable dag : FunctionDAG D.

(** [vars_map] and the calls made so far. *)
Definition schedule_state : Type := gmap Function (list string) * list directive.

(** [num_cores > 1] *)
Definition several (num_cores : D) : bool := d_ltb (d_of_int 1) num_cores.

(** The innermost loop: vectorize, unroll, parallelize. *)
Definition apply_innermost (fn : Function) (sz : list Z) (vars : list string)
    (num_cores : D) (tr : list directive) : Res (LoopLevel * list directive) :=
  v ← res_of_option Undefined (vars !! 0%nat);
  s0 ← res_of_option Undefined (sz !! 0%nat);
  let tr :=
    if 16 <=? s0 then tr ++ [Vectorize fn v 16]
    else if 8 <=? s0 then tr ++ [Vectorize fn v 8]
    else if 4 <=? s0 then tr ++ [Vectorize fn v 4]
    else tr in
  let tr :=
    if Z.of_nat (Function.dimensions fn) <? cast_int (Z.of_nat (length vars))
    then
      (* If we've tiled at least once, we know the inner extents and can
         unroll them if they're small. *)
      if s0 <=? 32 then tr ++ [Unroll fn v] else tr
    else tr in
  tr ←
    (if several num_cores then
       back ← res_of_option Undefined (last sz);
       let task_size := d_div (d_of_int back) num_cores in
       pv ← res_of_option Undefined
              (match Function.dimensions fn with
               | O => None
               | S d => vars !! d
               end);
       if d_ltb (d_of_int 1) task_size then
         ts ← d_ceil_int task_size;
         Ok (tr ++ [Parallel fn pv (Some ts)])
       else Ok (tr ++ [Parallel fn pv None])
     else Ok tr);
  Ok (LevelAt fn v, tr).

(** "Do the implied splits": [for (size_t i = 0; i < b.region.size(); i++)],
    from dimension [i] on. *)
Fixpoint implied_splits (fn : Function) (reg : list (Z * Z)) (i : nat)
    (vars new_inner : list string) (tr : list directive)
    : Res (list string * list string * list directive) :=
  match reg with
  | [] => Ok (vars, new_inner, tr)
  | p :: reg' =>
    let extent := cast_int (p.2 - p.1 + 1) in
    old ← res_of_option Undefined (vars !! i);
    let outer := old +:+ "o" in
    let inner := old +:+ "i" in
    implied_splits fn reg' (S i) (<[i := outer]> vars) (new_inner ++ [inner])
                   (tr ++ [Split fn old outer inner extent])
  end.

(** "parallelize the outer vars":
    [for (int i = func.dimensions() - 1; num_cores > 1 && i >= 0; i--)],
    with [k = i + 1]. The result holds [num_cores],
    [num_parallel_dimensions] and [innermost_parallel_dimension], which is
    not initialized before the first round. *)
Fixpoint parallelize_outer (fn : Function) (sz : list Z) (vars : list string)
    (k : nat) (st : D * nat * option nat * list directive)
    : Res (D * nat * option nat * list directive) :=
  match k with
  | O => Ok st
  | S i =>
    let '(num_cores, num_parallel_dimensions, _, tr) := st in
    if several num_cores then
      v ← res_of_option Undefined (vars !! i);
      s ← res_of_option Undefined (sz !! i);
      parallelize_outer fn sz vars i
        (d_div num_cores (d_of_int s), S num_parallel_dimensions, Some i,
         tr ++ [Parallel fn v None])
    else Ok st
  end.

(** "Fuse them into one parallel loop":
    [for (int i = 0; i < num_parallel_dimensions - 1; i++)], [k] rounds. *)
Fixpoint fuse_parallel (fn : Function) (k : nat) (ipd : option nat)
    (vars : list string) (tr : list directive)
    : Res (list string * list directive) :=
  match k with
  | O => Ok (vars, tr)
  | S k' =>
    d ← res_of_option Undefined ipd;
    inner ← res_of_option Undefined (vars !! d);
    outer ← res_of_option Undefined (vars !! S d);
    let fused := inner +:+ "_" +:+ outer in
    fuse_parallel fn k' ipd (delete (S d) (<[d := fused]> vars))
                  (tr ++ [Fuse fn inner outer fused])
  end.

(** A loop over tiles: split, parallelize, fuse. The bound is the node's
    own ([get_bounds(func, dag)]); the memo table that the call fills is a
    cache and is not returned. *)
Definition apply_tiled (n : PartialScheduleNode D) (fn : Function)
    (vars : list string) (num_cores : D) (tr : list directive)
    : Res (LoopLevel * list string * D * list directive) :=
  '(b, _) ← get_bounds dag n fn;
  '(vars, new_inner, tr) ← implied_splits fn (region b) 0 vars [] tr;
  '(vars, num_cores, tr) ←
    (if several num_cores then
       '(num_cores, num_parallel_dimensions, ipd, tr) ←
         parallelize_outer fn (size n) vars (Function.dimensions fn)
                           (num_cores, 0%nat, None, tr);
       '(vars, tr) ←
         fuse_parallel fn (num_parallel_dimensions - 1) ipd vars tr;
       Ok (vars, num_cores, tr)
     else Ok (vars, num_cores, tr));
  v ← res_of_option Undefined (vars !! 0%nat);
  Ok (LevelAt fn v, new_inner ++ vars, num_cores, tr).

(** [apply(here, dag, vars_map, num_cores)]. *)
Fixpoint apply (n : PartialScheduleNode D) (here : LoopLevel) (num_cores : D)
    (st : schedule_state) : Res schedule_state :=
  let each_child :=
    fix each_child (placed : Function -> option directive)
        (here : LoopLevel) (num_cores : D)
        (cs : list (ptr * PartialScheduleNode D)) (st : schedule_state)
        : Res schedule_state :=
      match cs with
      | [] => Ok st
      | c :: cs' =>
        cf ← res_of_option Undefined (func c.2);
        let st := match placed cf with
                  | Some d => (st.1, st.2 ++ [d])
                  | None => st
                  end in
        st ← apply c.2 here num_cores st;
        each_child placed here num_cores cs' st
      end in
  match func n with
  | None =>
    each_child (fun cf => Some (ComputeRoot cf)) LevelRoot num_cores
               (children n) st
  | Some fn =>
    let '(vars_map, tr) := st in
    let vars := default [] (vars_map !! fn) in
    let vars := if bool_decide (vars = []) then Function.args fn else vars in
    '(here, vars, num_cores, tr) ←
      (if innermost n then
         '(here, tr) ← apply_innermost fn (size n) vars num_cores tr;
         Ok (here, vars, num_cores, tr)
       else apply_tiled n fn vars num_cores tr);
    let vars_map := <[fn := vars]> vars_map in
    let tr :=
      fold_left (fun tr f => tr ++ [StoreAt f here]) (elements (store_at n)) tr in
    each_child (fun cf => if bool_decide (cf = fn) then None
                          else Some (ComputeAt cf here))
               here num_cores (children n) (vars_map, tr)
  end.

(** [apply_schedule(dag, params)], given [params.parallelism]: the calls
    that it makes. *)
Definition apply_schedule (s : State D) (parallelism : Z)
    : Res (list directive) :=
  '(vars_map, tr) ← apply (root s) LevelRoot (d_of_int parallelism) (∅, []);
  (* Do all the reorders *)
  Ok (fold_left (fun tr p => tr ++ [Reorder p.1 p.2]) (map_to_list vars_map) tr).

End Apply.

(** ** The driver ([generate_schedules_top_down]) *)

(** What a run of the driver comes to: the scheduling calls made, an abort
    of the program, or no answer within the passes and runs given. *)
Inductive run_result : Type :=
| Scheduled (calls : list directive)
| Failed (e : error)
| Unfinished.

Section Driver.
Context {D : Type} {dops : DoubleOps D} {dceil : DoubleCeil D}.
Variable dag : FunctionDAG D.

(** "Use a fixed running time": [for (size_t beam_size = 1; ; beam_size *= 2)],
    for at most [runs] runs of at most [passes] passes each, [k] runs
    having been made.

    Modelled from the spec: the steady clock is the function [elapsed],
    which gives the time since the start as it is read after run [k]. *)
Fixpoint timed_runs (passes runs : nat) (time_limit : D) (elapsed : nat -> D)
    (k : nat) (beam_size : Z) (optimal : State D) : outcome D :=
  match runs with
  | O => OutOfPasses
  | S runs' =>
    match optimal_schedule dag passes (cast_int beam_size) with
    | Found s =>
      let optimal :=
        if (beam_size =? 1) || d_ltb (state_cost s) (state_cost optimal)
        then s else optimal in
      if d_ltb (d_div time_limit (d_of_int 2)) (elapsed k) then Found optimal
      else timed_runs passes runs' time_limit elapsed (S k)
                      ((2 * beam_size) mod 2 ^ 64) optimal
    | r => r
    end
  end.

(** [generate_schedules_top_down], given the DAG that it constructs.

    Modelled from the spec: the environment is [beam_size_env], the value
    that [atoi] gives for [HL_BEAM_SIZE] when that is set, and
    [time_limit], the value that [atof] gives for
    [HL_AUTO_SCHEDULE_TIME_LIMIT] when that is set and is not zero. The
    debugging output is left out. *)
Definition generate_schedules_top_down (passes runs : nat)
    (beam_size_env : option Z) (time_limit : option D) (elapsed : nat -> D)
    (parallelism : Z) : run_result :=
  let beam_size :=
    match beam_size_env with
    | Some b => b mod 2 ^ 64
    | None => 1
    end in
  let found :=
    match time_limit with
    | Some limit => timed_runs passes runs limit elapsed 0 1 initial_state
    | None => optimal_schedule dag passes (cast_int beam_size)
    end in
  match found with
  | Found optimal =>
    match calculate_cost dag optimal ≫= fun optimal =>
          apply_schedule dag optimal parallelism with
    | Ok calls => Scheduled calls
    | Err e => Failed e
    end
  | Aborted e => Failed e
  | OutOfPasses => Unfinished
  end.

End Driver.

(** * Properties *)

(** ** Bounds of an output at the root *)

Section OutputBounds.
Context {D : Type} {dops : DoubleOps D}.



Definition product (l : list Z) : Z := foldr Z.mul 1 l.





Lemma estimate_region_Ok m args reg :
  estimate_region m args = Ok reg <->
  Forall2 (fun a p => m !! a = Some p) args reg.
Proof.
  revert reg. induction args as [|a args IH]; intros reg; simpl.
  - split; [intros [= <-]; constructor | by inversion 1].
  - split.
    + intros H. res_inv H. res_inv H. injection H as <-.
      destruct (m !! a) eqn:Hma; [|discriminate]. injection Ha0 as ->.
      constructor; [done|]. by apply IH.
    + inversion 1 as [|? p ? reg' Hp Hrest]; subst.
      rewrite Hp. simpl. apply IH in Hrest. by rewrite Hrest.
Qed.

Lemma estimate_region_Err_inv m args e :
  estimate_region m args = Err e ->
  e = UserAssert /\ exists a, a ∈ args /\ m !! a = None.
Proof.
  induction args as [|a args IH]; simpl; [discriminate|].
  destruct (m !! a) as [p|] eqn:Hma; simpl.
  - destruct (estimate_region m args) as [r|e'] eqn:Hr; simpl; [discriminate|].
    intros [= <-]. destruct (IH eq_refl) as (-> & a' & Ha' & Hn).
    split; [done|]. exists a'. split; [by apply elem_of_cons; right|done].
  - intros [= <-]. split; [done|].
    exists a. split; [apply elem_of_cons; by left|done].
Qed.



(** A memoized bound is returned as it is. *)
Lemma get_bounds_cached (dag : FunctionDAG D) (n : PartialScheduleNode D)
    (f : Function) (b : Bound D) :
  bounds n !! f = Some b -> get_bounds dag n f = Ok (b, n).
Proof.
  intros Hb. unfold get_bounds, bounds_fuel. cbn [get_bounds_rec].
  rewrite Hb. cbn. by destruct n.
Qed.


End OutputBounds.

(** ** The depth of [get_bounds] *)

Section BoundsDepth.
Context {D : Type} {dops : DoubleOps D}.
Variable dag : FunctionDAG D.

Section EdgeLoop.
Variable rec : Function -> gmap Function (Bound D) ->
               Res (Bound D * gmap Function (Bound D)).
Variable f : Function.

(** The loop of [get_bounds] over the outgoing edges, [rec] being the call
    on a consumer. *)
Fixpoint bounds_of_edges (es : list FunctionDAG.Edge)
    (st : gmap Function (Bound D) * list (Z * Z) * Z)
    : Res (gmap Function (Bound D) * list (Z * Z) * Z) :=
  match es with
  | [] => Ok st
  | e :: es' =>
    let '(cache, reg, calls_if_inlined) := st in
    '(c_bounds, cache) ← rec (FunctionDAG.consumer e) cache;
    let s := consumer_scope (FunctionDAG.consumer e) 0 (region c_bounds) ∅ in
    let calls_if_inlined :=
      calls_if_inlined + min_points c_bounds * FunctionDAG.calls e in
    reg ← merge_dims s e 0 (Function.dimensions f) reg;
    bounds_of_edges es' (cache, reg, calls_if_inlined)
  end.

End EdgeLoop.

Lemma get_bounds_rec_unfold (fuel : nat) (root : bool) (f : Function)
    (cache : gmap Function (Bound D)) :
  get_bounds_rec dag (S fuel) root f cache =
  match cache !! f with
  | Some b => Ok (b, cache)
  | None =>
    out ← FunctionDAG.at_ (FunctionDAG.outgoing_edges dag) f;
    if bool_decide (out = []) && root then
      let estimates := estimate_map (Function.estimates f) in
      let min_points := estimate_points (Function.estimates f) in
      reg ← estimate_region estimates (Function.args f);
      node ← FunctionDAG.at_ (FunctionDAG.node_map dag) f;
      let bound :=
        mkBound reg min_points
                (d_mul (d_of_int min_points) (FunctionDAG.compute node)) in
      Ok (bound, <[f := bound]> cache)
    else
      if bool_decide (out = []) then Err InternalAssert else
      '(cache, reg, calls_if_inlined) ←
        bounds_of_edges (get_bounds_rec dag fuel root) f out (cache, [], 0);
      points_if_realized ← region_points (Function.dimensions f) 0 reg;
      n ← FunctionDAG.at_ (FunctionDAG.node_map dag) f;
      let bound :=
        mkBound reg (Z.min points_if_realized calls_if_inlined)
          (d_min (d_mul (d_of_int points_if_realized) (FunctionDAG.compute n))
                 (d_mul (d_of_int calls_if_inlined)
                        (FunctionDAG.compute_if_inlined n))) in
      if bool_decide (reg = []) then Err InternalAssert
      else Ok (bound, <[f := bound]> cache)
  end.
Proof. reflexivity. Qed.


Lemma outgoing_edges_elem (f : Function) (out : list FunctionDAG.Edge) :
  FunctionDAG.outgoing_edges dag !! f = Some out ->
  forall e, e ∈ out -> e ∈ FunctionDAG.edges dag /\ FunctionDAG.producer e = f.
Proof.
  unfold FunctionDAG.outgoing_edges.
  set (all := FunctionDAG.edges dag).
  assert (Hnodes : forall (ns : list (FunctionDAG.Node D))
                          (m : gmap Function (list FunctionDAG.Edge)),
    (forall g o, m !! g = Some o -> o = []) ->
    forall g o,
      fold_left (fun m n => <[FunctionDAG.func n :=
                               default [] (m !! FunctionDAG.func n)]> m) ns m
        !! g = Some o -> o = []).
  { induction ns as [|n ns IH]; intros m Hm g o; cbn [fold_left]; [apply Hm|].
    apply IH. intros g' o' Hg'.
    destruct (decide (FunctionDAG.func n = g')) as [<-|Hne].
    - rewrite lookup_insert_eq in Hg'. injection Hg' as <-.
      destruct (m !! FunctionDAG.func n) eqn:E; [|done]. by apply Hm in E.
    - rewrite lookup_insert_ne in Hg' by done. by eapply Hm. }
  assert (Hedges : forall (es : list FunctionDAG.Edge)
                          (m : gmap Function (list FunctionDAG.Edge)),
    (forall e, e ∈ es -> e ∈ all) ->
    (forall g o, m !! g = Some o ->
       forall e, e ∈ o -> e ∈ all /\ FunctionDAG.producer e = g) ->
    forall g o,
      fold_left (fun m e => <[FunctionDAG.producer e :=
                               default [] (m !! FunctionDAG.producer e) ++ [e]]> m)
                es m !! g = Some o ->
      forall e, e ∈ o -> e ∈ all /\ FunctionDAG.producer e = g).
  { induction es as [|e0 es IH]; intros m Hes Hm g o; cbn [fold_left]; [apply Hm|].
    apply IH.
    - intros e He. apply Hes. apply elem_of_cons. by right.
    - intros g' o' Hg' e He.
      destruct (decide (FunctionDAG.producer e0 = g')) as [<-|Hne].
      + rewrite lookup_insert_eq in Hg'. injection Hg' as <-.
        apply elem_of_app in He as [He|He].
        * destruct (m !! FunctionDAG.producer e0) eqn:E; [|by apply not_elem_of_nil in He].
          by eapply Hm.
        * apply list_elem_of_singleton in He as ->. split; [|done].
          apply Hes. apply elem_of_cons. by left.
      + rewrite lookup_insert_ne in Hg' by done. by eapply Hm. }
  intros Hout. eapply Hedges; [done| |exact Hout].
  intros g o Hg e He.
  apply Hnodes in Hg; [|intros g' o' H'; by rewrite lookup_empty in H'].
  subst o. by apply not_elem_of_nil in He.
Qed.

(** The DAG is ranked when every consumer ranks below its producer, as
    the position in the reverse realization order does. *)
Definition ranked (rank : Function -> nat) : Prop :=
  forall e, e ∈ FunctionDAG.edges dag ->
    (rank (FunctionDAG.consumer e) < rank (FunctionDAG.producer e))%nat.

Lemma bind_not_cyclic {A B} (m : Res A) (k : A -> Res B) :
  m <> Err Cyclic -> (forall a, m = Ok a -> k a <> Err Cyclic) ->
  m ≫= k <> Err Cyclic.
Proof.
  unfold mbind, Res_bind. destruct m as [a|e].
  - intros _ H. by apply H.
  - intros H _ [= ->]. by apply H.
Qed.

Lemma res_of_option_not_cyclic {A} (e : error) (o : option A) :
  e <> Cyclic -> res_of_option e o <> Err Cyclic.
Proof. destruct o; cbn; congruence. Qed.

Lemma merge_dims_not_cyclic s e i todo reg :
  merge_dims s e i todo reg <> Err Cyclic.
Proof.
  revert i reg. induction todo as [|todo IH]; intros i reg; cbn [merge_dims]; [done|].
  apply bind_not_cyclic; [|intros; apply IH].
  unfold merge_dim. apply bind_not_cyclic; [by apply res_of_option_not_cyclic|].
  intros i_n _.
  destruct (as_const_int (simplify (substitute s (i_min i_n))));
    destruct (as_const_int (simplify (substitute s (i_max i_n)))); try done.
  by destruct (reg !! i).
Qed.

Lemma estimate_region_not_cyclic m args : estimate_region m args <> Err Cyclic.
Proof.
  intros H. by apply estimate_region_Err_inv in H as [? _].
Qed.

Lemma region_points_not_cyclic dims i (reg : list (Z * Z)) :
  region_points dims i reg <> Err Cyclic.
Proof.
  revert i. induction dims as [|dims IH]; intros i; cbn [region_points]; [done|].
  apply bind_not_cyclic; [by apply res_of_option_not_cyclic|]. intros p _.
  apply bind_not_cyclic; [apply IH|done].
Qed.

(** With as much fuel as the rank of [f] plus one, [get_bounds] does not
    run out of fuel: on a ranked DAG the error [Cyclic] does not occur
    with [bounds_fuel], when the ranks are below the number of nodes. *)
Lemma get_bounds_rec_not_cyclic (rank : Function -> nat) (fuel : nat)
    (root : bool) (f : Function) (cache : gmap Function (Bound D)) :
  ranked rank -> (rank f < fuel)%nat ->
  get_bounds_rec dag fuel root f cache <> Err Cyclic.
Proof.
  intros Hrank. revert f cache.
  induction fuel as [|fuel IH]; intros f cache Hf; [lia|].
  rewrite get_bounds_rec_unfold. destruct (cache !! f); [done|].
  apply bind_not_cyclic; [by apply res_of_option_not_cyclic|].
  intros out Hout. unfold FunctionDAG.at_ in Hout.
  destruct (FunctionDAG.outgoing_edges dag !! f) as [out'|] eqn:Hlook;
    [injection Hout as ->|done].
  destruct (bool_decide (out = []) && root).
  - cbv zeta. apply bind_not_cyclic; [apply estimate_region_not_cyclic|].
    intros reg _. apply bind_not_cyclic; [by apply res_of_option_not_cyclic|done].
  - destruct (bool_decide (out = [])); [done|].
    apply bind_not_cyclic.
    + pose proof (outgoing_edges_elem f out Hlook) as Hall.
      generalize (cache, @nil (Z * Z), 0). clear Hlook.
      induction out as [|e es IHes]; intros st; cbn [bounds_of_edges]; [done|].
      destruct st as [[c r] cii].
      destruct (Hall e ltac:(apply elem_of_cons; by left)) as [He Hp].
      apply bind_not_cyclic.
      * apply IH. specialize (Hrank e He). rewrite Hp in Hrank. lia.
      * intros [cb c'] _. apply bind_not_cyclic; [apply merge_dims_not_cyclic|].
        intros reg' _. apply IHes. intros e' He'. apply Hall.
        apply elem_of_cons. by right.
    + intros [[c r] cii] _.
      apply bind_not_cyclic; [apply region_points_not_cyclic|]. intros p _.
      apply bind_not_cyclic; [by apply res_of_option_not_cyclic|]. intros n _.
      cbv zeta. by destruct (bool_decide (r = [])).
Qed.

End BoundsDepth.

(** ** The memory bill of a realized function *)

Section MemoryBill.
Variable log : Q -> Q.



End MemoryBill.

(** ** The overcompute factor of an innermost loop *)

Lemma fold_left_mul_product (l : list Z) (a : Z) :
  fold_left Z.mul l a = a * product l.
Proof.
  unfold product. revert a. induction l as [|x l IH]; intros a; cbn.
  - ring.
  - rewrite IH. ring.
Qed.

Lemma product_nonzero (l : list Z) : Forall (fun x => x <> 0) l -> product l <> 0.
Proof.
  unfold product. induction 1 as [|x l Hx _ IH]; cbn; [lia|].
  intros H. apply Z.mul_eq_0 in H. tauto.
Qed.

(** [ceil(s0 / 16) * 16] for a positive extent. *)
Definition vector_ceil (s0 : Z) : Z := ((s0 + 15) / 16) * 16.

(** The factor of a vectorized loop in exact arithmetic. *)
Definition exact_factor (s0 : Z) : Q :=
  (inject_Z (vector_ceil s0) / inject_Z s0) *
  ((inject_Z s0 + (1 # 100)) / inject_Z s0).

Lemma vector_overcompute_exact (log : Q -> Q) (sz : list Z) (instances : Z) :
  sz <> [] ->
  Forall (fun x => 0 < x) sz ->
  instances <> 0 ->
  exists sub factor,
    vector_overcompute (dops := exact_ops log) sz (fold_left Z.mul sz instances)
      = Ok (sub, factor) /\
    (factor == exact_factor (sz !!! 0%nat))%Q.
Proof.
  intros Hsz Hpos Hinst.
  destruct sz as [|x rest]; [done|]. cbn [lookup_total list_lookup_total].
  inversion Hpos as [|? ? Hx Hrest]; subst.
  unfold vector_overcompute. rewrite (proj2 (Z.eqb_neq x 0)) by lia.
  do 2 eexists. split; [reflexivity|].
  cbn [d_div d_mul d_add d_of_int d_0_01 exact_ops].
  cbn [fold_left]. rewrite fold_left_mul_product.
  set (k := instances * product rest).
  assert (Hk : k <> 0).
  { unfold k. intros H. apply Z.mul_eq_0 in H as [H|H]; [done|].
    revert H. apply product_nonzero.
    eapply Forall_impl; [exact Hrest|]. cbn. lia. }
  replace (instances * x * product rest) with (k * x) by (unfold k; ring).
  rewrite Z.quot_mul by lia.
  assert (Hceil : ((x + 15) ÷ 16) * 16 = vector_ceil x).
  { unfold vector_ceil. rewrite Z.quot_div_nonneg by lia. reflexivity. }
  rewrite Hceil. unfold exact_factor.
  rewrite !inject_Z_mult. field. split.
  - change 0%Q with (inject_Z 0). rewrite inject_Z_injective. lia.
  - change 0%Q with (inject_Z 0). rewrite inject_Z_injective. lia.
Qed.


(** C5 (as amended). In exact arithmetic, for an innermost node all of
    whose loop extents are positive, visited with a non-zero number of
    instances, the factor that the cost recursion records in [overcompute]
    for the node's function is
    [(ceil(size[0]/16) * 16 / size[0]) * ((size[0] + 0.01) / size[0])];
    it is 1.000625 when [size[0] = 16]. *)
Theorem overcompute_factor_recorded (log : Q -> Q) (n : PartialScheduleNode Q)
    (instances : Z) (overcompute : gmap (option Function) Q) :
  innermost n = true ->
  size n <> [] ->
  Forall (fun x => 0 < x) (size n) ->
  instances <> 0 ->
  let s0 := size n !!! 0%nat in
  exists sub overcompute' factor,
    record_overcompute (dops := exact_ops log) n
      (fold_left Z.mul (size n) instances) overcompute
      = Ok (sub, overcompute') /\
    overcompute' !! func n = Some factor /\
    (factor ==
     (inject_Z (vector_ceil s0) / inject_Z s0) *
     ((inject_Z s0 + (1 # 100)) / inject_Z s0))%Q /\
    (s0 = 16 -> (factor == 1000625 # 1000000)%Q).
Proof.
  intros Hinner Hsz Hpos Hinst s0. unfold record_overcompute. rewrite Hinner.
  destruct (vector_overcompute_exact log (size n) instances Hsz Hpos Hinst)
    as (sub & factor & Hrun & Hfactor).
  rewrite Hrun. cbn [mbind Res_bind].
  do 3 eexists. split; [reflexivity|].
  split; [apply lookup_insert_eq|].
  split; [exact Hfactor|].
  intros H16. rewrite Hfactor. fold s0. rewrite H16. reflexivity.
Qed.

(** On binary64, with [size[0] = 16] and non-empty loops, the recorded
    factor is the double 1.000625. *)
Example overcompute_factor_16_binary64 (log : float -> float) :
  vector_overcompute (dops := binary64_ops log) [16; 50]
    (fold_left Z.mul [16; 50] 3)
  = Ok (2400, 1.000625%float).
Proof. vm_compute. reflexivity. Qed.

(** ** Trimming the frontier *)

Section BeamTrim.
Variable log : Q -> Q.










End BeamTrim.

(** ** Reasoning on trees and on allocating computations *)

Section TreeInduction.
Context {D : Type}.

(** Induction on a schedule tree, with the hypothesis for every child. *)
Lemma PartialScheduleNode_ind' (P : PartialScheduleNode D -> Prop) :
  (forall n, Forall (fun c => P c.2) (children n) -> P n) ->
  forall n, P n.
Proof.
  intros step.
  fix IH 1. intros [fn inner tile sz cs inl st bd].
  apply step. cbn.
  induction cs as [|[p c] cs IHcs]; constructor; [apply IH | exact IHcs].
Qed.

Lemma alloc_bind_Ok_inv {A B} (m : Alloc A) (k : A -> Alloc B) next r :
  (m ≫= k) next = Ok r ->
  exists a next', m next = Ok (a, next') /\ k a next' = Ok r.
Proof.
  unfold mbind, Alloc_bind. destruct (m next) as [[a next']|e]; [|discriminate].
  intros H. by exists a, next'.
Qed.

Lemma alloc_bind_Ok {A B} (m : Alloc A) (k : A -> Alloc B) next a next' :
  m next = Ok (a, next') -> (m ≫= k) next = k a next'.
Proof. unfold mbind, Alloc_bind. by intros ->. Qed.

Lemma alloc_ret_Ok {A} (a : A) next : (mret a : Alloc A) next = Ok (a, next).
Proof. reflexivity. Qed.

End TreeInduction.

(** ** The frame of inlining *)

Section Inlining.
Context {D : Type} {dops : DoubleOps D}.
Variable out : list FunctionDAG.Edge.
Variable f : Function.

(** The loop of [inline_func] over the children. *)
Fixpoint inline_children (cs : list (ptr * PartialScheduleNode D))
    : Alloc (list (ptr * PartialScheduleNode D)) :=
  match cs with
  | [] => mret []
  | c :: cs' =>
    c' ← (if calls_in out c.2
          then p ← new_node;
               n' ← inline_func_in out f c.2;
               mret (p, n')
          else mret c);
    rest ← inline_children cs';
    mret (c' :: rest)
  end.

Lemma inline_func_in_unfold (n : PartialScheduleNode D) :
  inline_func_in out f n =
  (cs ← inline_children (children n);
   let result := set_children n cs in
   if innermost n then
     let calls := inlined_calls out n in
     if calls =? 0 then mret result
     else mret (set_inlined result (<[f := calls]> (inlined result)))
   else mret result).
Proof. destruct n; reflexivity. Qed.

Lemma calls_in_unfold (n : PartialScheduleNode D) :
  calls_in out n =
  existsb (fun c => calls_in out c.2) (children n) ||
  existsb (fun e =>
             bool_decide (func n = Some (FunctionDAG.consumer e)) ||
             bool_decide (is_Some (inlined n !! FunctionDAG.consumer e)))
          out.
Proof. destruct n; reflexivity. Qed.

(** The calls that one outgoing edge contributes at a node. *)
Definition edge_calls (n : PartialScheduleNode D) (e : FunctionDAG.Edge) : Z :=
  default 0 (inlined n !! FunctionDAG.consumer e) * FunctionDAG.calls e +
  (if bool_decide (func n = Some (FunctionDAG.consumer e))
   then FunctionDAG.calls e else 0).

Definition sum (l : list Z) : Z := foldr Z.add 0 l.

Lemma inlined_calls_sum (n : PartialScheduleNode D) (es : list FunctionDAG.Edge) :
  inlined_calls es n = sum (edge_calls n <$> es).
Proof.
  unfold inlined_calls, sum.
  assert (H : forall acc,
    fold_left
      (fun calls e =>
         let calls :=
           match inlined n !! FunctionDAG.consumer e with
           | Some v => calls + v * FunctionDAG.calls e
           | None => calls
           end in
         if bool_decide (func n = Some (FunctionDAG.consumer e))
         then calls + FunctionDAG.calls e else calls) es acc =
    acc + foldr Z.add 0 (edge_calls n <$> es)).
  { induction es as [|e es IH]; intros acc;
      [rewrite fmap_nil; cbn [fold_left foldr]; lia|].
    rewrite fmap_cons. cbn [fold_left foldr]. rewrite IH. unfold edge_calls.
    destruct (inlined n !! FunctionDAG.consumer e); cbn [from_option id];
      destruct (bool_decide (func n = Some (FunctionDAG.consumer e))); lia. }
  rewrite H. lia.
Qed.

(** The entry that inlining [f] gives a node: none but at an innermost
    node with a non-zero number of calls. *)
Definition inlined_after (n : PartialScheduleNode D) : gmap Function Z :=
  if innermost n && negb (sum (edge_calls n <$> out) =? 0)
  then <[f := sum (edge_calls n <$> out)]> (inlined n)
  else inlined n.

(** [inlined_copy lo n n']: [n'] is [n] with [f] inlined. All fields but
    [children] and [inlined] agree; a child that does not call [f] is the
    same pointer to the same node; a child that calls [f] is a pointer not
    below [lo] to its inlined copy. *)
Inductive inlined_copy (lo : ptr)
    : PartialScheduleNode D -> PartialScheduleNode D -> Prop :=
| inlined_copy_node n n' :
    func n' = func n ->
    innermost n' = innermost n ->
    tileable n' = tileable n ->
    size n' = size n ->
    store_at n' = store_at n ->
    bounds n' = bounds n ->
    inlined n' = inlined_after n ->
    Forall2 (fun c c' =>
               (calls_in out c.2 = true ->
                (lo <= c'.1)%nat /\ inlined_copy lo c.2 c'.2) /\
               (calls_in out c.2 = false -> c' = c))
            (children n) (children n') ->
    inlined_copy lo n n'.

Lemma inlined_copy_mono lo lo' n n' :
  (lo' <= lo)%nat -> inlined_copy lo n n' -> inlined_copy lo' n n'.
Proof.
  intros Hlo. revert n'.
  induction n as [n IH] using PartialScheduleNode_ind'. intros n' H.
  inversion H as [? ? H1 H2 H3 H4 H5 H6 H7 Hcs]; subst.
  constructor; try done.
  clear H H1 H2 H3 H4 H5 H6 H7.
  induction Hcs as [|c c' cs cs' Hc Hcs IHcs]; [constructor|].
  inversion IH as [|? ? IHc IHrest]; subst.
  constructor; [|by apply IHcs].
  destruct Hc as [Hc1 Hc2]. split; [|done].
  intros Hcalls. destruct (Hc1 Hcalls) as [Hp Hc]. split; [lia|].
  by apply IHc.
Qed.

Lemma inline_func_in_spec (n : PartialScheduleNode D) (next : ptr) :
  exists n' next',
    inline_func_in out f n next = Ok (n', next') /\
    (next <= next')%nat /\
    inlined_copy next n n' /\
    (calls_in out n = false -> n' = n /\ next' = next).
Proof.
  revert next. induction n as [n IH] using PartialScheduleNode_ind'.
  intros next. rewrite inline_func_in_unfold.
  assert (Hcs : forall next, exists cs' next',
    inline_children (children n) next = Ok (cs', next') /\
    (next <= next')%nat /\
    Forall2 (fun c c' =>
               (calls_in out c.2 = true ->
                (next <= c'.1)%nat /\ inlined_copy next c.2 c'.2) /\
               (calls_in out c.2 = false -> c' = c)) (children n) cs' /\
    (existsb (fun c => calls_in out c.2) (children n) = false ->
     cs' = children n /\ next' = next)).
  { clear next. induction IH as [|c cs IHc _ IHcs]; intros next.
    - exists [], next. repeat split; [lia|constructor].
    - cbn [inline_children existsb].
      destruct (calls_in out c.2) eqn:Hcalls.
      + destruct (IHc (S next)) as (n1 & next1 & Hn1 & Hle1 & Hcopy1 & _).
        destruct (IHcs next1) as (cs1 & next2 & Hcs1 & Hle2 & Hall & _).
        exists ((next, n1) :: cs1), next2.
        split.
        { erewrite alloc_bind_Ok; [|erewrite alloc_bind_Ok;
            [|reflexivity]; erewrite alloc_bind_Ok; [|exact Hn1]; reflexivity].
          erewrite alloc_bind_Ok; [|exact Hcs1]. reflexivity. }
        split; [lia|]. split; [|done].
        constructor.
        * cbn beta. split.
          -- intros _. cbn. split; [lia|].
             eapply inlined_copy_mono; [|exact Hcopy1]. lia.
          -- intros Hf. congruence.
        * eapply Forall2_impl; [exact Hall|]. intros c0 c0' [H0 H0'].
          split; [|done]. intros Hc0. destruct (H0 Hc0) as [Hp Hc].
          split; [lia|]. eapply inlined_copy_mono; [|exact Hc]. lia.
      + destruct (IHcs next) as (cs1 & next2 & Hcs1 & Hle2 & Hall & Hsame).
        exists (c :: cs1), next2.
        split.
        { erewrite alloc_bind_Ok; [|reflexivity].
          erewrite alloc_bind_Ok; [|exact Hcs1]. reflexivity. }
        split; [lia|]. split.
        * constructor; [|done]. cbn beta.
          split; [intros Hf; congruence|done].
        * cbn. intros Hex. destruct (Hsame Hex) as [-> ->]. done. }
  destruct (Hcs next) as (cs' & next' & Hrun & Hle & Hall & Hsame).
  assert (Hinl : inlined_after n =
    if innermost n
    then if inlined_calls out n =? 0 then inlined n
         else <[f := inlined_calls out n]> (inlined n)
    else inlined n).
  { unfold inlined_after. rewrite inlined_calls_sum.
    destruct (innermost n); [|done]. cbn.
    by destruct (sum (edge_calls n <$> out) =? 0). }
  exists (set_inlined (set_children n cs') (inlined_after n)), next'. split.
  { erewrite alloc_bind_Ok; [|exact Hrun]. cbn zeta. rewrite Hinl.
    destruct n as [fn inn til sz cs inl st bd]; cbn.
    destruct inn; [destruct (inlined_calls out _ =? 0)|]; reflexivity. }
  split; [done|]. split.
  - by constructor.
  - rewrite calls_in_unfold. intros Hno.
    apply orb_false_iff in Hno as [Hch Hed].
    destruct (Hsame Hch) as [-> ->]. split; [|done].
    assert (Hzero : inlined_calls out n = 0).
    { rewrite inlined_calls_sum. unfold sum.
      clear -Hed. induction out as [|e es IHes]; [done|].
      cbn in Hed. apply orb_false_iff in Hed as [He Hes].
      apply orb_false_iff in He as [He1 He2].
      rewrite fmap_cons. cbn [foldr]. rewrite (IHes Hes).
      unfold edge_calls. rewrite He1.
      apply bool_decide_eq_false in He2.
      destruct (inlined n !! FunctionDAG.consumer e) eqn:E;
        [exfalso; apply He2; eauto | cbn; lia]. }
    unfold inlined_after. rewrite <- inlined_calls_sum, Hzero.
    rewrite andb_false_r. by destruct n.
Qed.

End Inlining.

(** C10. [inline_func] always returns; the tree it returns agrees with the
    original in every field of every node but [children] and [inlined]; a
    child that does not call [f] stays the same pointer to the same node; a
    child that calls [f] is replaced by a fresh node holding its inlined
    copy; the [inlined] map changes at innermost nodes only, and only by
    the entry of [f], set to the sum over the outgoing edges [e] of [f] of
    [inlined[e.consumer] * e.calls], plus [e.calls] when [e.consumer] is
    the node's own function, when that sum is not zero. A tree that does
    not call [f] is returned as it is. *)
Theorem inline_func_frame {D : Type} {dops : DoubleOps D}
    (dag : FunctionDAG D) (f : Function) (out : list FunctionDAG.Edge)
    (n : PartialScheduleNode D) (next : ptr) :
  FunctionDAG.outgoing_edges dag !! f = Some out ->
  exists n' next',
    inline_func dag n f next = Ok (n', next') /\
    inlined_copy out f next n n' /\
    (calls_in out n = false -> n' = n).
Proof.
  intros Hout.
  destruct (inline_func_in_spec out f n next)
    as (n' & next' & Hrun & _ & Hcopy & Hsame).
  exists n', next'. split; [|split; [done|]].
  - unfold inline_func. erewrite alloc_bind_Ok; [exact Hrun|].
    unfold lift, FunctionDAG.at_. by rewrite Hout.
  - intros Hno. by destruct (Hsame Hno).
Qed.

(** ** Innermost nodes and their children *)

Section InnermostLeaves.
Context {D : Type} {dops : DoubleOps D}.

(** "If [innermost] is true, [children] is empty", at every node. *)
Fixpoint innermost_is_leaf (n : PartialScheduleNode D) : bool :=
  (negb (innermost n) || bool_decide (children n = [])) &&
  forallb (fun c => innermost_is_leaf c.2) (children n).

Lemma innermost_is_leaf_unfold (n : PartialScheduleNode D) :
  innermost_is_leaf n =
  (negb (innermost n) || bool_decide (children n = [])) &&
  forallb (fun c => innermost_is_leaf c.2) (children n).
Proof. destruct n; reflexivity. Qed.

Lemma get_bounds_fields (dag : FunctionDAG D) (n n' : PartialScheduleNode D)
    (f : Function) (b : Bound D) :
  get_bounds dag n f = Ok (b, n') ->
  exists cache, n' = set_bounds n cache.
Proof.
  unfold get_bounds. intros H.
  apply bind_Ok_inv in H as ([b' cache] & _ & H).
  injection H as <- <-. by exists cache.
Qed.

(** C7 (as amended). [compute_here] appends one child, at the address it
    allocates: an innermost leaf of [f] without children. It leaves the
    [innermost] flag of the node it is applied to as it is, so the tree it
    returns has "innermost implies no children" at every node exactly when
    the node it is applied to is not innermost. The tiling of
    [compute_in_tiles] makes an outer loop that is not innermost, over an
    inner loop with the flag and the children of the node tiled. *)
Theorem compute_here_innermost (dag : FunctionDAG D)
    (n n' : PartialScheduleNode D) (f : Function) (next next' : ptr) :
  innermost_is_leaf n = true ->
  compute_here dag n f next = Ok (n', next') ->
  (exists leaf,
     children n' = children n ++ [(next, leaf)] /\
     func leaf = Some f /\ innermost leaf = true /\ children leaf = []) /\
  innermost n' = innermost n /\
  innermost_is_leaf n' = negb (innermost n) /\
  (forall parent t outer inner,
     tile_node dag n parent t = Ok (outer, inner) ->
     innermost outer = false /\ children outer = [] /\
     innermost inner = innermost n /\ children inner = children n).
Proof.
  intros Hinv Hrun. unfold compute_here in Hrun.
  apply alloc_bind_Ok_inv in Hrun as ([b n1] & next1 & Hb & Hrun).
  apply alloc_bind_Ok_inv in Hrun as (p & next2 & Hp & Hrun).
  apply alloc_bind_Ok_inv in Hrun as (node & next3 & Hnode & Hrun).
  apply alloc_bind_Ok_inv in Hrun as ([sz pt] & next4 & Hshape & Hrun).
  injection Hrun as <- <-.
  unfold lift in Hb. destruct (get_bounds dag n f) as [[b' n1']|] eqn:Hgb;
    [|discriminate]. injection Hb as -> -> <-.
  apply get_bounds_fields in Hgb as [cache ->].
  unfold new_node in Hp. injection Hp as <- <-.
  rewrite innermost_is_leaf_unfold in Hinv.
  apply andb_true_iff in Hinv as [Hown Hkids].
  split; [|split; [|split]].
  - eexists. split; [destruct n; reflexivity|]. done.
  - by destruct n.
  - rewrite innermost_is_leaf_unfold.
    destruct n as [fn inn til sz0 cs inl st bd]; cbn in *.
    rewrite forallb_app, Hkids. cbn.
    destruct inn; cbn.
    + rewrite bool_decide_eq_false_2; [done|]. by destruct cs.
    + done.
  - intros parent t outer inner Ht. unfold tile_node in Ht.
    apply bind_Ok_inv in Ht as (fn & _ & Ht).
    apply bind_Ok_inv in Ht as (own & _ & Ht).
    apply bind_Ok_inv in Ht as ([pb pn] & _ & Ht).
    apply bind_Ok_inv in Ht as ([[isz osz] reg] & _ & Ht).
    by injection Ht as <- <-.
Qed.

End InnermostLeaves.

(** ** Progress of the search *)

Section Progress.
Context {D : Type} {dops : DoubleOps D}.
Variable dag : FunctionDAG D.




Lemma make_child_scheduled (s c : State D) f rt :
  make_child dag s f rt = Ok c ->
  num_funcs_scheduled c = S (num_funcs_scheduled s).
Proof.
  unfold make_child, calculate_cost. intros H.
  apply bind_Ok_inv in H as (child & Hchild & H).
  destruct (computes (root child) f); [|discriminate]. injection H as <-.
  apply bind_Ok_inv in Hchild as ([c0 maps] & _ & Hchild).
  apply bind_Ok_inv in Hchild as ([rt' c1] & _ & Hchild).
  by injection Hchild as <-.
Qed.


Lemma push_Forall (P : State D -> Prop) x (q : queue) :
  P x -> Forall P q -> Forall P (push x q).
Proof.
  intros Hx. induction 1 as [|y q Hy Hq IH]; cbn [push].
  - by constructor.
  - destruct (CompareStates y x); repeat constructor; done.
Qed.


Lemma pushes_Forall (P : State D -> Prop) cs (q : queue) :
  Forall P cs -> Forall P q -> Forall P (fold_left (fun q c => push c q) cs q).
Proof.
  intros Hcs. revert q. induction Hcs as [|c cs Hc Hcs IH]; intros q Hq;
    cbn [fold_left]; [done|].
  apply IH. by apply push_Forall.
Qed.


Lemma trim_loop_Forall (P : State D -> Prop) k (q trimmed r : queue) :
  Forall P q -> Forall P trimmed ->
  trim_loop k q trimmed = Ok r -> Forall P r.
Proof.
  revert q trimmed. induction k as [|k IH]; intros q trimmed Hq Ht; cbn [trim_loop].
  - by intros [= <-].
  - destruct q as [|top q]; [discriminate|].
    inversion Hq; subst. apply IH; [done|]. by apply push_Forall.
Qed.




(** The queue that a pass hands to the next one is built by pushes, and so
    is the queue that trimming returns. *)
Lemma expand_pushes (pending q : queue) next q' next' :
  expand dag pending q next = Ok (inr q', next') ->
  exists l, q' = fold_left (fun q c => push c q) l q.
Proof.
  revert q next. induction pending as [|s pending IH]; intros q next H;
    cbn [expand] in H.
  - injection H as <- <-. by exists [].
  - destruct (bool_decide _); [discriminate|].
    apply alloc_bind_Ok_inv in H as (cs & next1 & _ & H).
    destruct (IH _ _ H) as [l ->]. exists (cs ++ l). by rewrite fold_left_app.
Qed.

Lemma trim_loop_pushes k (q trimmed r : queue (D := D)) :
  trim_loop k q trimmed = Ok r ->
  exists l, r = fold_left (fun q c => push c q) l trimmed.
Proof.
  revert q trimmed. induction k as [|k IH]; intros q trimmed; cbn [trim_loop].
  - intros [= <-]. by exists [].
  - destruct q as [|top q]; [discriminate|]. intros H.
    destruct (IH _ _ H) as [l ->]. by exists (top :: l).
Qed.



End Progress.

(** ** The cost of the first move *)

Section CostUnfold.
Context {D : Type} {dops : DoubleOps D}.
Variable dag : FunctionDAG D.

Section Children.
Variables (this : ptr) (n : PartialScheduleNode D) (subinstances : Z).


End Children.


End CostUnfold.

Section FirstMove.
Variable log : Q -> Q.





Variable dag : FunctionDAG Q.
Variable h : Function.
Variable node : FunctionDAG.Node Q.
Variable rest : list (FunctionDAG.Node Q).
Hypothesis Hnodes : FunctionDAG.nodes dag = node :: rest.
Hypothesis Hfunc : FunctionDAG.func node = h.
Hypothesis Hmap : FunctionDAG.node_map dag !! h = Some node.
Hypothesis Hout : FunctionDAG.outgoing_edges dag !! h = Some [].
Hypothesis Hvars : est_var <$> Function.estimates h = Function.args h.
Hypothesis Hnodup : NoDup (Function.args h).
Hypothesis Hpos : Forall (fun e => 0 < est_extent e) (Function.estimates h).









Hypothesis Hdims : Function.args h <> [].
Hypothesis Hcompute : (0 <= FunctionDAG.compute node)%Q.
Hypothesis Hmemory : (0 <= FunctionDAG.memory node)%Q.
Hypothesis Hlog : forall x, (1 <= x)%Q -> (0 <= log x)%Q.












End FirstMove.


(** ** The auxiliary maps of the DAG *)

Section DagMaps.
Context {D : Type}.

(** The second loop of the constructor, for either map. *)
Lemma edge_map_lookup (key : FunctionDAG.Edge -> Function)
    (es : list FunctionDAG.Edge) (m : gmap Function (list FunctionDAG.Edge))
    (f : Function) :
  fold_left (fun m e => <[key e := default [] (m !! key e) ++ [e]]> m) es m !! f =
  match filter (fun e => key e = f) es with
  | [] => m !! f
  | l => Some (default [] (m !! f) ++ l)
  end.
Proof.
  revert m. induction es as [|e es IH]; intros m; [done|].
  cbn [fold_left]. rewrite IH. destruct (decide (key e = f)) as [Heq|Hne].
  - rewrite filter_cons_True by done. rewrite Heq, lookup_insert_eq. cbn.
    destruct (filter _ es); [done|]. by rewrite <- app_assoc.
  - rewrite filter_cons_False by done. by rewrite lookup_insert_ne.
Qed.

(** The first loop of the constructor: a key for every node. *)
Lemma node_keys_lookup (ns : list (FunctionDAG.Node D))
    (m : gmap Function (list FunctionDAG.Edge)) (f : Function) :
  fold_left (fun m n => <[FunctionDAG.func n := default [] (m !! FunctionDAG.func n)]> m)
            ns m !! f =
  if decide (f ∈ FunctionDAG.func <$> ns) then Some (default [] (m !! f))
  else m !! f.
Proof.
  revert m. induction ns as [|n ns IH]; intros m.
  - cbn. rewrite decide_False; [done|]. apply not_elem_of_nil.
  - cbn [fold_left]. rewrite IH. rewrite fmap_cons.
    destruct (decide (FunctionDAG.func n = f)) as [Heq|Hne].
    + rewrite Heq, lookup_insert_eq. cbn.
      rewrite (decide_True (P := f ∈ f :: _)) by apply list_elem_of_here.
      by destruct (decide _).
    + rewrite lookup_insert_ne by done.
      destruct (decide (f ∈ FunctionDAG.func <$> ns)) as [Hin|Hnin].
      * by rewrite decide_True by by apply list_elem_of_further.
      * rewrite decide_False; [done|].
        rewrite not_elem_of_cons. split; [done|done].
Qed.

Lemma node_map_lookup (ns : list (FunctionDAG.Node D))
    (m : gmap Function (FunctionDAG.Node D)) (f : Function) :
  fold_left (fun m n => <[FunctionDAG.func n := n]> m) ns m !! f =
  match last (filter (fun n => FunctionDAG.func n = f) ns) with
  | Some n => Some n
  | None => m !! f
  end.
Proof.
  revert m. induction ns as [|n ns IH]; intros m; [done|].
  cbn [fold_left]. rewrite IH. destruct (decide (FunctionDAG.func n = f)) as [Heq|Hne].
  - rewrite filter_cons_True by done. rewrite last_cons.
    destruct (last _); [done|]. by rewrite Heq, lookup_insert_eq.
  - rewrite filter_cons_False by done. rewrite lookup_insert_ne by done. done.
Qed.

(** X4. The maps that the constructor of the DAG builds: for the function
    of a node, [outgoing_edges] holds the edges that it produces for and
    [incoming_edges] the edges that it consumes from, each in the order of
    the DAG, and [node_map] holds a node of that function; for a function
    that is neither of a node nor at that end of an edge, [at] throws. *)
Theorem dag_maps_lookup (dag : FunctionDAG D) (f : Function) :
  (f ∈ FunctionDAG.func <$> FunctionDAG.nodes dag ->
   FunctionDAG.at_ (FunctionDAG.outgoing_edges dag) f =
     Ok (filter (fun e => FunctionDAG.producer e = f) (FunctionDAG.edges dag)) /\
   FunctionDAG.at_ (FunctionDAG.incoming_edges dag) f =
     Ok (filter (fun e => FunctionDAG.consumer e = f) (FunctionDAG.edges dag)) /\
   exists n, FunctionDAG.at_ (FunctionDAG.node_map dag) f = Ok n /\
             FunctionDAG.func n = f /\ n ∈ FunctionDAG.nodes dag) /\
  (f ∉ FunctionDAG.func <$> FunctionDAG.nodes dag ->
   (f ∉ FunctionDAG.producer <$> FunctionDAG.edges dag ->
    FunctionDAG.at_ (FunctionDAG.outgoing_edges dag) f = Err OutOfRange) /\
   (f ∉ FunctionDAG.consumer <$> FunctionDAG.edges dag ->
    FunctionDAG.at_ (FunctionDAG.incoming_edges dag) f = Err OutOfRange) /\
   FunctionDAG.at_ (FunctionDAG.node_map dag) f = Err OutOfRange).
Proof.
  unfold FunctionDAG.at_, FunctionDAG.outgoing_edges, FunctionDAG.incoming_edges,
    FunctionDAG.node_map.
  rewrite !edge_map_lookup, !node_keys_lookup, node_map_lookup, lookup_empty.
  assert (Hfilter : forall (key : FunctionDAG.Edge -> Function),
            f ∉ key <$> FunctionDAG.edges dag ->
            filter (fun e => key e = f) (FunctionDAG.edges dag) = []).
  { intros key Hnin. induction (FunctionDAG.edges dag) as [|e es IH]; [done|].
    rewrite fmap_cons, not_elem_of_cons in Hnin. destruct Hnin as [Hne Hnin].
    rewrite filter_cons_False by done. by apply IH. }
  split.
  - intros Hin. rewrite !decide_True by done. cbn.
    split; [by destruct (filter _ _)|]. split; [by destruct (filter _ _)|].
    destruct (last (filter (fun n => FunctionDAG.func n = f) (FunctionDAG.nodes dag)))
      as [n|] eqn:Hlast.
    + exists n. split; [done|].
      assert (Hn : n ∈ filter (fun n => FunctionDAG.func n = f) (FunctionDAG.nodes dag)).
      { apply last_Some in Hlast as [l ->]. apply elem_of_app. right.
        apply list_elem_of_here. }
      by apply list_elem_of_filter in Hn.
    + exfalso. apply last_None in Hlast.
      apply list_elem_of_fmap in Hin as (n & -> & Hn).
      assert (Hn' : n ∈ filter (fun n0 => FunctionDAG.func n0 = FunctionDAG.func n)
                        (FunctionDAG.nodes dag)) by by apply list_elem_of_filter.
      rewrite Hlast in Hn'. by apply elem_of_nil in Hn'.
  - intros Hnin. rewrite !decide_False by done. cbn.
    split; [|split].
    + intros H. by rewrite Hfilter.
    + intros H. by rewrite Hfilter.
    + destruct (last _) as [n|] eqn:Hlast; [|done]. exfalso.
      apply last_Some in Hlast as [l Hl].
      assert (Hn : n ∈ filter (fun n => FunctionDAG.func n = f) (FunctionDAG.nodes dag)).
      { rewrite Hl. apply elem_of_app. right. apply list_elem_of_here. }
      apply list_elem_of_filter in Hn as [Hf Hn]. apply Hnin.
      apply list_elem_of_fmap. by exists n.
Qed.

End DagMaps.

(** ** The cost model of a node, in exact arithmetic *)

Lemma bytes_per_element_sum (bytes : list Z) (b : Z) :
  Forall (fun e => 0 <= e) bytes -> 0 <= b ->
  b + foldr Z.add 0 bytes <= INT_MAX ->
  fold_left (fun b e => cast_int (b + e)) bytes b = b + foldr Z.add 0 bytes.
Proof.
  intros Hall. revert b. induction Hall as [|e bytes He Hall IH]; intros b Hb Hsum;
    cbn [fold_left foldr] in *; [lia|].
  assert (0 <= foldr Z.add 0 bytes).
  { clear -Hall. induction Hall; cbn; lia. }
  rewrite cast_int_id by (unfold INT_MAX in *; lia).
  rewrite IH; lia.
Qed.

(** X5. In exact arithmetic the cost model of a node bills an inlined point
    for the leaves beyond one per dimension, and for nothing when there
    are no more leaves than dimensions: [compute_if_inlined] is
    [max(0, leaves - dimensions)] times the bytes per element, so it is not
    negative and not above [compute], which is [leaves] times the bytes
    per element. *)
Theorem node_cost_model_inlined (log : Q -> Q) (leaves dimensions : Z)
    (bytes : list Z) (balance : Q) (last_level_cache_size : Z) :
  0 <= leaves <= INT_MAX -> 0 <= dimensions <= INT_MAX ->
  Forall (fun e => 0 <= e) bytes -> foldr Z.add 0 bytes <= INT_MAX ->
  let '(compute, compute_if_inlined, _) :=
    node_cost_model (dops := exact_ops log) leaves dimensions bytes balance
                    last_level_cache_size in
  (compute == inject_Z (leaves * foldr Z.add 0 bytes)%Z)%Q /\
  (compute_if_inlined ==
     inject_Z (Z.max 0 (leaves - dimensions) * foldr Z.add 0 bytes)%Z)%Q /\
  (0 <= compute_if_inlined)%Q /\ (compute_if_inlined <= compute)%Q.
Proof.
  intros Hl Hd Hb Hsum. unfold node_cost_model. cbn [d_of_int d_mul exact_ops].
  rewrite bytes_per_element_sum by (done || lia). cbn [Z.add].
  rewrite cast_int_id by (unfold INT_MAX in *; lia).
  assert (Hs : 0 <= foldr Z.add 0 bytes).
  { clear -Hb. induction Hb; cbn; lia. }
  rewrite <- !inject_Z_mult.
  split; [reflexivity|]. split; [reflexivity|].
  rewrite <- (Zle_Qle 0), <- Zle_Qle. split; nia.
Qed.

(** ** The memo table and the regions of [get_bounds] *)

Section BoundsMemo.
Context {D : Type} {dops : DoubleOps D}.
Variable dag : FunctionDAG D.

Lemma merge_dims_length s e i todo (reg reg' : list (Z * Z)) :
  (i <= length reg)%nat ->
  merge_dims s e i todo reg = Ok reg' ->
  ((length reg <= i + todo)%nat -> length reg' = (i + todo)%nat) /\
  ((i + todo <= length reg)%nat -> length reg' = length reg).
Proof.
  revert i reg. induction todo as [|todo IH]; intros i reg Hi; cbn [merge_dims].
  - intros [= <-]. lia.
  - intros H. apply bind_Ok_inv in H as (reg1 & H1 & H).
    unfold merge_dim in H1. apply bind_Ok_inv in H1 as (i_n & _ & H1).
    destruct (as_const_int (simplify (substitute s (i_min i_n)))) as [lo|];
      [|discriminate].
    destruct (as_const_int (simplify (substitute s (i_max i_n)))) as [hi|];
      [|discriminate].
    destruct (reg !! i) as [p|] eqn:Hp.
    + injection H1 as <-. apply lookup_lt_Some in Hp.
      apply IH in H as [IH1 IH2]; [|rewrite length_insert; lia].
      rewrite length_insert in IH1, IH2. lia.
    + injection H1 as <-. apply lookup_ge_None in Hp.
      apply IH in H as [IH1 IH2]; [|rewrite length_app; cbn; lia].
      rewrite length_app in IH1, IH2. cbn in IH1, IH2. lia.
Qed.

(** What the loop over the edges keeps, [rec] being a call that keeps the
    entries of the memo table. *)
Lemma bounds_of_edges_spec
    (rec : Function -> gmap Function (Bound D) ->
           Res (Bound D * gmap Function (Bound D)))
    f es cache reg cii cache' reg' cii' :
  (forall g c b c', rec g c = Ok (b, c') -> c ⊆ c') ->
  length reg = 0%nat \/ length reg = Function.dimensions f ->
  bounds_of_edges rec f es (cache, reg, cii) = Ok (cache', reg', cii') ->
  cache ⊆ cache' /\
  length reg' = (if bool_decide (es = []) then length reg
                 else Function.dimensions f).
Proof.
  intros Hrec. revert cache reg cii.
  induction es as [|e es IH]; intros cache reg cii Hlen0; cbn [bounds_of_edges].
  - intros [= <- <- <-]. done.
  - intros H. apply bind_Ok_inv in H as ([cb c1] & Hcb & H).
    apply bind_Ok_inv in H as (reg1 & Hreg1 & H).
    apply merge_dims_length in Hreg1 as [Hl1 Hl2]; [|lia].
    assert (Hlen1 : length reg1 = Function.dimensions f) by lia.
    apply IH in H as [Hsub Hlen]; [|by right].
    split; [by etrans; [eapply Hrec|]|].
    rewrite Hlen, (bool_decide_eq_false_2 (e :: es = [])) by done.
    by destruct (bool_decide (es = [])).
Qed.

Lemma estimate_region_length m args reg :
  estimate_region m args = Ok reg -> length reg = length args.
Proof.
  intros H. apply estimate_region_Ok in H. symmetry.
  by eapply Forall2_length.
Qed.

(** A successful call stores its bound, keeps every entry that the table
    had, and returns a region with one interval per dimension unless the
    bound was in the table. *)
Lemma get_bounds_rec_spec fuel root f cache b cache' :
  get_bounds_rec dag fuel root f cache = Ok (b, cache') ->
  cache ⊆ cache' /\ cache' !! f = Some b /\
  (cache !! f = None ->
   length (region b) = Function.dimensions f /\
   (FunctionDAG.outgoing_edges dag !! f <> Some [] ->
    (0 < Function.dimensions f)%nat)).
Proof.
  revert f cache b cache'. induction fuel as [|fuel IH]; intros f cache b cache'.
  - cbn [get_bounds_rec]. destruct (cache !! f) as [b0|] eqn:Hc; [|discriminate].
    intros [= <- <-]. done.
  - rewrite get_bounds_rec_unfold. destruct (cache !! f) as [b0|] eqn:Hc.
    { intros [= <- <-]. done. }
    intros H. apply bind_Ok_inv in H as (out & Hout & H).
    unfold FunctionDAG.at_ in Hout.
    destruct (FunctionDAG.outgoing_edges dag !! f) as [out'|] eqn:Hlook;
      [injection Hout as ->|discriminate].
    destruct (bool_decide (out = []) && root) eqn:Hbranch.
    + cbv zeta in H. apply bind_Ok_inv in H as (reg & Hreg & H).
      apply bind_Ok_inv in H as (node & _ & H). injection H as <- <-.
      split; [by apply insert_subseteq|]. split; [by rewrite lookup_insert_eq|].
      intros _. split; [by apply estimate_region_length in Hreg|].
      apply andb_true_iff in Hbranch as [->%bool_decide_eq_true _]. done.
    + destruct (bool_decide (out = [])) eqn:Hempty; [discriminate|].
      apply bool_decide_eq_false in Hempty.
      apply bind_Ok_inv in H as ([[c1 reg] cii] & Hloop & H).
      apply bind_Ok_inv in H as (pts & _ & H).
      apply bind_Ok_inv in H as (n & _ & H). cbv zeta in H.
      destruct (bool_decide (reg = [])) eqn:Hreg; [discriminate|].
      apply bool_decide_eq_false in Hreg. injection H as <- <-.
      apply bounds_of_edges_spec in Hloop as [Hsub Hlen];
        [|intros g c b c' Hg; by apply IH in Hg as [? _]|by left].
      rewrite bool_decide_eq_false_2 in Hlen by done.
      split; [by apply insert_subseteq_r|].
      split; [by rewrite lookup_insert_eq|]. intros _. cbn.
      split; [done|]. intros _. destruct reg; [done|]. cbn in Hlen. lia.
Qed.

Lemma get_bounds_spec (n n' : PartialScheduleNode D) (f : Function)
    (b : Bound D) :
  get_bounds dag n f = Ok (b, n') ->
  exists cache, n' = set_bounds n cache /\ bounds n ⊆ cache /\
                cache !! f = Some b.
Proof.
  unfold get_bounds. intros H.
  apply bind_Ok_inv in H as ([b' cache] & Hrec & H). injection H as <- <-.
  apply get_bounds_rec_spec in Hrec as (Hsub & Hf & _). by exists cache.
Qed.

(** X6. [get_bounds] memoizes: a call that returns has stored its bound in
    the memo table of the node, kept every entry that the table had, and
    changed nothing else of the node; asked again, it returns the same
    bound and leaves the node as it is. *)
Theorem get_bounds_memoizes (n n' : PartialScheduleNode D) (f : Function)
    (b : Bound D) :
  get_bounds dag n f = Ok (b, n') ->
  bounds n ⊆ bounds n' /\ bounds n' !! f = Some b /\
  n' = set_bounds n (bounds n') /\
  get_bounds dag n' f = Ok (b, n').
Proof.
  intros H. apply get_bounds_spec in H as (cache & -> & Hsub & Hf).
  split; [by destruct n|]. split; [by destruct n|]. split; [by destruct n|].
  apply get_bounds_cached. by destruct n.
Qed.

(** X7. A bound that [get_bounds] computes, rather than finds in the memo
    table, has a region of one interval per dimension of the function; and
    a function with consumers gets a bound only if it has a dimension: for
    one without, the assertion that the region is not empty fails. *)
Theorem get_bounds_region_dimensions (n n' : PartialScheduleNode D)
    (f : Function) (b : Bound D) :
  bounds n !! f = None ->
  get_bounds dag n f = Ok (b, n') ->
  length (region b) = Function.dimensions f /\
  (FunctionDAG.outgoing_edges dag !! f <> Some [] ->
   (0 < Function.dimensions f)%nat).
Proof.
  unfold get_bounds. intros Hc H.
  apply bind_Ok_inv in H as ([b' cache] & Hrec & H). injection H as <- <-.
  apply get_bounds_rec_spec in Hrec as (_ & _ & Hlen). by apply Hlen.
Qed.

(** X8. Where [get_bounds] fails for want of consumers: for a function that
    the DAG does not know, [outgoing_edges.at] throws; for a function
    without consumers (an output) asked for at a node that is not the root
    and has no bound of it in its memo table, the assertion "No consumers"
    fails. *)
Theorem get_bounds_without_consumers (n : PartialScheduleNode D) (f : Function) :
  bounds n !! f = None ->
  (FunctionDAG.outgoing_edges dag !! f = None ->
   get_bounds dag n f = Err OutOfRange) /\
  (FunctionDAG.outgoing_edges dag !! f = Some [] -> is_root n = false ->
   get_bounds dag n f = Err InternalAssert).
Proof.
  intros Hc. unfold get_bounds, bounds_fuel. rewrite get_bounds_rec_unfold, Hc.
  unfold FunctionDAG.at_. split.
  - by intros ->.
  - by intros -> ->.
Qed.

(** X9. The recursion of [get_bounds] ends: when the functions can be
    numbered, with numbers up to the number of nodes, so that the consumer
    of every edge has a smaller number than its producer (as the reverse
    realization order of the nodes does), a call goes no deeper than the
    DAG has nodes. *)
Theorem get_bounds_terminates (rank : Function -> nat)
    (n : PartialScheduleNode D) (f : Function) :
  ranked dag rank ->
  (forall g, (rank g <= length (FunctionDAG.nodes dag))%nat) ->
  get_bounds dag n f <> Err Cyclic.
Proof.
  intros Hrank Hle. unfold get_bounds.
  apply bind_not_cyclic.
  - eapply get_bounds_rec_not_cyclic; [exact Hrank|].
    unfold bounds_fuel. specialize (Hle f). lia.
  - by intros [b cache] _.
Qed.

End BoundsMemo.

(** ** How [get_bounds] merges the footprints of the edges *)

Section Merging.
Context {D : Type} {dops : DoubleOps D}.
Variable dag : FunctionDAG D.

(** Dimension [i] of the footprint of the edge [e]: its interval,
    evaluated in the scope [s] of its consumer. *)
Definition edge_interval (s : gmap string Expr) (e : FunctionDAG.Edge)
    (i : nat) : Res (Z * Z) :=
  i_n ← res_of_option Undefined (FunctionDAG.bounds e !! i);
  match as_const_int (simplify (substitute s (i_min i_n))),
        as_const_int (simplify (substitute s (i_max i_n))) with
  | Some lo, Some hi => Ok (lo, hi)
  | _, _ => Err InternalAssert
  end.

(** Two intervals merged as [get_bounds] merges them. *)
Definition merge2 (q p : Z * Z) : Z * Z := (Z.min q.1 p.1, Z.min q.2 p.2).

(** The least of a list of integers. *)
Definition least (l : list Z) : Z :=
  match l with
  | [] => 0
  | x :: l' => fold_left Z.min l' x
  end.

Lemma merge_dim_spec s e i (reg reg' : list (Z * Z)) :
  merge_dim s e i reg = Ok reg' ->
  exists p, edge_interval s e i = Ok p /\
            reg' = match reg !! i with
                   | None => reg ++ [p]
                   | Some q => <[i := merge2 q p]> reg
                   end.
Proof.
  unfold merge_dim, edge_interval. intros H.
  apply bind_Ok_inv in H as (i_n & -> & H). cbn.
  destruct (as_const_int (simplify (substitute s (i_min i_n)))) as [lo|];
    [|discriminate].
  destruct (as_const_int (simplify (substitute s (i_max i_n)))) as [hi|];
    [|discriminate].
  exists (lo, hi). split; [done|].
  destruct (reg !! i); by injection H as <-.
Qed.

Lemma merge_dims_lookup s e i todo (reg reg' : list (Z * Z)) :
  length reg = i \/ (i + todo <= length reg)%nat ->
  merge_dims s e i todo reg = Ok reg' ->
  forall j,
    ((j < i)%nat -> reg' !! j = reg !! j) /\
    ((i <= j < i + todo)%nat ->
     exists p, edge_interval s e j = Ok p /\
               reg' !! j = Some (match reg !! j with
                                 | None => p
                                 | Some q => merge2 q p
                                 end)).
Proof.
  revert i reg. induction todo as [|todo IH]; intros i reg Hlen;
    cbn [merge_dims].
  - intros [= <-] j. split; [done|lia].
  - intros H j. apply bind_Ok_inv in H as (reg1 & H1 & H).
    apply merge_dim_spec in H1 as (p & Hp & ->).
    destruct (reg !! i) as [q|] eqn:Hq.
    + pose proof (lookup_lt_Some _ _ _ Hq) as Hlt.
      assert (Hlen' : length (<[i := merge2 q p]> reg) = S i \/
                      (S i + todo <= length (<[i := merge2 q p]> reg))%nat)
        by (rewrite length_insert; lia).
      destruct (IH _ _ Hlen' H j) as [Hlow Hin]. split.
      * intros Hj. rewrite Hlow by lia. by rewrite list_lookup_insert_ne by lia.
      * intros Hj. destruct (decide (j = i)) as [->|Hne].
        -- exists p. split; [done|]. rewrite Hlow by lia.
           by rewrite list_lookup_insert_eq, Hq by done.
        -- destruct Hin as (p' & Hp' & Hr); [lia|]. exists p'. split; [done|].
           by rewrite list_lookup_insert_ne in Hr by lia.
    + apply lookup_ge_None in Hq. assert (Hi : length reg = i) by lia.
      assert (Hlen' : length (reg ++ [p]) = S i \/
                      (S i + todo <= length (reg ++ [p]))%nat)
        by (left; rewrite length_app; cbn; lia).
      destruct (IH _ _ Hlen' H j) as [Hlow Hin]. split.
      * intros Hj. rewrite Hlow by lia. by rewrite lookup_app_l by lia.
      * intros Hj. destruct (decide (j = i)) as [->|Hne].
        -- exists p. split; [done|]. rewrite Hlow by lia.
           rewrite lookup_app_r by lia.
           replace (i - length reg)%nat with 0%nat by lia.
           by rewrite (lookup_ge_None_2 reg i) by lia.
        -- destruct Hin as (p' & Hp' & Hr); [lia|]. exists p'. split; [done|].
           rewrite lookup_app_r in Hr by lia.
           rewrite (lookup_ge_None_2 reg j) by lia.
           destruct (j - length reg)%nat eqn:E; [lia|].
           cbn in Hr. try rewrite lookup_nil in Hr. exact Hr.
Qed.

Lemma bounds_of_edges_merged
    (rec : Function -> gmap Function (Bound D) ->
           Res (Bound D * gmap Function (Bound D)))
    f es cache reg cii cache' reg' cii' :
  (forall g c b c', rec g c = Ok (b, c') -> c ⊆ c' /\ c' !! g = Some b) ->
  length reg = 0%nat \/ length reg = Function.dimensions f ->
  bounds_of_edges rec f es (cache, reg, cii) = Ok (cache', reg', cii') ->
  forall i, (i < Function.dimensions f)%nat ->
  exists ps,
    Forall2 (fun e p => exists cb,
               cache' !! FunctionDAG.consumer e = Some cb /\
               edge_interval
                 (consumer_scope (FunctionDAG.consumer e) 0 (region cb) ∅)
                 e i = Ok p) es ps /\
    reg' !! i = match reg !! i, ps with
                | Some q, _ => Some (fold_left merge2 ps q)
                | None, [] => None
                | None, p :: ps' => Some (fold_left merge2 ps' p)
                end.
Proof.
  intros Hrec. revert cache reg cii.
  induction es as [|e es IH]; intros cache reg cii Hlen0;
    cbn [bounds_of_edges].
  - intros [= <- <- <-] i Hi. exists []. split; [constructor|].
    by destruct (reg !! i).
  - intros H i Hi. apply bind_Ok_inv in H as ([cb c1] & Hcb & H).
    apply bind_Ok_inv in H as (reg1 & Hreg1 & H).
    apply Hrec in Hcb as [_ Hcb].
    assert (H0 : (0 <= length reg)%nat) by lia.
    pose proof (merge_dims_length _ _ _ _ _ _ H0 Hreg1) as [Hl1 Hl2].
    assert (Hlen1 : length reg1 = Function.dimensions f) by lia.
    pose proof (bounds_of_edges_spec rec f es c1 reg1 _ cache' reg' cii'
                  (fun g c b c' Hg => proj1 (Hrec g c b c' Hg))
                  (or_intror Hlen1) H) as [Hsub _].
    destruct (IH _ _ _ (or_intror Hlen1) H i Hi) as (ps & Hps & Hreg').
    assert (Hpre : length reg = 0%nat \/
                   (0 + Function.dimensions f <= length reg)%nat) by lia.
    destruct (merge_dims_lookup _ _ _ _ _ _ Hpre Hreg1 i) as [_ Hin].
    destruct Hin as (p & Hp & Hr1); [lia|].
    exists (p :: ps). split.
    + constructor; [|done]. exists cb. split; [|done].
      by eapply lookup_weaken.
    + rewrite Hreg', Hr1. by destruct (reg !! i).
Qed.

Lemma fold_merge2 (ps : list (Z * Z)) (q : Z * Z) :
  fold_left merge2 ps q = (fold_left Z.min ps.*1 q.1, fold_left Z.min ps.*2 q.2).
Proof.
  revert q. induction ps as [|p ps IH]; intros q; cbn; [by destruct q|].
  by rewrite IH.
Qed.

(** X25. What region [get_bounds] computes for a function with consumers
    that is not its own consumer: in every dimension, the lower end is the
    least of the lower ends, and the upper end the least of the upper ends,
    of the intervals of the outgoing edges, each evaluated at the region of
    its consumer. The regions of the consumers are the ones that the memo
    table holds afterwards. *)
Theorem get_bounds_region_least (n n' : PartialScheduleNode D) (f : Function)
    (out : list FunctionDAG.Edge) (b : Bound D) :
  bounds n !! f = None ->
  FunctionDAG.outgoing_edges dag !! f = Some out -> out <> [] ->
  Forall (fun e => FunctionDAG.consumer e <> f) out ->
  get_bounds dag n f = Ok (b, n') ->
  forall i, (i < Function.dimensions f)%nat ->
  exists ps,
    Forall2 (fun e p => exists cb,
               bounds n' !! FunctionDAG.consumer e = Some cb /\
               edge_interval
                 (consumer_scope (FunctionDAG.consumer e) 0 (region cb) ∅)
                 e i = Ok p) out ps /\
    region b !! i = Some (least ps.*1, least ps.*2).
Proof.
  intros Hc Hout Hne Hself H i Hi. unfold get_bounds in H.
  apply bind_Ok_inv in H as ([b' cache'] & H & Hret). injection Hret as <- <-.
  unfold bounds_fuel in H. rewrite get_bounds_rec_unfold, Hc in H.
  unfold FunctionDAG.at_ in H. rewrite Hout in H. cbn [res_of_option] in H.
  apply bind_Ok_inv in H as (out' & [= <-] & H).
  rewrite (bool_decide_eq_false_2 (out = [])) in H by done.
  cbn [andb] in H.
  apply bind_Ok_inv in H as ([[c1 reg] cii] & Hloop & H).
  apply bind_Ok_inv in H as (pts & _ & H).
  apply bind_Ok_inv in H as (nd & _ & H). cbv zeta in H.
  destruct (bool_decide (reg = [])); [discriminate|]. injection H as <- <-.
  eapply bounds_of_edges_merged in Hloop as (ps & Hps & Hreg);
    [ | intros g c b c' Hg; apply get_bounds_rec_spec in Hg as (? & ? & _); done
      | by left | exact Hi ].
  exists ps. split.
  - assert (Hps' : Forall2 (fun e p => FunctionDAG.consumer e <> f /\ exists cb,
               c1 !! FunctionDAG.consumer e = Some cb /\
               edge_interval
                 (consumer_scope (FunctionDAG.consumer e) 0 (region cb) ∅)
                 e i = Ok p) out ps).
    { clear -Hps Hself. induction Hps as [|e p es ps He Hps IH];
        constructor.
      - split; [|done]. by apply Forall_cons in Hself as [? _].
      - apply IH. by apply Forall_cons in Hself as [_ ?]. }
    eapply Forall2_impl; [exact Hps'|]. intros e p (Hn & cb & Hcb & Hp).
    exists cb. split; [|done]. destruct n. cbn.
    by rewrite lookup_insert_ne.
  - cbn [region]. rewrite Hreg, lookup_nil.
    destruct ps as [|p ps]; [by inversion Hps; subst|].
    by rewrite fold_merge2.
Qed.

End Merging.

(** ** What the placements of [compute_in_tiles] compute *)

Section Placements.
Context {D : Type} {dops : DoubleOps D}.
Variable dag : FunctionDAG D.

Lemma computes_unfold (n : PartialScheduleNode D) (f : Function) :
  computes n f =
  bool_decide (func n = Some f) ||
  bool_decide (is_Some (inlined n !! f)) ||
  existsb (fun c => computes c.2 f) (children n).
Proof. destruct n; reflexivity. Qed.

(** [n'] computes [f] and whatever [n] computes. *)
Definition adds (f : Function) (n n' : PartialScheduleNode D) : Prop :=
  func n' = func n /\ computes n' f = true /\
  forall g, computes n g = true -> computes n' g = true.

Lemma for_each_Forall {A B} (Q : B -> Prop) (body : A -> Alloc (list B))
    (l : list A) next r next' :
  (forall x nx rx nx', x ∈ l -> body x nx = Ok (rx, nx') -> Forall Q rx) ->
  for_each body l next = Ok (r, next') -> Forall Q r.
Proof.
  revert next r. induction l as [|x l IH]; intros next r Hbody;
    cbn [for_each].
  - intros [= <- <-]. constructor.
  - intros H. apply alloc_bind_Ok_inv in H as (rx & nx & Hx & H).
    apply alloc_bind_Ok_inv in H as (rest & nr & Hrest & H).
    injection H as <- <-. apply Forall_app. split.
    + eapply Hbody; [apply list_elem_of_here|exact Hx].
    + eapply IH; [|exact Hrest]. intros y ny ry ny' Hy.
      apply Hbody. by apply list_elem_of_further.
Qed.

Lemma compute_here_adds (n n' : PartialScheduleNode D) f next next' :
  compute_here dag n f next = Ok (n', next') -> adds f n n'.
Proof.
  unfold compute_here. intros Hrun.
  apply alloc_bind_Ok_inv in Hrun as ([b n1] & next1 & Hb & Hrun).
  apply alloc_bind_Ok_inv in Hrun as (p & next2 & Hp & Hrun).
  apply alloc_bind_Ok_inv in Hrun as (node & next3 & Hnode & Hrun).
  apply alloc_bind_Ok_inv in Hrun as ([sz pt] & next4 & Hshape & Hrun).
  injection Hrun as <- <-.
  unfold lift in Hb. destruct (get_bounds dag n f) as [[b' n1']|] eqn:Hgb;
    [|discriminate]. injection Hb as -> -> <-.
  apply get_bounds_fields in Hgb as [cache ->].
  split; [by destruct n|]. split.
  - rewrite computes_unfold. destruct n as [fn inn til sz0 cs inl st bd].
    cbn [set_children set_bounds func inlined children].
    rewrite existsb_app. cbn [existsb snd]. rewrite (computes_unfold (mkPSN _ _ _ _ _ _ _ _)).
    cbn [func]. rewrite (bool_decide_eq_true_2 (Some f = Some f)) by done.
    cbn. by rewrite !orb_true_r.
  - intros g. rewrite !computes_unfold.
    destruct n as [fn inn til sz0 cs inl st bd].
    cbn [set_children set_bounds func inlined children].
    rewrite existsb_app. intros Hg.
    apply orb_true_iff in Hg as [Hg|Hg]; [by rewrite Hg|].
    rewrite Hg. by rewrite ?orb_true_r.
Qed.

Lemma computes_set_store_at (n : PartialScheduleNode D) st g :
  computes (set_store_at n st) g = computes n g.
Proof. by destruct n. Qed.

Lemma computes_set_tileable (n : PartialScheduleNode D) t g :
  computes (set_tileable n t) g = computes n g.
Proof. by destruct n. Qed.

Lemma adds_set_store_at f (n n' : PartialScheduleNode D) st :
  adds f n n' -> adds f n (set_store_at n' st).
Proof.
  intros (H0 & H1 & H2). split; [by destruct n'|].
  split; [by rewrite computes_set_store_at|].
  intros g Hg. rewrite computes_set_store_at. by apply H2.
Qed.

(** The loops of a tiling compute what the node tiled computes. *)
Lemma tile_node_computes (n parent outer inner : PartialScheduleNode D) t p g :
  tile_node dag n parent t = Ok (outer, inner) ->
  computes inner g = computes n g /\
  children inner = children n /\
  func inner = func n /\ func outer = func n /\
  (forall st cs,
     computes (set_children (set_store_at outer st) cs) g =
     bool_decide (func n = Some g) || existsb (fun c => computes c.2 g) cs) /\
  computes (set_children outer [(p, inner)]) g = computes n g.
Proof.
  unfold tile_node. intros Ht.
  apply bind_Ok_inv in Ht as (fn & _ & Ht).
  apply bind_Ok_inv in Ht as (own & _ & Ht).
  apply bind_Ok_inv in Ht as ([pb pn] & _ & Ht).
  apply bind_Ok_inv in Ht as ([[isz osz] reg] & _ & Ht).
  injection Ht as <- <-.
  assert (Hinner : computes
            (mkPSN (func n) (innermost n) (tileable n) isz (children n)
                   (inlined n) (store_at n) (bounds n)) g = computes n g).
  { rewrite !computes_unfold. done. }
  split; [done|]. split; [done|]. split; [done|]. split; [done|]. split.
  - intros st cs. rewrite computes_unfold. cbn.
    rewrite lookup_empty.
    rewrite (bool_decide_eq_false_2 (is_Some None)) by (by intros [? ?]).
    by rewrite orb_false_r.
  - rewrite computes_unfold. cbn -[computes]. rewrite Hinner, lookup_empty.
    rewrite (bool_decide_eq_false_2 (is_Some None)) by (by intros [? ?]).
    rewrite orb_false_r, orb_false_r.
    rewrite (computes_unfold n).
    destruct (bool_decide (func n = Some g)); done.
Qed.

(** One unfolding of [compute_in_tiles] adds [f], when the calls on the
    children and on the inner loop do. *)
Lemma compute_in_tiles_step_adds out f on_inner recs
    (n : PartialScheduleNode D) parent in_realization next l next' :
  length recs = length (children n) ->
  (forall i rec c par ir nx lx nx',
     recs !! i = Some rec -> children n !! i = Some c ->
     rec par ir nx = Ok (lx, nx') -> Forall (adds f c.2) lx) ->
  (forall inner sah nx lx nx',
     (forall g, computes inner g = computes n g) ->
     children inner = children n -> func inner = func n ->
     on_inner inner sah nx = Ok (lx, nx') -> Forall (adds f n) lx) ->
  compute_in_tiles_step dag out f on_inner recs n parent in_realization next
    = Ok (l, next') ->
  Forall (adds f n) l.
Proof.
  intros Hlen Hrecs Hinner. unfold compute_in_tiles_step. intros H.
  apply alloc_bind_Ok_inv in H as (r & next1 & Hr & H).
  apply compute_here_adds in Hr.
  assert (Hr' : adds f n (if in_realization then r
                          else set_store_at r ({[f]} ∪ store_at r))).
  { destruct in_realization; [done|]. by apply adds_set_store_at. }
  destruct (bool_decide (out = [])).
  { injection H as <- <-. constructor; [exact Hr'|constructor]. }
  apply alloc_bind_Ok_inv in H as (tiled & next2 & Htiled & H).
  apply alloc_bind_Ok_inv in H as (pushed & next3 & Hpushed & H).
  injection H as <- <-.
  constructor; [done|]. apply Forall_app. split.
  - (* the tilings *)
    destruct (tileable n); [|injection Htiled as <- <-; constructor].
    apply alloc_bind_Ok_inv in Htiled as (tilings & next4 & _ & Htiled).
    eapply for_each_Forall; [|exact Htiled].
    intros t nx rx nx' _ Hbody. cbv beta in Hbody.
    apply alloc_bind_Ok_inv in Hbody as (par & nx1 & _ & Hbody).
    destruct (is_root par && (tiling_total t <? 16)).
    { injection Hbody as <- <-. constructor. }
    apply alloc_bind_Ok_inv in Hbody as (p_inner & nx2 & _ & Hbody).
    apply alloc_bind_Ok_inv in Hbody as ([outer inner] & nx3 & Htile & Hbody).
    unfold lift in Htile.
    destruct (tile_node dag n par t) as [[outer' inner']|] eqn:Ht; [|discriminate].
    injection Htile as -> -> <-.
    apply alloc_bind_Ok_inv in Hbody as (cah & nx4 & Hcah & Hbody).
    apply compute_here_adds in Hcah as (Hcfn & Hcf & Hcg).
    assert (Hcah' : adds f n (if in_realization then cah
                              else set_store_at cah ({[f]} ∪ store_at cah))).
    { assert (adds f n cah).
      { split.
        { rewrite Hcfn.
          destruct (tile_node_computes _ _ _ _ _ p_inner f Ht)
            as (_ & _ & _ & <- & _). by destruct outer. }
        split; [done|]. intros g Hg. apply Hcg.
        destruct (tile_node_computes _ _ _ _ _ p_inner g Ht)
          as (_ & _ & _ & _ & _ & ->).
        done. }
      destruct in_realization; [done|]. by apply adds_set_store_at. }
    destruct in_realization.
    { injection Hbody as <- <-. constructor; [exact Hcah'|constructor]. }
    apply alloc_bind_Ok_inv in Hbody as (v & nx5 & Hv & Hbody).
    apply alloc_bind_Ok_inv in Hbody as (slid & nx6 & Hslid & Hbody).
    injection Hbody as <- <-. constructor; [done|].
    apply Hinner in Hv;
      [|intros g; by destruct (tile_node_computes _ _ _ _ _ p_inner g Ht)
                        as (-> & _)
       |by destruct (tile_node_computes _ _ _ _ _ p_inner f Ht)
             as (_ & -> & _)
       |by destruct (tile_node_computes _ _ _ _ _ p_inner f Ht)
             as (_ & _ & -> & _)].
    clear Hcah' Hcf Hcg Hcfn Hr Hr'. revert nx5 slid Hslid.
    induction Hv as [|n' v (_ & Hn'f & Hn'g) Hv IH]; intros nx5 slid Hslid;
      cbn [for_each] in Hslid.
    + injection Hslid as <- <-. constructor.
    + apply alloc_bind_Ok_inv in Hslid as (r1 & ny & Hr1 & Hslid).
      apply alloc_bind_Ok_inv in Hslid as (rest & ny' & Hrest & Hslid).
      injection Hslid as <- <-.
      apply alloc_bind_Ok_inv in Hr1 as (p & ny2 & _ & Hr1).
      injection Hr1 as <- <-. cbn [app].
      constructor; [|by eapply IH].
      assert (Hsah : forall g,
        computes
          (set_children
             (set_store_at (set_children outer [(p_inner, inner)])
                ({[f]} ∪ store_at (set_children outer [(p_inner, inner)])))
             [(p, set_tileable n' false)]) g =
        bool_decide (func n = Some g) || (computes n' g || false)).
      { intros g.
        destruct (tile_node_computes _ _ _ _ _ p_inner g Ht)
          as (_ & _ & _ & _ & Ho & _).
        specialize (Ho ({[f]} ∪ store_at (set_children outer [(p_inner, inner)]))
                       [(p, set_tileable n' false)]).
        cbn [existsb snd] in Ho. rewrite computes_set_tileable in Ho.
        rewrite <- Ho. by destruct outer. }
      split; [|split].
      * destruct (tile_node_computes _ _ _ _ _ p_inner f Ht)
          as (_ & _ & _ & <- & _). by destruct outer.
      * rewrite Hsah, Hn'f. by rewrite orb_true_r.
      * intros g Hg. rewrite Hsah, (Hn'g g Hg). by rewrite orb_true_r.
  - (* pushed into the one child that calls [f] *)
    destruct (last (calling_children out n)) as [child|];
      [|injection Hpushed as <- <-; constructor].
    destruct (bool_decide (length (calling_children out n) = 1%nat));
      [|injection Hpushed as <- <-; constructor].
    eapply for_each_Forall; [|exact Hpushed].
    intros store_here nx rx nx' _ Hbody. cbv beta in Hbody.
    destruct (store_here && (in_realization || is_root n)).
    { injection Hbody as <- <-. constructor. }
    apply alloc_bind_Ok_inv in Hbody as (rec & nx1 & Hrec & Hbody).
    apply alloc_bind_Ok_inv in Hbody as (v & nx2 & Hv & Hbody).
    unfold lift in Hrec. destruct (recs !! child) as [rec'|] eqn:Hlook;
      [|discriminate]. injection Hrec as -> <-.
    destruct (lookup_lt_is_Some_2 (children n) child) as [c Hc].
    { rewrite <- Hlen. by eapply lookup_lt_Some. }
    pose proof (Hrecs _ _ _ _ _ _ _ _ Hlook Hc Hv) as Hall.
    eapply for_each_Forall; [|exact Hbody].
    intros n' ny ry ny' Hn' Hbody'.
    apply alloc_bind_Ok_inv in Hbody' as (p & ny1 & _ & Hbody').
    cbv beta zeta in Hbody'.
    injection Hbody' as <- <-. constructor; [|constructor].
    rewrite Forall_forall in Hall. destruct (Hall _ Hn') as (_ & Hf & Hg).
    set (r0 := if store_here then set_store_at n ({[f]} ∪ store_at n) else n).
    assert (Hr0 : func r0 = func n /\ inlined r0 = inlined n /\
                  children r0 = children n).
    { unfold r0. destruct store_here; by destruct n. }
    destruct Hr0 as (Hfn & Hin & Hch).
    assert (Hex : forall g, computes n' g = true ->
              existsb (fun c => computes c.2 g)
                      (<[child := (p, n')]> (children n)) = true).
    { intros g Hn'g. apply existsb_exists. exists (p, n'). split; [|done].
      apply list_elem_of_In. apply list_elem_of_lookup. exists child.
      apply list_lookup_insert_eq. by eapply lookup_lt_Some. }
    split; [by destruct r0|]. split.
    + rewrite computes_unfold. destruct r0; cbn in *. subst.
      rewrite (Hex f Hf). by rewrite orb_true_r.
    + intros g Hng. rewrite computes_unfold. destruct r0; cbn in *. subst.
      rewrite computes_unfold in Hng.
      apply orb_true_iff in Hng as [Hng|Hng];
        [rewrite Hng; by rewrite ?orb_true_r|].
      apply existsb_exists in Hng as (c' & Hc' & Hcg).
      apply list_elem_of_In, list_elem_of_lookup in Hc' as (j & Hj).
      destruct (decide (j = child)) as [->|Hne].
      * rewrite Hc in Hj. injection Hj as <-.
        rewrite (Hex g (Hg g Hcg)). by rewrite orb_true_r.
      * assert (Hin' : existsb (fun c => computes c.2 g)
                         (<[child := (p, n')]> (children n)) = true).
        { apply existsb_exists. exists c'. split; [|done].
          apply list_elem_of_In, list_elem_of_lookup. exists j.
          by rewrite list_lookup_insert_ne. }
        rewrite Hin'. by rewrite orb_true_r.
Qed.

Lemma compute_in_tiles_in_unfold out f (n : PartialScheduleNode D) :
  compute_in_tiles_in dag out f n =
  let recs := map (fun c => compute_in_tiles_in dag out f c.2) (children n) in
  compute_in_tiles_step dag out f
    (fun inner store_at_here =>
       compute_in_tiles_step dag out f (fun _ _ => mret []) recs
                             inner (Some store_at_here) true)
    recs n.
Proof. destruct n; reflexivity. Qed.

Lemma compute_in_tiles_in_adds out f (n : PartialScheduleNode D) :
  forall parent in_realization next l next',
  compute_in_tiles_in dag out f n parent in_realization next = Ok (l, next') ->
  Forall (adds f n) l.
Proof.
  induction n as [n IH] using PartialScheduleNode_ind'.
  intros parent in_realization next l next'.
  rewrite compute_in_tiles_in_unfold. cbv zeta.
  assert (Hrecs : forall n0 : PartialScheduleNode D,
    children n0 = children n ->
    forall i rec c par ir nx lx nx',
      map (fun c => compute_in_tiles_in dag out f c.2) (children n) !! i
        = Some rec ->
      children n0 !! i = Some c ->
      rec par ir nx = Ok (lx, nx') -> Forall (adds f c.2) lx).
  { intros n0 Hn0 i rec c par ir nx lx nx' Hrec Hc. rewrite Hn0 in Hc.
    change (map ?g ?l) with (g <$> l) in Hrec.
    rewrite list_lookup_fmap, Hc in Hrec. injection Hrec as <-.
    rewrite Forall_forall in IH. apply IH.
    apply list_elem_of_lookup. by exists i. }
  apply compute_in_tiles_step_adds.
  - by rewrite length_map.
  - by apply Hrecs.
  - intros inner sah nx lx nx' Hsame Hch Hfn Hrun.
    eapply Forall_impl.
    + eapply (compute_in_tiles_step_adds out f _ _ inner); [| | |exact Hrun].
      * by rewrite length_map, Hch.
      * by apply Hrecs.
      * intros ? ? ? ? ? _ _ _ [= <- <-]. constructor.
    + intros n' (H0 & H1 & H2). split; [congruence|]. split; [done|].
      intros g Hg. apply H2. by rewrite Hsame.
Qed.

(** X13. Every placement that [compute_in_tiles] returns for [f] is a tree
    for the same loop as the node it was asked at (the root stays the
    root), computes [f], so the assertion "Failed to inject realization" of
    [generate_children] cannot fail, and computes every function that the
    tree computed before. *)
Theorem compute_in_tiles_computes (n : PartialScheduleNode D) (f : Function)
    (parent : option (PartialScheduleNode D)) (in_realization : bool)
    (next next' : ptr) (l : list (PartialScheduleNode D)) :
  compute_in_tiles dag n f parent in_realization next = Ok (l, next') ->
  Forall (fun n' : PartialScheduleNode D =>
            func n' = func n /\ computes n' f = true /\ 
            forall g, computes n g = true -> computes n' g = true) l.
Proof.
  unfold compute_in_tiles. intros H.
  apply alloc_bind_Ok_inv in H as (out & next1 & _ & H).
  by apply compute_in_tiles_in_adds in H.
Qed.

End Placements.

(** ** Callers and consumers *)

Section Callers.
Context {D : Type} {dops : DoubleOps D}.
Variable dag : FunctionDAG D.

Lemma existsb_orb {A} (p q : A -> bool) (l : list A) :
  existsb (fun x => p x || q x) l = existsb p l || existsb q l.
Proof.
  induction l as [|x l IH]; [done|]. cbn. rewrite IH.
  destruct (p x), (q x), (existsb p l), (existsb q l); done.
Qed.

Lemma existsb_swap {A B} (p : A -> B -> bool) (l : list A) (k : list B) :
  existsb (fun x => existsb (fun y => p x y) k) l =
  existsb (fun y => existsb (fun x => p x y) l) k.
Proof.
  induction l as [|x l IH]; cbn.
  - induction k as [|y k IHk]; [done|]. cbn. by rewrite <- IHk.
  - rewrite IH. by rewrite existsb_orb.
Qed.

Lemma existsb_ext_in {A} (p q : A -> bool) (l : list A) :
  Forall (fun x => p x = q x) l -> existsb p l = existsb q l.
Proof. induction 1 as [|x l Hx _ IH]; [done|]. cbn. by rewrite Hx, IH. Qed.

Lemma calls_in_computes (out : list FunctionDAG.Edge) (n : PartialScheduleNode D) :
  calls_in out n = existsb (fun e => computes n (FunctionDAG.consumer e)) out.
Proof.
  induction n as [n IH] using PartialScheduleNode_ind'.
  rewrite calls_in_unfold.
  rewrite (existsb_ext_in _ (fun c => existsb
             (fun e => computes c.2 (FunctionDAG.consumer e)) out) _ IH).
  rewrite existsb_swap, <- existsb_orb.
  apply existsb_ext_in, Forall_forall. intros e _.
  rewrite (computes_unfold n).
  destruct (bool_decide (func n = Some (FunctionDAG.consumer e))),
    (bool_decide (is_Some (inlined n !! FunctionDAG.consumer e))),
    (existsb (fun c => computes c.2 (FunctionDAG.consumer e)) (children n));
    done.
Qed.

(** X10. A tree calls [f] exactly when it computes a consumer of [f]:
    [calls(f, dag)] is true when [computes(e->consumer)] is, for one of the
    outgoing edges [e] of [f]; for a function that the DAG does not know,
    [outgoing_edges.at] throws. *)
Theorem calls_computes_consumer (n : PartialScheduleNode D) (f : Function) :
  calls dag n f =
  match FunctionDAG.outgoing_edges dag !! f with
  | Some out =>
    Ok (existsb (fun e => computes n (FunctionDAG.consumer e)) out)
  | None => Err OutOfRange
  end.
Proof.
  unfold calls, FunctionDAG.at_.
  destruct (FunctionDAG.outgoing_edges dag !! f) as [out|]; [|done].
  cbn. by rewrite calls_in_computes.
Qed.

End Callers.

(** ** What inlining makes the tree compute *)

Section InlineComputes.
Context {D : Type} {dops : DoubleOps D}.
Variable out : list FunctionDAG.Edge.
Variable f : Function.

(** Some innermost loop of the tree calls [f] a non-zero number of times,
    from its own function or from the functions inlined into it. *)
Fixpoint direct_caller (n : PartialScheduleNode D) : bool :=
  (innermost n && negb (inlined_calls out n =? 0)) ||
  existsb (fun c => direct_caller c.2) (children n).

Lemma direct_caller_unfold (n : PartialScheduleNode D) :
  direct_caller n =
  (innermost n && negb (inlined_calls out n =? 0)) ||
  existsb (fun c => direct_caller c.2) (children n).
Proof. destruct n; reflexivity. Qed.

Lemma inlined_calls_calls (n : PartialScheduleNode D) :
  inlined_calls out n <> 0 ->
  existsb (fun e =>
             bool_decide (func n = Some (FunctionDAG.consumer e)) ||
             bool_decide (is_Some (inlined n !! FunctionDAG.consumer e)))
          out = true.
Proof.
  rewrite inlined_calls_sum. unfold sum.
  induction out as [|e es IH]; [done|].
  rewrite fmap_cons. cbn [foldr existsb]. intros Hne.
  destruct (bool_decide (func n = Some (FunctionDAG.consumer e))) eqn:E1; [done|].
  destruct (inlined n !! FunctionDAG.consumer e) as [v|] eqn:E2.
  - rewrite (bool_decide_eq_true_2 (is_Some (Some v))) by eauto. done.
  - cbn [orb]. rewrite IH; [apply orb_true_r|].
    unfold edge_calls at 1 in Hne. rewrite E1, E2 in Hne.
    cbn [from_option id] in Hne. lia.
Qed.

Lemma direct_caller_calls (n : PartialScheduleNode D) :
  direct_caller n = true -> calls_in out n = true.
Proof.
  induction n as [n IH] using PartialScheduleNode_ind'.
  rewrite direct_caller_unfold, calls_in_unfold. intros H.
  apply orb_true_iff in H as [H|H].
  - apply andb_true_iff in H as [_ H]. apply negb_true_iff, Z.eqb_neq in H.
    rewrite (inlined_calls_calls n H). by rewrite orb_true_r.
  - apply existsb_exists in H as (c & Hc & Hd).
    assert (existsb (fun c => calls_in out c.2) (children n) = true) as ->; [|done].
    apply existsb_exists. exists c. split; [done|].
    rewrite Forall_forall in IH. apply IH; [|done].
    by apply list_elem_of_In.
Qed.

Lemma inlined_copy_computes lo (n n' : PartialScheduleNode D) g :
  inlined_copy out f lo n n' ->
  computes n' g = computes n g || (bool_decide (g = f) && direct_caller n).
Proof.
  revert n'. induction n as [n IH] using PartialScheduleNode_ind'.
  intros n' H. inversion H as [? ? H1 H2 H3 H4 H5 H6 H7 Hcs]; subst.
  rewrite (computes_unfold n'), (computes_unfold n), direct_caller_unfold.
  rewrite H1, H7.
  assert (Hinl : bool_decide (is_Some (inlined_after out f n !! g)) =
                 bool_decide (is_Some (inlined n !! g)) ||
                 (bool_decide (g = f) &&
                  (innermost n && negb (inlined_calls out n =? 0)))).
  { unfold inlined_after. rewrite <- inlined_calls_sum.
    destruct (innermost n && negb (inlined_calls out n =? 0)) eqn:E.
    - destruct (decide (g = f)) as [->|Hne].
      + rewrite lookup_insert_eq.
        rewrite (bool_decide_eq_true_2 (is_Some (Some _))) by eauto.
        rewrite (bool_decide_eq_true_2 (f = f)) by done.
        by rewrite orb_true_r.
      + rewrite lookup_insert_ne by done.
        rewrite (bool_decide_eq_false_2 (g = f)) by done.
        by rewrite orb_false_r.
    - by rewrite andb_false_r, orb_false_r. }
  assert (Hkids : existsb (fun c => computes c.2 g) (children n') =
                  existsb (fun c => computes c.2 g) (children n) ||
                  (bool_decide (g = f) &&
                   existsb (fun c => direct_caller c.2) (children n))).
  { clear -IH Hcs. induction Hcs as [|c c' cs cs' [Hc1 Hc2] Hcs IHcs].
    - by rewrite andb_false_r.
    - inversion IH as [|? ? IHc IHrest]; subst. cbn [existsb].
      rewrite (IHcs IHrest).
      assert (Hc : computes c'.2 g =
                   computes c.2 g || (bool_decide (g = f) && direct_caller c.2)).
      { destruct (calls_in out c.2) eqn:Hcalls.
        - destruct (Hc1 eq_refl) as [_ Hcopy]. by apply IHc.
        - rewrite (Hc2 eq_refl).
          destruct (direct_caller c.2) eqn:Hd.
          + apply direct_caller_calls in Hd. congruence.
          + by rewrite andb_false_r, orb_false_r. }
      rewrite Hc. destruct (computes c.2 g), (bool_decide (g = f)),
        (direct_caller c.2), (existsb (fun c => computes c.2 g) cs),
        (existsb (fun c => direct_caller c.2) cs); done. }
  rewrite Hinl, Hkids.
  destruct (bool_decide (func n = Some g)),
    (bool_decide (is_Some (inlined n !! g))), (bool_decide (g = f)),
    (innermost n && negb (inlined_calls out n =? 0)),
    (existsb (fun c => computes c.2 g) (children n)),
    (existsb (fun c => direct_caller c.2) (children n)); done.
Qed.

End InlineComputes.

(** X11. What a tree computes after [f] is inlined into it: what it computed
    before, and [f] exactly when some innermost loop of the tree calls [f]
    a non-zero number of times; so the assertion "Failed to inline" of
    [generate_children] holds exactly then, or when the tree computed [f]
    already. *)
Theorem inline_func_computes {D : Type} {dops : DoubleOps D}
    (dag : FunctionDAG D) (f : Function) (out : list FunctionDAG.Edge)
    (n n' : PartialScheduleNode D) (next next' : ptr) (g : Function) :
  FunctionDAG.outgoing_edges dag !! f = Some out ->
  inline_func dag n f next = Ok (n', next') ->
  computes n' g = computes n g || (bool_decide (g = f) && direct_caller out n).
Proof.
  intros Hout Hrun.
  destruct (inline_func_in_spec out f n next)
    as (n1 & next1 & Hrun1 & _ & Hcopy & _).
  unfold inline_func in Hrun.
  erewrite alloc_bind_Ok in Hrun;
    [|unfold lift, FunctionDAG.at_; by rewrite Hout].
  rewrite Hrun1 in Hrun. injection Hrun as <- <-.
  by eapply inlined_copy_computes.
Qed.

(** ** The extents of a tiling *)

Section Tiling.
Context {D : Type} {dops : DoubleOps D}.
Variable dag : FunctionDAG D.

Lemma move_factors_spec t i parent_reg isz osz reg isz' osz' reg' :
  move_factors t i parent_reg (isz, osz, reg) = Ok (isz', osz', reg') ->
  length isz' = length isz /\ length osz' = length osz /\
  forall j,
    ((j < i)%nat \/ (i + length t <= j)%nat ->
     isz' !! j = isz !! j /\ osz' !! j = osz !! j) /\
    (forall ti, (i <= j)%nat -> t !! (j - i)%nat = Some ti ->
       cast_int ti <> 0 /\
       exists os, osz !! j = Some os /\
         isz' !! j = Some ((os + cast_int ti - 1) ÷ cast_int ti) /\
         osz' !! j = Some (cast_int ti)).
Proof.
  revert i isz osz reg. induction t as [|ti t IH]; intros i isz osz reg;
    cbn [move_factors].
  - intros [= <- <- <-]. split; [done|]. split; [done|]. intros j. split; [done|].
    intros ti _ Hti. by rewrite lookup_nil in Hti.
  - intros H. apply bind_Ok_inv in H as (os & Hos & H).
    apply bind_Ok_inv in H as (is0 & His & H).
    destruct (cast_int ti =? 0) eqn:Hz; [discriminate|].
    apply Z.eqb_neq in Hz.
    apply bind_Ok_inv in H as (pr & _ & H).
    apply bind_Ok_inv in H as (r0 & _ & H).
    destruct (osz !! i) as [os'|] eqn:Hosz; [|discriminate]. injection Hos as ->.
    destruct (isz !! i) as [is'|] eqn:Hisz; [|discriminate]. injection His as ->.
    apply IH in H as (Hl1 & Hl2 & Hall).
    rewrite length_insert in Hl1, Hl2. split; [done|]. split; [done|].
    intros j. destruct (Hall j) as [Hout Hin]. split.
    + intros Hj. cbn [length] in Hj.
      destruct Hout as [-> ->]; [lia|].
      rewrite !list_lookup_insert_ne by lia. done.
    + intros tj Hij Htj. destruct (decide (j = i)) as [->|Hne].
      * replace (i - i)%nat with 0%nat in Htj by lia. injection Htj as <-.
        split; [done|]. exists os. split; [done|].
        destruct Hout as [-> ->]; [lia|].
        rewrite !list_lookup_insert_eq; [done|by eapply lookup_lt_Some..].
      * replace (j - i)%nat with (S (j - S i)) in Htj by lia. cbn in Htj.
        destruct (Hin tj ltac:(lia) Htj) as (Hnz & os1 & Hos1 & His1 & Hos1').
        split; [done|]. exists os1.
        rewrite list_lookup_insert_ne in Hos1 by lia. done.
Qed.

(** X12. The two loops of a tiling cover the loop tiled: in every dimension
    the outer loop has the factor of the tiling as its extent and the inner
    loop the extent of the node divided by the factor, rounded up; for
    positive extents and factors the product of the two is at least the
    extent of the node, and less than a whole factor above it. *)
Theorem tile_node_covers (n parent outer inner : PartialScheduleNode D)
    (t : list Z) :
  tile_node dag n parent t = Ok (outer, inner) ->
  length (size outer) = length (size n) /\
  length (size inner) = length (size n) /\
  forall i ti s,
    t !! i = Some ti -> size n !! i = Some s ->
    1 <= ti <= INT_MAX -> 1 <= s ->
    size outer !! i = Some ti /\
    size inner !! i = Some ((s + ti - 1) / ti) /\
    s <= ti * ((s + ti - 1) / ti) < s + ti.
Proof.
  unfold tile_node. intros Ht.
  apply bind_Ok_inv in Ht as (fn & _ & Ht).
  apply bind_Ok_inv in Ht as (own & _ & Ht).
  apply bind_Ok_inv in Ht as ([pb pn] & _ & Ht).
  apply bind_Ok_inv in Ht as ([[isz osz] reg] & Hmove & Ht).
  injection Ht as <- <-. cbn [size].
  apply move_factors_spec in Hmove as (Hl1 & Hl2 & Hall).
  rewrite length_replicate in Hl1.
  split; [done|]. split; [done|].
  intros i ti s Hti Hs Hrange Hpos.
  destruct (Hall i) as [_ Hin].
  destruct (Hin ti ltac:(lia)) as (_ & os & Hos & His' & Hos').
  { by replace (i - 0)%nat with i by lia. }
  rewrite Hs in Hos. injection Hos as <-.
  rewrite cast_int_id in His', Hos' by (unfold INT_MAX in *; lia).
  rewrite Z.quot_div_nonneg in His' by lia.
  split; [done|]. split; [done|].
  pose proof (Z.div_mod (s + ti - 1) ti ltac:(lia)) as Hdm.
  pose proof (Z.mod_pos_bound (s + ti - 1) ti ltac:(lia)) as Hmod.
  lia.
Qed.

End Tiling.

(** ** What [calculate_cost] leaves of a state, and the successor of an output *)

Section Successors.
Context {D : Type} {dops : DoubleOps D}.
Variable dag : FunctionDAG D.

Lemma subtract_essential_spec todo i (rt rt' : PartialScheduleNode D) c c' :
  subtract_essential dag todo i rt c = Ok (rt', c') ->
  exists cache,
    rt' = set_bounds rt cache /\ bounds rt ⊆ cache /\
    forall j node, (i <= j < i + todo)%nat ->
      FunctionDAG.nodes dag !! j = Some node ->
      is_Some (cache !! FunctionDAG.func node).
Proof.
  revert i rt c. induction todo as [|todo IH]; intros i rt c;
    cbn [subtract_essential].
  - intros [= <- <-]. exists (bounds rt). split; [by destruct rt|].
    split; [done|]. intros j node Hj. lia.
  - intros H. apply bind_Ok_inv in H as (n & Hn & H).
    apply bind_Ok_inv in H as ([b rt1] & Hb & H).
    apply get_bounds_spec in Hb as (cache1 & -> & Hsub1 & Hf1).
    apply IH in H as (cache & -> & Hsub & Hall).
    exists cache. split; [by destruct rt|].
    replace (bounds (set_bounds rt cache1)) with cache1 in Hsub by by destruct rt.
    split; [by etrans|].
    intros j node Hj Hnode. destruct (decide (j = i)) as [->|Hne].
    + destruct (FunctionDAG.nodes dag !! i) as [n0|] eqn:Hi; [|discriminate].
      injection Hn as ->. injection Hnode as ->.
      exists b. eapply lookup_weaken; [exact Hf1|exact Hsub].
    + apply (Hall j); [lia|done].
Qed.

(** X14. [calculate_cost] changes nothing of a state but its cost and the
    memo table of its root; the table keeps the entries that it had, and
    afterwards holds a bound for every function scheduled so far. *)
Theorem calculate_cost_frame (s c : State D) :
  calculate_cost dag s = Ok c ->
  num_funcs_scheduled c = num_funcs_scheduled s /\
  root c = set_bounds (root s) (bounds (root c)) /\
  bounds (root s) ⊆ bounds (root c) /\
  forall j node, (j < num_funcs_scheduled s)%nat ->
    FunctionDAG.nodes dag !! j = Some node ->
    is_Some (bounds (root c) !! FunctionDAG.func node).
Proof.
  unfold calculate_cost. intros H.
  apply bind_Ok_inv in H as ([c0 maps] & _ & H).
  apply bind_Ok_inv in H as ([rt c1] & Hsub & H). injection H as <-.
  apply subtract_essential_spec in Hsub as (cache & -> & Hsub & Hall).
  cbn [root num_funcs_scheduled].
  replace (bounds (set_bounds (root s) cache)) with cache
    by by destruct (root s).
  repeat split; try done. intros j node Hj. apply Hall. lia.
Qed.

Lemma compute_here_shape (n r : PartialScheduleNode D) f next next' :
  compute_here dag n f next = Ok (r, next') ->
  next' = S next /\
  exists cache leaf,
    r = set_children (set_bounds n cache) (children n ++ [(next, leaf)]) /\
    func leaf = Some f /\ innermost leaf = true /\ tileable leaf = true /\
    children leaf = [] /\ inlined leaf = ∅ /\ store_at leaf = ∅.
Proof.
  unfold compute_here. intros Hrun.
  apply alloc_bind_Ok_inv in Hrun as ([b n1] & next1 & Hb & Hrun).
  apply alloc_bind_Ok_inv in Hrun as (p & next2 & Hp & Hrun).
  apply alloc_bind_Ok_inv in Hrun as (node & next3 & Hnode & Hrun).
  apply alloc_bind_Ok_inv in Hrun as ([sz pt] & next4 & Hshape & Hrun).
  injection Hrun as <- <-.
  unfold lift in Hb. destruct (get_bounds dag n f) as [[b' n1']|] eqn:Hgb;
    [|discriminate]. injection Hb as -> -> <-.
  apply get_bounds_fields in Hgb as [cache ->].
  unfold new_node in Hp. injection Hp as <- <-.
  unfold lift in Hnode. destruct (FunctionDAG.at_ _ f); [|discriminate].
  injection Hnode as -> <-.
  unfold lift in Hshape. destruct (leaf_shape _ _ _) as [[sz' pt']|]; [|discriminate].
  injection Hshape as -> -> <-.
  split; [done|]. eexists cache, _. split; [by destruct n|]. done.
Qed.

(** X15. An output, a function without outgoing edges, has one successor
    state only: it is not inlined and not tiled, but computed and stored
    at the root, as a new innermost leaf behind the children that the root
    has. *)
Theorem generate_children_output (s : State D) (node : FunctionDAG.Node D)
    (next next' : ptr) (cs : list (State D)) :
  FunctionDAG.nodes dag !! num_funcs_scheduled s = Some node ->
  FunctionDAG.outgoing_edges dag !! FunctionDAG.func node = Some [] ->
  generate_children dag s next = Ok (cs, next') ->
  exists c leaf,
    cs = [c] /\ next' = S next /\
    num_funcs_scheduled c = S (num_funcs_scheduled s) /\
    children (root c) = children (root s) ++ [(next, leaf)] /\
    func leaf = Some (FunctionDAG.func node) /\
    innermost leaf = true /\ children leaf = [] /\
    store_at (root c) = {[FunctionDAG.func node]} ∪ store_at (root s) /\
    inlined (root c) = inlined (root s).
Proof.
  intros Hnode Hout. unfold generate_children.
  destruct (negb (is_root (root s))); [discriminate|].
  rewrite bool_decide_eq_false_2
    by (apply lookup_lt_Some in Hnode; lia).
  rewrite Hnode. cbn [res_of_option]. intros H.
  apply alloc_bind_Ok_inv in H as (node' & nx & [= <- <-] & H).
  cbv zeta in H. unfold FunctionDAG.at_ in H. rewrite Hout in H.
  apply alloc_bind_Ok_inv in H as (out & nx & [= <- <-] & H).
  cbn [forallb negb] in H.
  rewrite (bool_decide_eq_true_2 ([] = [])) in H by done.
  apply alloc_bind_Ok_inv in H as (inl & nx & [= <- <-] & H).
  apply alloc_bind_Ok_inv in H as (opts & nx & Hopts & H).
  apply alloc_bind_Ok_inv in H as (realized & nx' & Hreal & H).
  injection H as <- <-.
  unfold compute_in_tiles, FunctionDAG.at_ in Hopts. rewrite Hout in Hopts.
  apply alloc_bind_Ok_inv in Hopts as (out & nx0 & [= <- <-] & Hopts).
  rewrite compute_in_tiles_in_unfold in Hopts. cbv zeta in Hopts.
  unfold compute_in_tiles_step in Hopts.
  apply alloc_bind_Ok_inv in Hopts as (r & nx1 & Hr & Hopts).
  rewrite (bool_decide_eq_true_2 ([] = [])) in Hopts by done.
  injection Hopts as <- <-.
  apply compute_here_shape in Hr as (-> & cache & leaf & -> & Hl1 & Hl2 & Hl3 & Hl4 & _).
  cbn [for_each] in Hreal.
  apply alloc_bind_Ok_inv in Hreal as (r1 & nx2 & Hr1 & Hreal).
  injection Hreal as <- <-.
  apply alloc_bind_Ok_inv in Hr1 as (child & nx3 & Hchild & Hr1).
  injection Hr1 as <- <-.
  unfold lift in Hchild.
  destruct (make_child dag s (FunctionDAG.func node) _) as [c|] eqn:Hc;
    [|discriminate]. injection Hchild as -> <-.
  exists child, leaf. split; [done|]. split; [done|].
  split; [by apply make_child_scheduled in Hc|].
  unfold make_child in Hc. apply bind_Ok_inv in Hc as (c0 & Hc0 & Hc).
  destruct (computes (root c0) _); [|discriminate]. injection Hc as ->.
  unfold calculate_cost in Hc0.
  apply bind_Ok_inv in Hc0 as ([c1 maps] & _ & Hc0).
  apply bind_Ok_inv in Hc0 as ([rt c2] & Hsub & Hc0). injection Hc0 as <-.
  apply subtract_essential_spec in Hsub as (cache' & -> & _).
  cbn [root]. by destruct (root s).
Qed.

End Successors.

(** ** What the search returns *)

Section SearchInvariant.
Context {D : Type} {dops : DoubleOps D}.
Variable dag : FunctionDAG D.

(** The root of the state is the root of a tree, and the tree computes the
    functions scheduled so far. *)
Definition scheduled (s : State D) : Prop :=
  is_root (root s) = true /\
  forall j node, (j < num_funcs_scheduled s)%nat ->
    FunctionDAG.nodes dag !! j = Some node ->
    computes (root s) (FunctionDAG.func node) = true.

Lemma make_child_spec (s c : State D) f rt :
  make_child dag s f rt = Ok c ->
  num_funcs_scheduled c = S (num_funcs_scheduled s) /\
  computes (root c) f = true /\
  func (root c) = func rt /\
  forall g, computes (root c) g = computes rt g.
Proof.
  intros H. split; [by eapply make_child_scheduled|].
  unfold make_child in H. apply bind_Ok_inv in H as (c0 & Hc0 & H).
  destruct (computes (root c0) f) eqn:Hf; [|discriminate]. injection H as <-.
  split; [done|].
  unfold calculate_cost in Hc0.
  apply bind_Ok_inv in Hc0 as ([c1 maps] & _ & Hc0).
  apply bind_Ok_inv in Hc0 as ([rt' c2] & Hsub & Hc0). injection Hc0 as <-.
  apply subtract_essential_spec in Hsub as (cache' & -> & _).
  cbn [root]. split; [by destruct rt|]. intros g.
  rewrite !computes_unfold. by destruct rt.
Qed.

Lemma generate_children_scheduled (s : State D) next cs next' :
  scheduled s ->
  generate_children dag s next = Ok (cs, next') ->
  Forall scheduled cs.
Proof.
  intros [Hroot Hpre]. unfold generate_children. rewrite Hroot. cbn [negb].
  destruct (bool_decide (num_funcs_scheduled s = length (FunctionDAG.nodes dag))).
  { intros [= <- <-]. constructor. }
  intros H. apply alloc_bind_Ok_inv in H as (node & nx1 & Hnode & H).
  unfold lift in Hnode.
  destruct (FunctionDAG.nodes dag !! num_funcs_scheduled s) as [node'|] eqn:Hlook;
    [|discriminate]. injection Hnode as -> <-. cbv zeta in H.
  apply alloc_bind_Ok_inv in H as (out & nx2 & Hout & H).
  unfold lift, FunctionDAG.at_ in Hout.
  destruct (FunctionDAG.outgoing_edges dag !! FunctionDAG.func node) as [out'|]
    eqn:Hedges; [|discriminate]. injection Hout as -> <-.
  destruct (negb (forallb _ out)); [discriminate|].
  apply alloc_bind_Ok_inv in H as (inl & nx3 & Hinl & H).
  apply alloc_bind_Ok_inv in H as (opts & nx4 & Hopts & H).
  apply alloc_bind_Ok_inv in H as (realized & nx5 & Hreal & H).
  injection H as <- <-.
  assert (Hchild : forall rt c,
    func rt = func (root s) ->
    (forall g, computes (root s) g = true -> computes rt g = true) ->
    make_child dag s (FunctionDAG.func node) rt = Ok c -> scheduled c).
  { intros rt c Hfn Hkeep Hc.
    apply make_child_spec in Hc as (Hnum & Hf & Hfc & Hsame). split.
    - unfold is_root in *. apply bool_decide_eq_true.
      apply bool_decide_eq_true in Hroot. congruence.
    - intros j node' Hj Hnode'. rewrite Hnum in Hj.
      destruct (decide (j = num_funcs_scheduled s)) as [->|Hne].
      + rewrite Hlook in Hnode'. by injection Hnode' as <-.
      + rewrite Hsame. apply Hkeep. apply (Hpre j); [lia|done]. }
  apply Forall_app. split.
  - destruct (bool_decide (out = [])).
    { injection Hinl as <- <-. constructor. }
    apply alloc_bind_Ok_inv in Hinl as (rt & nx6 & Hrt & Hinl).
    apply alloc_bind_Ok_inv in Hinl as (child & nx7 & Hchild' & Hinl).
    injection Hinl as <- <-. constructor; [|constructor].
    unfold lift in Hchild'.
    destruct (make_child dag s _ rt) as [c|] eqn:Hc; [|discriminate].
    injection Hchild' as -> <-.
    unfold inline_func in Hrt.
    erewrite alloc_bind_Ok in Hrt;
      [|unfold lift, FunctionDAG.at_; by rewrite Hedges].
    match type of Hrt with
    | inline_func_in _ _ _ ?nx = _ =>
      destruct (inline_func_in_spec out (FunctionDAG.func node) (root s) nx)
        as (n1 & next1 & Hrun1 & _ & Hcopy & _)
    end.
    rewrite Hrun1 in Hrt. injection Hrt as <- <-.
    eapply Hchild; [| |exact Hc].
    + by inversion Hcopy.
    + intros g Hg. rewrite (inlined_copy_computes _ _ _ _ _ g Hcopy), Hg. done.
  - unfold compute_in_tiles in Hopts.
    apply alloc_bind_Ok_inv in Hopts as (out0 & nx6 & _ & Hopts).
    apply compute_in_tiles_in_adds in Hopts.
    clear Hinl. revert nx4 realized Hreal.
    induction Hopts as [|rt opts (Hfn & Hf & Hkeep) _ IH];
      intros nx4 realized Hreal; cbn [for_each] in Hreal.
    + injection Hreal as <- <-. constructor.
    + apply alloc_bind_Ok_inv in Hreal as (r1 & ny & Hr1 & Hreal).
      apply alloc_bind_Ok_inv in Hreal as (rest & ny' & Hrest & Hreal).
      injection Hreal as <- <-.
      apply alloc_bind_Ok_inv in Hr1 as (child & ny2 & Hchild' & Hr1).
      injection Hr1 as <- <-. cbn [app].
      unfold lift in Hchild'.
      destruct (make_child dag s _ rt) as [c|] eqn:Hc; [|discriminate].
      injection Hchild' as -> <-.
      constructor; [by eapply Hchild|by eapply IH].
Qed.

(** The nodes are in reverse realization order: no function has two
    nodes, and the consumer of every edge has its node before the node of
    the producer. *)
Definition realization_ordered : Prop :=
  NoDup (FunctionDAG.func <$> FunctionDAG.nodes dag) /\
  forall e, e ∈ FunctionDAG.edges dag ->
    exists i j ni nj,
      FunctionDAG.nodes dag !! i = Some ni /\
      FunctionDAG.func ni = FunctionDAG.consumer e /\
      FunctionDAG.nodes dag !! j = Some nj /\
      FunctionDAG.func nj = FunctionDAG.producer e /\ (i < j)%nat.

(** X16. The states of the search keep an invariant: the root of the state
    is the root of a tree that computes the functions scheduled so far. It
    holds of the first state, and of the successors of a state of which it
    holds. When the nodes are in reverse realization order it makes the
    first assertion of [generate_children] hold: the tree computes every
    consumer of the function that is scheduled next. *)
Theorem search_states_scheduled :
  scheduled initial_state /\
  (forall s next cs next',
     scheduled s -> generate_children dag s next = Ok (cs, next') ->
     Forall scheduled cs) /\
  (realization_ordered ->
   forall s node out,
     scheduled s ->
     FunctionDAG.nodes dag !! num_funcs_scheduled s = Some node ->
     FunctionDAG.outgoing_edges dag !! FunctionDAG.func node = Some out ->
     forallb (fun e => computes (root s) (FunctionDAG.consumer e)) out = true).
Proof.
  split; [|split].
  - split; [done|]. cbn. intros j node Hj. lia.
  - intros s next cs next'. apply generate_children_scheduled.
  - intros [Hnodup Horder] s node out [_ Hpre] Hnode Hout.
    apply forallb_forall. intros e He. apply list_elem_of_In in He.
    destruct (outgoing_edges_elem dag _ _ Hout e He) as [Hedge Hprod].
    destruct (Horder e Hedge) as (i & j & ni & nj & Hi & Hfi & Hj & Hfj & Hij).
    assert (j = num_funcs_scheduled s) as ->.
    { eapply NoDup_lookup; [exact Hnodup| |].
      - rewrite list_lookup_fmap, Hj. cbn. by rewrite Hfj, Hprod.
      - by rewrite list_lookup_fmap, Hnode. }
    rewrite <- Hfi. by apply (Hpre i).
Qed.

Lemma expand_invariant (P : State D -> Prop) (pending q : queue) next r next' :
  (forall s nx cs nx', P s -> generate_children dag s nx = Ok (cs, nx') ->
                       Forall P cs) ->
  Forall P pending -> Forall P q ->
  expand dag pending q next = Ok (r, next') ->
  match r with inl s => P s | inr q' => Forall P q' end.
Proof.
  intros Hgen Hp. revert q next.
  induction Hp as [|s pending Hs Hp IH]; intros q next Hq; cbn [expand].
  - by intros [= <- <-].
  - destruct (bool_decide _).
    + by intros [= <- <-].
    + intros H. apply alloc_bind_Ok_inv in H as (cs & nx & Hcs & H).
      eapply IH; [|exact H]. apply pushes_Forall; [|done].
      by eapply Hgen.
Qed.

Lemma search_invariant (P : State D -> Prop) passes beam_size (q : queue) next s :
  (forall s nx cs nx', P s -> generate_children dag s nx = Ok (cs, nx') ->
                       Forall P cs) ->
  Forall P q ->
  search dag passes beam_size q next = Found s -> P s.
Proof.
  intros Hgen. revert q next.
  induction passes as [|passes IH]; intros q next Hq; cbn [search]; [done|].
  destruct (trim beam_size q) as [q1|] eqn:Htrim; [|done].
  assert (Hq1 : Forall P q1).
  { unfold trim in Htrim. destruct (_ >? _); [|by injection Htrim as <-].
    eapply trim_loop_Forall; [exact Hq| |exact Htrim]. constructor. }
  destruct (expand dag q1 [] next) as [[[s'|q'] next']|] eqn:Hex; [| |done].
  - intros [= <-].
    by apply (expand_invariant P q1 [] next (inl s') next' Hgen Hq1) in Hex.
  - apply IH.
    by apply (expand_invariant P q1 [] next (inr q') next' Hgen Hq1) in Hex.
Qed.

Lemma expand_found (pending q : queue) next s next' :
  expand dag pending q next = Ok (inl s, next') ->
  num_funcs_scheduled s = length (FunctionDAG.nodes dag).
Proof.
  revert q next. induction pending as [|s0 pending IH]; intros q next;
    cbn [expand]; [done|].
  destruct (bool_decide _) eqn:Hdone.
  - intros [= <- <-]. by apply bool_decide_eq_true in Hdone.
  - intros H. apply alloc_bind_Ok_inv in H as (cs & nx & _ & H). by eapply IH.
Qed.

Lemma search_found passes beam_size (q : queue) next s :
  search dag passes beam_size q next = Found s ->
  num_funcs_scheduled s = length (FunctionDAG.nodes dag).
Proof.
  revert q next. induction passes as [|passes IH]; intros q next;
    cbn [search]; [done|].
  destruct (trim beam_size q) as [q1|]; [|done].
  destruct (expand dag q1 [] next) as [[[s'|q'] next']|] eqn:Hex; [| |done].
  - intros [= <-]. by eapply expand_found.
  - apply IH.
Qed.

(** X17. The state that the search returns has a root that is the root of a
    tree, and its tree computes every function of the DAG: each is the
    function of a loop or inlined into one. *)
Theorem optimal_schedule_computes_all (passes : nat) (beam_size : Z)
    (s : State D) :
  optimal_schedule dag passes beam_size = Found s ->
  is_root (root s) = true /\
  forall node, node ∈ FunctionDAG.nodes dag ->
    computes (root s) (FunctionDAG.func node) = true.
Proof.
  unfold optimal_schedule. intros H.
  pose proof (search_found _ _ _ _ _ H) as Hnum.
  apply (search_invariant scheduled) in H as [Hroot Hall];
    [|intros ? ? ? ?; apply generate_children_scheduled|].
  - split; [done|]. intros node Hnode.
    apply list_elem_of_lookup in Hnode as [j Hj]. apply (Hall j); [|done].
    rewrite Hnum. by eapply lookup_lt_Some.
  - constructor; [|constructor]. split; [done|]. cbn. intros j node Hj. lia.
Qed.

(** X18. With a beam size of 0 the search never returns: the first pass
    trims the frontier to nothing, and every later pass finds it empty. *)
Theorem optimal_schedule_beam_zero (passes : nat) :
  optimal_schedule dag passes 0 = OutOfPasses.
Proof.
  unfold optimal_schedule. destruct passes as [|passes]; [done|].
  cbn [search]. unfold trim at 1. cbn [length trim_loop Z.to_nat].
  change (Z.of_nat 1 >? 0 mod 2 ^ 64) with true. cbn [expand].
  change ((mret (inr []) : Alloc (State D + queue)) 1%nat)
    with (Ok (inr (@nil (State D)) : State D + queue, 1%nat)).
  cbv iota beta.
  induction passes as [|passes IH]; [done|].
  cbn [search]. unfold trim at 1. cbn [length].
  change (Z.of_nat 0 >? 0 mod 2 ^ 64) with false. cbn [expand].
  exact IH.
Qed.

End SearchInvariant.

(** ** Where the functions are stored *)

Section StorageLevels.
Context {D : Type} {dops : DoubleOps D}.
Variable dag : FunctionDAG D.

(** [n] is a loop of [g], or has one below it. *)
Fixpoint loops_over (n : PartialScheduleNode D) (g : Function) : bool :=
  bool_decide (func n = Some g) ||
  existsb (fun c => loops_over c.2 g) (children n).

(** [n] has a loop of [g] in its body. *)
Definition inside (n : PartialScheduleNode D) (g : Function) : bool :=
  existsb (fun c => loops_over c.2 g) (children n).

(** [g] is in [store_at] at [n] or at a node below it. *)
Fixpoint stores (n : PartialScheduleNode D) (g : Function) : bool :=
  bool_decide (g ∈ store_at n) ||
  existsb (fun c => stores c.2 g) (children n).

(** At [n] and at every node below it, the functions in [store_at] have a
    loop in the body of the node. *)
Fixpoint stored_inside (n : PartialScheduleNode D) : bool :=
  forallb (fun g => existsb (fun c => loops_over c.2 g) (children n))
          (elements (store_at n)) &&
  forallb (fun c => stored_inside c.2) (children n).

Lemma existsb_elem {A} (p : A -> bool) (l : list A) :
  existsb p l = true <-> exists x, x ∈ l /\ p x = true.
Proof.
  rewrite existsb_exists. split; intros (x & Hx & Hp); exists x;
    (split; [by apply list_elem_of_In|done]).
Qed.

Lemma forallb_elem {A} (p : A -> bool) (l : list A) :
  forallb p l = true <-> forall x, x ∈ l -> p x = true.
Proof.
  rewrite forallb_forall. split; intros H x Hx; apply H;
    by apply list_elem_of_In.
Qed.

Lemma loops_over_spec (n : PartialScheduleNode D) g :
  loops_over n g = true <-> func n = Some g \/ inside n g = true.
Proof.
  destruct n; cbn [loops_over]. rewrite orb_true_iff, bool_decide_eq_true.
  done.
Qed.

Lemma inside_spec (n : PartialScheduleNode D) g :
  inside n g = true <-> exists c, c ∈ children n /\ loops_over c.2 g = true.
Proof. apply existsb_elem. Qed.

Lemma stores_spec (n : PartialScheduleNode D) g :
  stores n g = true <->
  g ∈ store_at n \/ exists c, c ∈ children n /\ stores c.2 g = true.
Proof.
  destruct n; cbn [stores]. rewrite orb_true_iff, bool_decide_eq_true.
  by rewrite existsb_elem.
Qed.

Lemma stored_inside_spec (n : PartialScheduleNode D) :
  stored_inside n = true <->
  (forall g, g ∈ store_at n -> inside n g = true) /\
  (forall c, c ∈ children n -> stored_inside c.2 = true).
Proof.
  destruct n; cbn [stored_inside]. rewrite andb_true_iff, !forallb_elem.
  unfold inside. cbn.
  split; intros [H1 H2]; (split; [|done]); intros g Hg; apply H1;
    by apply elem_of_elements.
Qed.

(** [n'] has what [n] has: the loops in its body, the functions stored,
    and no loops of other functions; and it has the functions stored
    inside their loops if [n] has. *)
Definition carries (n n' : PartialScheduleNode D) : Prop :=
  func n' = func n /\
  (forall g, inside n g = true -> inside n' g = true) /\
  (forall g, loops_over n' g = true -> loops_over n g = true) /\
  (forall g, stores n g = true -> stores n' g = true) /\
  (stored_inside n = true -> stored_inside n' = true).

(** [n'] has what [n] has and, in its body, a loop of [f], which it stores
    unless the storage is further out; it has no loops of functions other
    than [f] that [n] does not have. *)
Definition keeps (in_realization : bool) (f : Function)
    (n n' : PartialScheduleNode D) : Prop :=
  func n' = func n /\
  inside n' f = true /\
  (forall g, inside n g = true -> inside n' g = true) /\
  (forall g, loops_over n' g = true -> g = f \/ loops_over n g = true) /\
  (forall g, stores n g = true -> stores n' g = true) /\
  (in_realization = false -> stores n' f = true) /\
  (stored_inside n = true -> stored_inside n' = true).

Lemma carries_keeps ir f (n m r : PartialScheduleNode D) :
  carries n m -> keeps ir f m r -> keeps ir f n r.
Proof.
  intros (C1 & C2 & C3 & C4 & C5) (K1 & K2 & K3 & K4 & K5 & K6 & K7).
  split; [congruence|]. split; [done|]. split; [auto|].
  split; [|split; [auto|split; [done|auto]]].
  intros g Hg. destruct (K4 g Hg) as [->|H]; [by left|right; auto].
Qed.

Lemma keeps_loops ir f (n n' : PartialScheduleNode D) g :
  keeps ir f n n' -> loops_over n g = true -> loops_over n' g = true.
Proof.
  intros (K1 & K2 & K3 & _) Hg. apply loops_over_spec.
  apply loops_over_spec in Hg as [Hg|Hg]; [left; congruence|right; auto].
Qed.

(** A node with one more child, a leaf of [f]. *)
Lemma leaf_keeps f (n : PartialScheduleNode D) cache p leaf :
  func leaf = Some f -> children leaf = [] -> store_at leaf = ∅ ->
  keeps true f n
    (set_children (set_bounds n cache) (children n ++ [(p, leaf)])).
Proof.
  intros Hf Hc Hs.
  assert (Hleaf : forall g, loops_over leaf g = true <-> g = f).
  { intros g. rewrite loops_over_spec, inside_spec, Hf, Hc. split.
    - intros [[= ->]|(c & Hin & _)]; [done|by apply elem_of_nil in Hin].
    - intros ->. by left. }
  split; [done|]. split; [|split; [|split; [|split; [|split]]]].
  - apply inside_spec. exists (p, leaf). split; [|by apply Hleaf].
    cbn. apply elem_of_app. right. apply list_elem_of_here.
  - intros g Hg. apply inside_spec in Hg as (c & Hin & Hg).
    apply inside_spec. exists c. split; [|done]. cbn.
    apply elem_of_app. by left.
  - intros g Hg. apply loops_over_spec in Hg as [Hg|Hg].
    { right. apply loops_over_spec. by left. }
    apply inside_spec in Hg as (c & Hin & Hg). cbn in Hin.
    apply elem_of_app in Hin as [Hin|Hin].
    + right. apply loops_over_spec. right. apply inside_spec. by exists c.
    + apply list_elem_of_singleton in Hin as ->. left. by apply Hleaf.
  - intros g Hg. apply stores_spec in Hg as [Hg|(c & Hin & Hg)];
      apply stores_spec; [by left|]. right. exists c. split; [|done].
    cbn. apply elem_of_app. by left.
  - done.
  - intros Hn. apply stored_inside_spec in Hn as [Hn1 Hn2].
    apply stored_inside_spec. split.
    + intros g Hg. specialize (Hn1 g Hg).
      apply inside_spec in Hn1 as (c & Hin & Hc'). apply inside_spec.
      exists c. split; [|done]. cbn. apply elem_of_app. by left.
    + intros c Hin. cbn in Hin. apply elem_of_app in Hin as [Hin|Hin]; [auto|].
      apply list_elem_of_singleton in Hin as ->. cbn.
      apply stored_inside_spec. rewrite Hs, Hc. split.
      * intros g Hg. by apply elem_of_empty in Hg.
      * intros c Hin. by apply elem_of_nil in Hin.
Qed.

Lemma compute_here_keeps (n r : PartialScheduleNode D) f next next' :
  compute_here dag n f next = Ok (r, next') -> keeps true f n r.
Proof.
  intros H. apply compute_here_shape in H
    as (_ & cache & leaf & -> & Hf & _ & _ & Hc & _ & Hs).
  by apply leaf_keeps.
Qed.

(** Storing [f] at the node, unless the storage is further out. *)
Lemma keeps_placed ir f (n r : PartialScheduleNode D) :
  keeps true f n r ->
  keeps ir f n (if ir then r else set_store_at r ({[f]} ∪ store_at r)).
Proof.
  intros K. destruct ir; [done|].
  destruct K as (K1 & K2 & K3 & K4 & K5 & _ & K7).
  split; [done|]. split; [done|]. split; [done|]. split; [|split; [|split]].
  - intros g Hg. apply K4. apply loops_over_spec in Hg.
    apply loops_over_spec. done.
  - intros g Hg. apply K5 in Hg. apply stores_spec in Hg.
    apply stores_spec. destruct Hg as [Hg|Hg]; [left|by right].
    cbn. apply elem_of_union. by right.
  - intros _. apply stores_spec. left. cbn. apply elem_of_union. left.
    by apply elem_of_singleton.
  - intros Hn. apply K7 in Hn. apply stored_inside_spec in Hn as [H1 H2].
    apply stored_inside_spec. split; [|done].
    intros g Hg. cbn in Hg. apply elem_of_union in Hg as [Hg|Hg].
    + apply elem_of_singleton in Hg as ->. done.
    + by apply H1.
Qed.

Lemma carries_trans (n m r : PartialScheduleNode D) :
  carries n m -> carries m r -> carries n r.
Proof.
  intros (C1 & C2 & C3 & C4 & C5) (E1 & E2 & E3 & E4 & E5).
  split; [congruence|]. repeat split; auto.
Qed.

Lemma carries_same (n m : PartialScheduleNode D) :
  func m = func n -> children m = children n -> store_at m = store_at n ->
  carries n m /\ carries m n.
Proof.
  intros Hf Hc Hs.
  assert (Hin : forall g, inside m g = inside n g)
    by (intros g; unfold inside; by rewrite Hc).
  assert (Hl : forall g, loops_over m g = true <-> loops_over n g = true)
    by (intros g; by rewrite !loops_over_spec, Hf, Hin).
  assert (Hst : forall g, stores m g = true <-> stores n g = true)
    by (intros g; by rewrite !stores_spec, Hs, Hc).
  assert (Hsi : stored_inside m = true <-> stored_inside n = true).
  { rewrite !stored_inside_spec, Hs, Hc.
    split; intros [H1 H2]; (split; [|done]); intros g Hg;
      [rewrite <- Hin|rewrite Hin]; auto. }
  split.
  - split; [done|]. split; [intros g; by rewrite Hin|].
    split; [intros g; apply Hl|]. split; [intros g; apply Hst|apply Hsi].
  - split; [done|]. split; [intros g; by rewrite Hin|].
    split; [intros g; apply Hl|]. split; [intros g; apply Hst|apply Hsi].
Qed.

(** An outer loop of the same function around a node. *)
Lemma wrap_carries (o m : PartialScheduleNode D) p :
  func o = func m -> store_at o = ∅ ->
  carries m (set_children o [(p, m)]).
Proof.
  intros Hf Hs. split; [done|]. split; [|split; [|split]].
  - intros g Hg. apply inside_spec. exists (p, m).
    split; [apply list_elem_of_here|]. apply loops_over_spec. by right.
  - intros g Hg. apply loops_over_spec in Hg as [Hg|Hg].
    + apply loops_over_spec. left. cbn in Hg. congruence.
    + apply inside_spec in Hg as (c & Hin & Hg). cbn in Hin.
      by apply list_elem_of_singleton in Hin as ->.
  - intros g Hg. apply stores_spec. right. exists (p, m).
    split; [apply list_elem_of_here|done].
  - intros Hm. apply stored_inside_spec. cbn. rewrite Hs. split.
    + intros g Hg. by apply elem_of_empty in Hg.
    + intros c Hin. by apply list_elem_of_singleton in Hin as ->.
Qed.

(** The storage at the outer loop of a tiling, the computation in a
    placement [n'] inside the inner loop [m]. *)
Lemma slide_keeps ir f (o m n' : PartialScheduleNode D) pi p :
  func o = func m -> store_at o = ∅ ->
  keeps true f m n' ->
  keeps ir f m
    (set_children
       (set_store_at (set_children o [(pi, m)])
                     ({[f]} ∪ store_at (set_children o [(pi, m)])))
       [(p, set_tileable n' false)]).
Proof.
  intros Hf Hs (K1 & K2 & K3 & K4 & K5 & _ & K7).
  destruct (carries_same n' (set_tileable n' false) eq_refl eq_refl eq_refl)
    as [(_ & T2 & T3 & T4 & T5) _].
  assert (Hin : forall g, loops_over n' g = true ->
            inside (set_children
                      (set_store_at (set_children o [(pi, m)])
                         ({[f]} ∪ store_at (set_children o [(pi, m)])))
                      [(p, set_tileable n' false)]) g = true).
  { intros g Hg. apply inside_spec. exists (p, set_tileable n' false).
    split; [apply list_elem_of_here|]. cbn [snd].
    apply loops_over_spec. apply loops_over_spec in Hg as [Hg|Hg];
      [by left|right; by apply T2]. }
  split; [done|]. split; [|split; [|split; [|split; [|split]]]].
  - apply Hin. apply loops_over_spec. by right.
  - intros g Hg. apply Hin. apply loops_over_spec. right. by apply K3.
  - intros g Hg. apply loops_over_spec in Hg as [Hg|Hg].
    + right. apply loops_over_spec. left. cbn in Hg. congruence.
    + apply inside_spec in Hg as (c & Hc & Hg). cbn in Hc.
      apply list_elem_of_singleton in Hc as ->. cbn [snd] in Hg.
      apply K4. by apply T3.
  - intros g Hg. apply stores_spec. right. exists (p, set_tileable n' false).
    split; [apply list_elem_of_here|]. apply T4. by apply K5.
  - intros _. apply stores_spec. left. cbn. apply elem_of_union. left.
    by apply elem_of_singleton.
  - intros Hm. apply stored_inside_spec. split.
    + intros g Hg. cbn in Hg. rewrite Hs in Hg.
      apply elem_of_union in Hg as [Hg|Hg]; [|by apply elem_of_empty in Hg].
      apply elem_of_singleton in Hg as ->. apply Hin.
      apply loops_over_spec. by right.
    + intros c Hc. cbn in Hc. apply list_elem_of_singleton in Hc as ->.
      cbn [snd]. apply T5. by apply K7.
Qed.

(** A placement [n'] of [f] in the child [c] in the place of the child,
    the storage at the node or not. *)
Lemma push_keeps ir ir' f (n : PartialScheduleNode D) child c n' p
    (store_here : bool) :
  children n !! child = Some c ->
  keeps ir' f c.2 n' ->
  (store_here = false -> ir' = false) ->
  let r := if store_here then set_store_at n ({[f]} ∪ store_at n) else n in
  keeps ir f n (set_children r (<[child := (p, n')]> (children r))).
Proof.
  intros Hc K Hir r.
  pose proof (fun g => keeps_loops _ _ _ _ g K) as Kl.
  destruct K as (K1 & K2 & K3 & K4 & K5 & K6 & K7).
  assert (Hr : func r = func n /\ children r = children n /\
               (forall g, g ∈ store_at r ->
                  (store_here = true /\ g = f) \/ g ∈ store_at n) /\
               (forall g, g ∈ store_at n -> g ∈ store_at r) /\
               (store_here = true -> f ∈ store_at r)).
  { unfold r. destruct store_here; cbn.
    - split; [done|]. split; [done|]. split; [|split].
      + intros g Hg. apply elem_of_union in Hg as [Hg|Hg]; [|by right].
        apply elem_of_singleton in Hg. by left.
      + intros g Hg. apply elem_of_union. by right.
      + intros _. apply elem_of_union. left. by apply elem_of_singleton.
    - split; [done|]. split; [done|]. split; [by right|]. done. }
  destruct Hr as (Hrf & Hrc & Hrs & Hrs' & Hrf').
  set (r' := set_children r (<[child := (p, n')]> (children r))).
  assert (Hch : children r' = <[child := (p, n')]> (children n))
    by (unfold r'; cbn; by rewrite Hrc).
  assert (Hlt : (child < length (children n))%nat)
    by (by eapply lookup_lt_Some).
  assert (Hnew : (p, n') ∈ children r').
  { rewrite Hch. apply list_elem_of_lookup. exists child.
    by apply list_lookup_insert_eq. }
  assert (Hold : forall c', c' ∈ children n ->
            c' = c \/ c' ∈ children r').
  { intros c' Hc'. apply list_elem_of_lookup in Hc' as (j & Hj).
    destruct (decide (j = child)) as [->|Hne]; [left; congruence|].
    right. rewrite Hch. apply list_elem_of_lookup. exists j.
    by rewrite list_lookup_insert_ne. }
  assert (Hback : forall c', c' ∈ children r' ->
            c' = (p, n') \/ c' ∈ children n).
  { intros c' Hc'. rewrite Hch in Hc'.
    apply list_elem_of_lookup in Hc' as (j & Hj).
    apply list_lookup_insert_Some in Hj as [(-> & <- & _)|(_ & Hj)];
      [by left|]. right. apply list_elem_of_lookup. by exists j. }
  assert (Hmono : forall g, inside n g = true -> inside r' g = true).
  { intros g Hg. apply inside_spec in Hg as (c' & Hc' & Hg).
    apply inside_spec. destruct (Hold c' Hc') as [->|Hin].
    - exists (p, n'). split; [done|]. by apply Kl.
    - by exists c'. }
  assert (Hf : inside r' f = true).
  { apply inside_spec. exists (p, n'). split; [done|].
    apply loops_over_spec. by right. }
  split; [by rewrite <- Hrf|]. split; [done|]. split; [done|].
  split; [|split; [|split]].
  - intros g Hg. apply loops_over_spec in Hg as [Hg|Hg].
    { right. apply loops_over_spec. left. unfold r' in Hg. cbn in Hg.
      congruence. }
    apply inside_spec in Hg as (c' & Hc' & Hg).
    destruct (Hback c' Hc') as [->|Hin].
    + destruct (K4 g Hg) as [->|Hcg]; [by left|]. right.
      apply loops_over_spec. right. apply inside_spec. exists c.
      split; [|done]. apply list_elem_of_lookup. by exists child.
    + right. apply loops_over_spec. right. apply inside_spec. by exists c'.
  - intros g Hg. apply stores_spec. apply stores_spec in Hg as [Hg|Hg].
    + left. unfold r'. cbn. by apply Hrs'.
    + right. destruct Hg as (c' & Hc' & Hg).
      destruct (Hold c' Hc') as [->|Hin].
      * exists (p, n'). split; [done|]. by apply K5.
      * by exists c'.
  - intros _. apply stores_spec. destruct store_here.
    + left. unfold r'. cbn. by apply Hrf'.
    + right. exists (p, n'). split; [done|]. apply K6. by apply Hir.
  - intros Hn. apply stored_inside_spec in Hn as [Hn1 Hn2].
    apply stored_inside_spec. split.
    + intros g Hg. unfold r' in Hg. cbn in Hg.
      destruct (Hrs g Hg) as [[_ ->]|Hg']; [done|]. apply Hmono. by apply Hn1.
    + intros c' Hc'. destruct (Hback c' Hc') as [->|Hin]; [|by apply Hn2].
      apply K7. apply Hn2. apply list_elem_of_lookup. by exists child.
Qed.

Lemma tile_node_shape (n parent outer inner : PartialScheduleNode D) t :
  tile_node dag n parent t = Ok (outer, inner) ->
  func inner = func n /\ children inner = children n /\
  store_at inner = store_at n /\ func outer = func n /\ store_at outer = ∅.
Proof.
  unfold tile_node. intros Ht.
  apply bind_Ok_inv in Ht as (fn & _ & Ht).
  apply bind_Ok_inv in Ht as (own & _ & Ht).
  apply bind_Ok_inv in Ht as ([pb pn] & _ & Ht).
  apply bind_Ok_inv in Ht as ([[isz osz] reg] & _ & Ht).
  by injection Ht as <- <-.
Qed.

(** One unfolding of [compute_in_tiles] keeps the storage, when the calls
    on the children and on the inner loop do. *)
Lemma compute_in_tiles_step_keeps out f on_inner recs
    (n : PartialScheduleNode D) parent in_realization next l next' :
  length recs = length (children n) ->
  (forall i rec c par ir nx lx nx',
     recs !! i = Some rec -> children n !! i = Some c ->
     rec par ir nx = Ok (lx, nx') -> Forall (keeps ir f c.2) lx) ->
  (forall inner sah nx lx nx',
     func inner = func n -> children inner = children n ->
     store_at inner = store_at n ->
     on_inner inner sah nx = Ok (lx, nx') -> Forall (keeps true f inner) lx) ->
  compute_in_tiles_step dag out f on_inner recs n parent in_realization next
    = Ok (l, next') ->
  Forall (keeps in_realization f n) l.
Proof.
  intros Hlen Hrecs Hinner. unfold compute_in_tiles_step. intros H.
  apply alloc_bind_Ok_inv in H as (r & next1 & Hr & H).
  apply compute_here_keeps in Hr.
  apply (keeps_placed in_realization) in Hr.
  destruct (bool_decide (out = [])).
  { injection H as <- <-. constructor; [exact Hr|constructor]. }
  apply alloc_bind_Ok_inv in H as (tiled & next2 & Htiled & H).
  apply alloc_bind_Ok_inv in H as (pushed & next3 & Hpushed & H).
  injection H as <- <-.
  constructor; [exact Hr|]. apply Forall_app. split.
  - (* the tilings *)
    destruct (tileable n); [|injection Htiled as <- <-; constructor].
    apply alloc_bind_Ok_inv in Htiled as (tilings & next4 & _ & Htiled).
    eapply for_each_Forall; [|exact Htiled].
    intros t nx rx nx' _ Hbody. cbv beta in Hbody.
    apply alloc_bind_Ok_inv in Hbody as (par & nx1 & _ & Hbody).
    destruct (is_root par && (tiling_total t <? 16)).
    { injection Hbody as <- <-. constructor. }
    apply alloc_bind_Ok_inv in Hbody as (p_inner & nx2 & _ & Hbody).
    apply alloc_bind_Ok_inv in Hbody as ([outer inner] & nx3 & Htile & Hbody).
    unfold lift in Htile.
    destruct (tile_node dag n par t) as [[outer' inner']|] eqn:Ht; [|discriminate].
    injection Htile as -> -> <-.
    apply tile_node_shape in Ht as (Hif & Hic & His & Hof & Hos).
    destruct (carries_same n inner Hif Hic His) as [Hni _].
    pose proof (wrap_carries outer inner p_inner (eq_trans Hof (eq_sym Hif)) Hos)
      as Hwrap.
    pose proof (carries_trans _ _ _ Hni Hwrap) as Hno.
    apply alloc_bind_Ok_inv in Hbody as (cah & nx4 & Hcah & Hbody).
    apply compute_here_keeps in Hcah.
    apply (keeps_placed in_realization) in Hcah.
    apply (carries_keeps _ _ _ _ _ Hno) in Hcah.
    destruct in_realization.
    { injection Hbody as <- <-. constructor; [exact Hcah|constructor]. }
    apply alloc_bind_Ok_inv in Hbody as (v & nx5 & Hv & Hbody).
    apply alloc_bind_Ok_inv in Hbody as (slid & nx6 & Hslid & Hbody).
    injection Hbody as <- <-. constructor; [exact Hcah|].
    apply (Hinner _ _ _ _ _ Hif Hic His) in Hv.
    eapply for_each_Forall; [|exact Hslid].
    intros n' ny ry ny' Hn' Hbody'. cbv beta in Hbody'.
    apply alloc_bind_Ok_inv in Hbody' as (p & ny1 & _ & Hbody').
    injection Hbody' as <- <-. constructor; [|constructor].
    rewrite Forall_forall in Hv. specialize (Hv _ Hn').
    apply (carries_keeps _ _ _ _ _ Hni).
    apply slide_keeps; [congruence|done|done].
  - (* pushed into the one child that calls [f] *)
    destruct (last (calling_children out n)) as [child|];
      [|injection Hpushed as <- <-; constructor].
    destruct (bool_decide (length (calling_children out n) = 1%nat));
      [|injection Hpushed as <- <-; constructor].
    eapply for_each_Forall; [|exact Hpushed].
    intros store_here nx rx nx' _ Hbody. cbv beta in Hbody.
    destruct (store_here && (in_realization || is_root n)).
    { injection Hbody as <- <-. constructor. }
    apply alloc_bind_Ok_inv in Hbody as (rec & nx1 & Hrec & Hbody).
    apply alloc_bind_Ok_inv in Hbody as (v & nx2 & Hv & Hbody).
    unfold lift in Hrec. destruct (recs !! child) as [rec'|] eqn:Hlook;
      [|discriminate]. injection Hrec as -> <-.
    destruct (lookup_lt_is_Some_2 (children n) child) as [c Hc].
    { rewrite <- Hlen. by eapply lookup_lt_Some. }
    pose proof (Hrecs _ _ _ _ _ _ _ _ Hlook Hc Hv) as Hall.
    eapply for_each_Forall; [|exact Hbody].
    intros n' ny ry ny' Hn' Hbody'.
    apply alloc_bind_Ok_inv in Hbody' as (p & ny1 & _ & Hbody').
    cbv beta zeta in Hbody'.
    injection Hbody' as <- <-. constructor; [|constructor].
    rewrite Forall_forall in Hall. specialize (Hall _ Hn').
    by apply (push_keeps in_realization store_here f n child c n' p store_here).
Qed.

Lemma compute_in_tiles_in_keeps out f (n : PartialScheduleNode D) :
  forall parent in_realization next l next',
  compute_in_tiles_in dag out f n parent in_realization next = Ok (l, next') ->
  Forall (keeps in_realization f n) l.
Proof.
  induction n as [n IH] using PartialScheduleNode_ind'.
  intros parent in_realization next l next'.
  rewrite compute_in_tiles_in_unfold. cbv zeta.
  assert (Hrecs : forall n0 : PartialScheduleNode D,
    children n0 = children n ->
    forall i rec c par ir nx lx nx',
      map (fun c => compute_in_tiles_in dag out f c.2) (children n) !! i
        = Some rec ->
      children n0 !! i = Some c ->
      rec par ir nx = Ok (lx, nx') -> Forall (keeps ir f c.2) lx).
  { intros n0 Hn0 i rec c par ir nx lx nx' Hrec Hc. rewrite Hn0 in Hc.
    change (map ?g ?l) with (g <$> l) in Hrec.
    rewrite list_lookup_fmap, Hc in Hrec. injection Hrec as <-.
    rewrite Forall_forall in IH. apply IH.
    apply list_elem_of_lookup. by exists i. }
  apply compute_in_tiles_step_keeps.
  - by rewrite length_map.
  - by apply Hrecs.
  - intros inner sah nx lx nx' Hfn Hch Hst Hrun.
    eapply (compute_in_tiles_step_keeps out f _ _ inner); [| | |exact Hrun].
    + by rewrite length_map, Hch.
    + by apply Hrecs.
    + intros ? ? ? ? ? _ _ _ [= <- <-]. constructor.
Qed.

(** X26. Every placement that [compute_in_tiles] returns for [f] has a
    loop of [f] in the body of the node and keeps the loops that the body
    had; it has no loops of other functions than the tree had before; it
    stores what the tree stored, and stores [f] at some node unless the
    storage is further out; and when every function stored at a node of the
    tree had a loop in the body of that node, the same holds of the
    placement. *)
Theorem compute_in_tiles_storage (n : PartialScheduleNode D) (f : Function)
    (parent : option (PartialScheduleNode D)) (in_realization : bool)
    (next next' : ptr) (l : list (PartialScheduleNode D)) :
  compute_in_tiles dag n f parent in_realization next = Ok (l, next') ->
  Forall (fun n' : PartialScheduleNode D =>
            inside n' f = true /\
            (forall g, inside n g = true -> inside n' g = true) /\
            (forall g, loops_over n' g = true -> g = f \/ loops_over n g = true) /\
            (forall g, stores n g = true -> stores n' g = true) /\
            (in_realization = false -> stores n' f = true) /\
            (stored_inside n = true -> stored_inside n' = true)) l.
Proof.
  unfold compute_in_tiles. intros H.
  apply alloc_bind_Ok_inv in H as (out & next1 & _ & H).
  apply compute_in_tiles_in_keeps in H.
  eapply Forall_impl; [exact H|]. by intros n' (_ & K).
Qed.

Lemma existsb_Forall2 {A} (p p' : A -> bool) (l l' : list A) :
  Forall2 (fun x x' => p' x' = p x) l l' -> existsb p' l' = existsb p l.
Proof. induction 1 as [|x x' l l' Hx _ IH]; [done|]. cbn. by rewrite Hx, IH. Qed.

Lemma forallb_Forall2 {A} (p p' : A -> bool) (l l' : list A) :
  Forall2 (fun x x' => p' x' = p x) l l' -> forallb p' l' = forallb p l.
Proof. induction 1 as [|x x' l l' Hx _ IH]; [done|]. cbn. by rewrite Hx, IH. Qed.

Lemma forallb_pointwise {A} (p q : A -> bool) (l : list A) :
  (forall x, p x = q x) -> forallb p l = forallb q l.
Proof. intros H. induction l as [|x l IH]; [done|]. cbn. by rewrite H, IH. Qed.

Lemma loops_over_unfold (n : PartialScheduleNode D) g :
  loops_over n g =
  bool_decide (func n = Some g) ||
  existsb (fun c => loops_over c.2 g) (children n).
Proof. destruct n; reflexivity. Qed.

Lemma stores_unfold (n : PartialScheduleNode D) g :
  stores n g =
  bool_decide (g ∈ store_at n) || existsb (fun c => stores c.2 g) (children n).
Proof. destruct n; reflexivity. Qed.

Lemma stored_inside_unfold (n : PartialScheduleNode D) :
  stored_inside n =
  forallb (fun g => existsb (fun c => loops_over c.2 g) (children n))
          (elements (store_at n)) &&
  forallb (fun c => stored_inside c.2) (children n).
Proof. destruct n; reflexivity. Qed.

(** Inlining leaves the loops and the storage as they are. *)
Lemma inlined_copy_storage out f lo (n n' : PartialScheduleNode D) :
  inlined_copy out f lo n n' ->
  (forall g, loops_over n' g = loops_over n g) /\
  (forall g, stores n' g = stores n g) /\
  stored_inside n' = stored_inside n.
Proof.
  revert n'. induction n as [n IH] using PartialScheduleNode_ind'.
  intros n' H. inversion H as [? ? H1 H2 H3 H4 H5 H6 H7 Hcs]; subst.
  assert (Hkids : Forall2 (fun c c' : ptr * PartialScheduleNode D =>
            (forall g, loops_over c'.2 g = loops_over c.2 g) /\
            (forall g, stores c'.2 g = stores c.2 g) /\
            stored_inside c'.2 = stored_inside c.2)
          (children n) (children n')).
  { clear -IH Hcs. induction Hcs as [|c c' cs cs' [Hc1 Hc2] Hcs IHcs];
      [constructor|].
    inversion IH as [|? ? IHc IHrest]; subst.
    constructor; [|by apply IHcs].
    destruct (calls_in out c.2) eqn:Hcalls.
    - destruct (Hc1 eq_refl) as [_ Hcopy]. by apply IHc.
    - by rewrite (Hc2 eq_refl). }
  assert (Hl : forall g,
            existsb (fun c => loops_over c.2 g) (children n') =
            existsb (fun c => loops_over c.2 g) (children n)).
  { intros g. apply existsb_Forall2.
    eapply Forall2_impl; [exact Hkids|]. by intros c c' (-> & _). }
  split; [|split].
  - intros g. by rewrite (loops_over_unfold n'), (loops_over_unfold n), H1, Hl.
  - intros g. rewrite (stores_unfold n'), (stores_unfold n), H5. f_equal.
    apply existsb_Forall2.
    eapply Forall2_impl; [exact Hkids|]. by intros c c' (_ & -> & _).
  - rewrite (stored_inside_unfold n'), (stored_inside_unfold n), H5. f_equal.
    + apply forallb_pointwise. intros g. apply Hl.
    + apply forallb_Forall2.
      eapply Forall2_impl; [exact Hkids|]. by intros c c' (_ & _ & ->).
Qed.

(** Every function stored at a node of the tree of the state has a loop in
    the body of that node, and every function that has a loop is stored at
    a node. *)
Definition storage_sound (s : State D) : Prop :=
  stored_inside (root s) = true /\
  forall g, inside (root s) g = true -> stores (root s) g = true.

Lemma make_child_root (s c : State D) f rt :
  make_child dag s f rt = Ok c -> exists cache, root c = set_bounds rt cache.
Proof.
  unfold make_child. intros H. apply bind_Ok_inv in H as (c0 & Hc0 & H).
  destruct (computes (root c0) f); [|discriminate]. injection H as <-.
  apply calculate_cost_frame in Hc0 as (_ & Hc0 & _).
  by exists (bounds (root c0)).
Qed.

Lemma generate_children_storage (s : State D) next cs next' :
  is_root (root s) = true -> storage_sound s ->
  generate_children dag s next = Ok (cs, next') ->
  Forall storage_sound cs.
Proof.
  intros Hroot [Hsi Hst]. unfold generate_children. rewrite Hroot. cbn [negb].
  destruct (bool_decide (num_funcs_scheduled s = length (FunctionDAG.nodes dag))).
  { intros [= <- <-]. constructor. }
  intros H. apply alloc_bind_Ok_inv in H as (node & nx1 & _ & H).
  cbv zeta in H.
  apply alloc_bind_Ok_inv in H as (out & nx2 & Hout & H).
  unfold lift, FunctionDAG.at_ in Hout.
  destruct (FunctionDAG.outgoing_edges dag !! FunctionDAG.func node) as [out'|]
    eqn:Hedges; [|discriminate]. injection Hout as -> <-.
  destruct (negb (forallb _ out)); [discriminate|].
  apply alloc_bind_Ok_inv in H as (inl & nx3 & Hinl & H).
  apply alloc_bind_Ok_inv in H as (opts & nx4 & Hopts & H).
  apply alloc_bind_Ok_inv in H as (realized & nx5 & Hreal & H).
  injection H as <- <-.
  assert (Hchild : forall rt c,
    stored_inside rt = true ->
    (forall g, inside rt g = true -> stores rt g = true) ->
    make_child dag s (FunctionDAG.func node) rt = Ok c -> storage_sound c).
  { intros rt c Hrt1 Hrt2 Hc. apply make_child_root in Hc as [cache Hc].
    unfold storage_sound. rewrite Hc.
    destruct (carries_same rt (set_bounds rt cache) eq_refl eq_refl eq_refl)
      as [(_ & _ & _ & C4 & C5) (_ & E2 & _)].
    split; [by apply C5|]. intros g Hg. apply C4, Hrt2, E2, Hg. }
  apply Forall_app. split.
  - destruct (bool_decide (out = [])).
    { injection Hinl as <- <-. constructor. }
    apply alloc_bind_Ok_inv in Hinl as (rt & nx6 & Hrt & Hinl).
    apply alloc_bind_Ok_inv in Hinl as (child & nx7 & Hchild' & Hinl).
    injection Hinl as <- <-. constructor; [|constructor].
    unfold lift in Hchild'.
    destruct (make_child dag s _ rt) as [c|] eqn:Hc; [|discriminate].
    injection Hchild' as -> <-.
    unfold inline_func in Hrt.
    erewrite alloc_bind_Ok in Hrt;
      [|unfold lift, FunctionDAG.at_; by rewrite Hedges].
    match type of Hrt with
    | inline_func_in _ _ _ ?nx = _ =>
      destruct (inline_func_in_spec out (FunctionDAG.func node) (root s) nx)
        as (n1 & next1 & Hrun1 & _ & Hcopy & _)
    end.
    rewrite Hrun1 in Hrt. injection Hrt as <- <-.
    pose proof Hcopy as Hfn. inversion Hfn as [? ? Hfunc _ _ _ _ _ _ Hkids]; subst.
    apply inlined_copy_storage in Hcopy as (Hl & Hs & Hi).
    assert (Hin : forall g, inside n1 g = inside (root s) g).
    { intros g. pose proof (Hl g) as Hg.
      rewrite (loops_over_unfold n1), (loops_over_unfold (root s)), Hfunc in Hg.
      apply bool_decide_eq_true in Hroot. rewrite Hroot in Hg.
      rewrite !(bool_decide_eq_false_2 (None = Some g)) in Hg by done.
      exact Hg. }
    eapply Hchild; [| |exact Hc].
    + by rewrite Hi.
    + intros g. rewrite Hin, Hs. apply Hst.
  - unfold compute_in_tiles in Hopts.
    apply alloc_bind_Ok_inv in Hopts as (out0 & nx6 & _ & Hopts).
    apply compute_in_tiles_in_keeps in Hopts.
    eapply for_each_Forall; [|exact Hreal].
    intros rt nx rx nx' Hrt Hbody. cbv beta in Hbody.
    apply alloc_bind_Ok_inv in Hbody as (child & ny & Hchild' & Hbody).
    injection Hbody as <- <-. constructor; [|constructor].
    unfold lift in Hchild'.
    destruct (make_child dag s _ rt) as [c|] eqn:Hc; [|discriminate].
    injection Hchild' as -> <-.
    rewrite Forall_forall in Hopts.
    destruct (Hopts _ Hrt) as (K1 & K2 & K3 & K4 & K5 & K6 & K7).
    eapply Hchild; [by apply K7| |exact Hc].
    intros g Hg.
    assert (Hl : loops_over rt g = true) by (apply loops_over_spec; by right).
    destruct (K4 g Hl) as [->|Hg']; [by apply K6|].
    apply K5, Hst. apply loops_over_spec in Hg' as [Hg'|Hg']; [|done].
    apply bool_decide_eq_true in Hroot. congruence.
Qed.

(** X27. In the schedule that the search returns, every function stored at
    a node, the root or a loop, has a loop in the body of that node, and
    every function that has a loop is stored at a node. *)
Theorem optimal_schedule_storage (passes : nat) (beam_size : Z) (s : State D) :
  optimal_schedule dag passes beam_size = Found s ->
  stored_inside (root s) = true /\
  forall g, inside (root s) g = true -> stores (root s) g = true.
Proof.
  unfold optimal_schedule. intros H.
  apply (search_invariant dag
           (fun s => scheduled dag s /\ storage_sound s)) in H as [_ H];
    [exact H| |].
  - intros s0 nx cs nx' [Hsch Hsto] Hgen.
    pose proof (generate_children_scheduled dag _ _ _ _ Hsch Hgen) as H1.
    pose proof (generate_children_storage _ _ _ _ (proj1 Hsch) Hsto Hgen) as H2.
    apply Forall_forall. intros c Hc. rewrite Forall_forall in H1, H2. auto.
  - constructor; [|constructor]. split.
    + split; [done|]. cbn. intros j node Hj. lia.
    + split; [done|]. cbn. done.
Qed.

End StorageLevels.

(** ** The calls that [apply] makes *)

Section ApplyUnfold.
Context {D : Type} {dops : DoubleOps D} {dceil : DoubleCeil D}.
Variable dag : FunctionDAG D.

(** The loop of [apply] over the children. *)
Fixpoint apply_children (placed : Function -> option directive)
    (here : LoopLevel) (num_cores : D)
    (cs : list (ptr * PartialScheduleNode D)) (st : schedule_state)
    : Res schedule_state :=
  match cs with
  | [] => Ok st
  | c :: cs' =>
    cf ← res_of_option Undefined (func c.2);
    let st := match placed cf with
              | Some d => (st.1, st.2 ++ [d])
              | None => st
              end in
    st ← apply dag c.2 here num_cores st;
    apply_children placed here num_cores cs' st
  end.

Lemma apply_unfold (n : PartialScheduleNode D) (here : LoopLevel)
    (num_cores : D) (st : schedule_state) :
  apply dag n here num_cores st =
  match func n with
  | None =>
    apply_children (fun cf => Some (ComputeRoot cf)) LevelRoot num_cores
                   (children n) st
  | Some fn =>
    let '(vars_map, tr) := st in
    let vars := default [] (vars_map !! fn) in
    let vars := if bool_decide (vars = []) then Function.args fn else vars in
    '(here, vars, num_cores, tr) ←
      (if innermost n then
         '(here, tr) ← apply_innermost fn (size n) vars num_cores tr;
         Ok (here, vars, num_cores, tr)
       else apply_tiled dag n fn vars num_cores tr);
    let vars_map := <[fn := vars]> vars_map in
    let tr :=
      fold_left (fun tr f => tr ++ [StoreAt f here]) (elements (store_at n)) tr in
    apply_children (fun cf => if bool_decide (cf = fn) then None
                              else Some (ComputeAt cf here))
                   here num_cores (children n) (vars_map, tr)
  end.
Proof. destruct n; reflexivity. Qed.

(** The calls that a node makes for its own loop. *)
Definition local_call (m : PartialScheduleNode D) (d : directive) : Prop :=
  match d with
  | ComputeRoot cf =>
    func m = None /\ exists c, c ∈ children m /\ func c.2 = Some cf
  | Vectorize f v k =>
    func m = Some f /\ innermost m = true /\
    exists s0, size m !! 0%nat = Some s0 /\
               (k = 4 \/ k = 8 \/ k = 16) /\ k <= s0 /\ (s0 < 2 * k \/ k = 16)
  | Unroll f v =>
    func m = Some f /\ innermost m = true /\
    exists s0, size m !! 0%nat = Some s0 /\ s0 <= 32
  | Parallel f v ts => func m = Some f
  | Split f old outer inner k =>
    func m = Some f /\ innermost m = false /\
    outer = old +:+ "o" /\ inner = old +:+ "i"
  | Fuse f inner outer fused =>
    func m = Some f /\ innermost m = false /\ fused = inner +:+ "_" +:+ outer
  | StoreAt g level =>
    exists f v, level = LevelAt f v /\ func m = Some f /\ g ∈ store_at m
  | ComputeAt g level =>
    exists f v, level = LevelAt f v /\ func m = Some f /\ g <> f /\
                exists c, c ∈ children m /\ func c.2 = Some g
  | Reorder _ _ => False
  end.

(** [node_of m n]: [m] is a node of the tree [n]. *)
Inductive node_of (m : PartialScheduleNode D) : PartialScheduleNode D -> Prop :=
| node_self : node_of m m
| node_child c n : c ∈ children n -> node_of m c.2 -> node_of m n.

(** The calls that the nodes of a tree make. *)
Definition calls_of (n : PartialScheduleNode D) (d : directive) : Prop :=
  exists m, node_of m n /\ local_call m d.

Lemma calls_here m d : local_call m d -> calls_of m d.
Proof. intros H. exists m. split; [constructor|done]. Qed.

Lemma calls_below m c d : c ∈ children m -> calls_of c.2 d -> calls_of m d.
Proof.
  intros Hc (m' & Hm' & Hd). exists m'. split; [|done].
  by eapply node_child.
Qed.

Definition is_parallel (d : directive) : bool :=
  match d with
  | Parallel _ _ _ | Fuse _ _ _ _ => true
  | _ => false
  end.

(** [tr'] is [tr] followed by calls that satisfy [P]. *)
Definition extends (P : directive -> Prop) (tr tr' : list directive) : Prop :=
  exists suf, tr' = tr ++ suf /\ Forall P suf.

Lemma extends_refl P tr : extends P tr tr.
Proof. exists []. by rewrite app_nil_r. Qed.

Lemma extends_snoc (P : directive -> Prop) tr d : P d -> extends P tr (tr ++ [d]).
Proof. intros Hd. exists [d]. split; [done|]. by constructor. Qed.

Lemma extends_trans P tr1 tr2 tr3 :
  extends P tr1 tr2 -> extends P tr2 tr3 -> extends P tr1 tr3.
Proof.
  intros (s1 & -> & H1) (s2 & -> & H2). exists (s1 ++ s2).
  split; [by rewrite app_assoc|]. by apply Forall_app.
Qed.

Lemma extends_impl (P Q : directive -> Prop) tr tr' :
  (forall d, P d -> Q d) -> extends P tr tr' -> extends Q tr tr'.
Proof.
  intros HPQ (suf & -> & H). exists suf. split; [done|].
  by eapply Forall_impl.
Qed.

Lemma apply_innermost_calls (n : PartialScheduleNode D) fn vars num_cores
    tr here tr' :
  func n = Some fn -> innermost n = true ->
  apply_innermost fn (size n) vars num_cores tr = Ok (here, tr') ->
  (exists v, here = LevelAt fn v) /\
  extends (fun d => local_call n d /\
                    (several num_cores = false -> is_parallel d = false))
          tr tr'.
Proof.
  intros Hfn Hin. unfold apply_innermost. intros H.
  apply bind_Ok_inv in H as (v & Hv & H).
  apply bind_Ok_inv in H as (s0 & Hs0 & H).
  destruct (size n !! 0%nat) as [s0'|] eqn:Hsz; [|discriminate].
  injection Hs0 as ->.
  apply bind_Ok_inv in H as (tr3 & Htr3 & H). injection H as <- <-.
  split; [by exists v|].
  set (P := fun d => local_call n d /\
                     (several num_cores = false -> is_parallel d = false)).
  assert (H1 : extends P tr
    (if 16 <=? s0 then tr ++ [Vectorize fn v 16]
     else if 8 <=? s0 then tr ++ [Vectorize fn v 8]
     else if 4 <=? s0 then tr ++ [Vectorize fn v 4] else tr)).
  { destruct (16 <=? s0) eqn:E16; [|destruct (8 <=? s0) eqn:E8;
      [|destruct (4 <=? s0) eqn:E4]]; try apply extends_refl;
      apply extends_snoc; (split; [|done]); cbn;
      (split; [done|split; [done|]]); exists s0; (split; [done|]); lia. }
  eapply extends_trans; [exact H1|].
  match type of Htr3 with
  | (if several _ then _ else _) ≫= _ = _ => idtac
  | (if several _ then _ else Ok ?t) = _ => set (tr2 := t) in *
  end.
  assert (H2 : extends P
    (if 16 <=? s0 then tr ++ [Vectorize fn v 16]
     else if 8 <=? s0 then tr ++ [Vectorize fn v 8]
     else if 4 <=? s0 then tr ++ [Vectorize fn v 4] else tr) tr2).
  { unfold tr2.
    destruct (Z.of_nat (Function.dimensions fn) <? _); [|apply extends_refl].
    destruct (s0 <=? 32) eqn:E32; [|apply extends_refl].
    apply extends_snoc. split; [|done]. cbn.
    split; [done|split; [done|]]. exists s0. split; [done|]. lia. }
  eapply extends_trans; [exact H2|].
  destruct (several num_cores) eqn:Hsev.
  - apply bind_Ok_inv in Htr3 as (back & _ & Htr3).
    apply bind_Ok_inv in Htr3 as (pv & _ & Htr3).
    destruct (d_ltb _ _).
    + apply bind_Ok_inv in Htr3 as (ts & _ & Htr3). injection Htr3 as <-.
      apply extends_snoc. split; [done|]. done.
    + injection Htr3 as <-. apply extends_snoc. split; [done|]. done.
  - injection Htr3 as <-. apply extends_refl.
Qed.

Lemma implied_splits_calls (P : directive -> Prop) fn reg i vars new_inner tr
    vars' new_inner' tr' :
  (forall old k, P (Split fn old (old +:+ "o") (old +:+ "i") k)) ->
  implied_splits fn reg i vars new_inner tr = Ok (vars', new_inner', tr') ->
  extends P tr tr' /\ length vars' = length vars /\
  length new_inner' = (length new_inner + length reg)%nat.
Proof.
  intros HP. revert i vars new_inner tr.
  induction reg as [|p reg IH]; intros i vars new_inner tr;
    cbn [implied_splits].
  - intros [= <- <- <-]. split; [apply extends_refl|]. cbn. lia.
  - intros H. apply bind_Ok_inv in H as (old & _ & H).
    apply IH in H as (Hext & Hlen & Hlen').
    split; [|split].
    + eapply extends_trans; [|exact Hext]. by apply extends_snoc.
    + by rewrite Hlen, length_insert.
    + rewrite Hlen', length_app. cbn. lia.
Qed.

Lemma parallelize_outer_calls (P : directive -> Prop) fn sz vars k
    num_cores count ipd tr num_cores' count' ipd' tr' :
  (forall v, P (Parallel fn v None)) ->
  parallelize_outer fn sz vars k (num_cores, count, ipd, tr)
    = Ok (num_cores', count', ipd', tr') ->
  extends P tr tr'.
Proof.
  intros HP. revert num_cores count ipd tr.
  induction k as [|i IH]; intros num_cores count ipd tr;
    cbn [parallelize_outer].
  - intros [= <- <- <- <-]. apply extends_refl.
  - destruct (several num_cores).
    + intros H. apply bind_Ok_inv in H as (v & _ & H).
      apply bind_Ok_inv in H as (s & _ & H). apply IH in H.
      eapply extends_trans; [|exact H]. by apply extends_snoc.
    + intros [= <- <- <- <-]. apply extends_refl.
Qed.

Lemma fuse_parallel_calls (P : directive -> Prop) fn k ipd vars tr vars' tr' :
  (forall inner outer, P (Fuse fn inner outer (inner +:+ "_" +:+ outer))) ->
  fuse_parallel fn k ipd vars tr = Ok (vars', tr') ->
  extends P tr tr'.
Proof.
  intros HP. revert vars tr.
  induction k as [|k IH]; intros vars tr; cbn [fuse_parallel].
  - intros [= <- <-]. apply extends_refl.
  - intros H. apply bind_Ok_inv in H as (d & _ & H).
    apply bind_Ok_inv in H as (inner & _ & H).
    apply bind_Ok_inv in H as (outer & _ & H). apply IH in H.
    eapply extends_trans; [|exact H]. by apply extends_snoc.
Qed.

Lemma apply_tiled_calls (n : PartialScheduleNode D) fn vars num_cores tr
    here vars' num_cores' tr' :
  func n = Some fn -> innermost n = false ->
  apply_tiled dag n fn vars num_cores tr = Ok (here, vars', num_cores', tr') ->
  (exists v, here = LevelAt fn v) /\
  (several num_cores = false -> num_cores' = num_cores) /\
  extends (fun d => local_call n d /\
                    (several num_cores = false -> is_parallel d = false))
          tr tr'.
Proof.
  intros Hfn Hin. unfold apply_tiled. intros H.
  apply bind_Ok_inv in H as ([b n'] & _ & H).
  apply bind_Ok_inv in H as ([[vars1 new_inner] tr1] & Hsplit & H).
  apply bind_Ok_inv in H as ([[vars2 nc2] tr2] & Hpar & H).
  apply bind_Ok_inv in H as (v & _ & H). injection H as <- <- <- <-.
  split; [by exists v|].
  set (P := fun d => local_call n d /\
                     (several num_cores = false -> is_parallel d = false)).
  apply (implied_splits_calls P) in Hsplit as (Hsplit & _);
    [|intros old k; split; [by cbn|done]].
  destruct (several num_cores) eqn:Hsev.
  - split; [done|].
    apply bind_Ok_inv in Hpar as ([[[nc3 count] ipd] tr3] & Hpo & Hpar).
    apply bind_Ok_inv in Hpar as ([vars4 tr4] & Hfuse & Hpar).
    injection Hpar as <- <- <-.
    apply (parallelize_outer_calls P) in Hpo; [|by intros v'; split].
    apply (fuse_parallel_calls P) in Hfuse; [|by intros i o; split].
    eapply extends_trans; [exact Hsplit|]. by eapply extends_trans.
  - injection Hpar as <- <- <-. split; [done|]. exact Hsplit.
Qed.

Lemma store_at_calls (P : directive -> Prop) here (fs : list Function) tr :
  (forall g, g ∈ fs -> P (StoreAt g here)) ->
  extends P tr (fold_left (fun tr f => tr ++ [StoreAt f here]) fs tr).
Proof.
  revert tr. induction fs as [|g fs IH]; intros tr HP; cbn [fold_left].
  - apply extends_refl.
  - eapply extends_trans; [apply extends_snoc, HP, list_elem_of_here|].
    apply IH. intros g' Hg'. apply HP. by apply list_elem_of_further.
Qed.

(** Every call that [apply] makes is a call of a node of the tree, and
    with no more than one core none of them is [parallel] or [fuse]. *)
Lemma apply_calls (n : PartialScheduleNode D) :
  forall here num_cores vars_map tr vars_map' tr',
  apply dag n here num_cores (vars_map, tr) = Ok (vars_map', tr') ->
  extends (fun d => calls_of n d /\
                    (several num_cores = false -> is_parallel d = false))
          tr tr'.
Proof.
  induction n as [n IH] using PartialScheduleNode_ind'.
  intros here num_cores vars_map tr vars_map' tr'.
  rewrite apply_unfold.
  assert (Hkids : forall placed here' nc cs vm0 tr0,
    (forall c, c ∈ cs -> c ∈ children n) ->
    (several num_cores = false -> nc = num_cores) ->
    (forall c cf d, c ∈ cs -> func c.2 = Some cf -> placed cf = Some d ->
                    local_call n d /\ is_parallel d = false) ->
    apply_children placed here' nc cs (vm0, tr0) = Ok (vars_map', tr') ->
    extends (fun d => calls_of n d /\
                      (several num_cores = false -> is_parallel d = false))
            tr0 tr').
  { intros placed here' nc cs. induction cs as [|c cs IHcs];
      intros vm0 tr0 Hsub Hnc Hplaced; cbn [apply_children].
    - intros [= <- <-]. apply extends_refl.
    - intros H. apply bind_Ok_inv in H as (cf & Hcf & H).
      destruct (func c.2) as [cf'|] eqn:Hfc; [|discriminate].
      injection Hcf as ->.
      apply bind_Ok_inv in H as ([vm1 tr1] & Hc & H).
      apply IHcs in H;
        [|intros c' Hc'; apply Hsub; by apply list_elem_of_further|done
         |intros c' cf' d' Hc'; apply Hplaced; by apply list_elem_of_further].
      eapply extends_trans; [|exact H].
      assert (Hcin : c ∈ children n) by (apply Hsub, list_elem_of_here).
      rewrite Forall_forall in IH.
      assert (Hrun : forall tr2, apply dag c.2 here' nc (vm0, tr2) = Ok (vm1, tr1) ->
        extends (fun d => calls_of n d /\
                          (several num_cores = false -> is_parallel d = false))
                tr2 tr1).
      { intros tr2 Hr. apply (IH c Hcin) in Hr.
        eapply extends_impl; [|exact Hr]. intros d [Hd1 Hd2]. split.
        - by eapply calls_below.
        - intros Hs. apply Hd2. by rewrite (Hnc Hs). }
      destruct (placed cf) as [d|] eqn:Hpl.
      + cbn [fst snd] in Hc. apply Hrun in Hc.
        eapply extends_trans; [|exact Hc]. apply extends_snoc.
        destruct (Hplaced c cf d (list_elem_of_here _ _) Hfc Hpl) as [H1 H2].
        split; [by apply calls_here|done].
      + by apply Hrun. }
  destruct (func n) as [fn|] eqn:Hfn.
  - cbv zeta.
    set (vars := if bool_decide (default [] (vars_map !! fn) = [])
                 then Function.args fn else default [] (vars_map !! fn)).
    intros H. apply bind_Ok_inv in H as ([[[here1 vars1] nc1] tr1] & Hown & H).
    assert (Hown' : (exists v, here1 = LevelAt fn v) /\
      (several num_cores = false -> nc1 = num_cores) /\
      extends (fun d => local_call n d /\
                        (several num_cores = false -> is_parallel d = false))
              tr tr1).
    { destruct (innermost n) eqn:Hin.
      - apply bind_Ok_inv in Hown as ([here2 tr2] & Hi & Hown).
        injection Hown as <- <- <- <-.
        apply (apply_innermost_calls n) in Hi as [Hh Hext]; done.
      - by apply (apply_tiled_calls n) in Hown. }
    destruct Hown' as ([v ->] & Hnc & Hext).
    eapply extends_trans.
    { eapply extends_impl; [|exact Hext]. intros d [H1 H2].
      split; [by apply calls_here|done]. }
    eapply extends_trans.
    { apply (store_at_calls _ (LevelAt fn v) (elements (store_at n))).
      intros g Hg. split; [|done].
      apply calls_here. cbn. exists fn, v. split; [done|]. split; [done|].
      by apply elem_of_elements in Hg. }
    eapply Hkids; [done|exact Hnc| |exact H].
    intros c cf d Hc Hfc Hpl. cbv beta in Hpl.
    destruct (bool_decide (cf = fn)) eqn:Hsame; [discriminate|].
    apply bool_decide_eq_false in Hsame. injection Hpl as <-.
    split; [|done]. cbn. exists fn, v. split; [done|]. split; [done|].
    split; [done|]. by exists c.
  - intros H. eapply Hkids; [done|done| |exact H].
    intros c cf d Hc Hfc [= <-]. split; [|done]. cbn. split; [done|].
    by exists c.
Qed.

(** What [apply] has done for a node [m] when it ends with the variables
    [vm] and the calls [tr]: each child of the root is [compute_root]; a
    loop has its variables, and at one of them the functions that it stores
    are [store_at] and the children of other functions [compute_at]. *)
Definition placed_in (m : PartialScheduleNode D)
    (vm : gmap Function (list string)) (tr : list directive) : Prop :=
  match func m with
  | None =>
    forall c cf, c ∈ children m -> func c.2 = Some cf -> ComputeRoot cf ∈ tr
  | Some f =>
    f ∈ dom vm /\
    exists v,
      (forall g, g ∈ store_at m -> StoreAt g (LevelAt f v) ∈ tr) /\
      (forall c cf, c ∈ children m -> func c.2 = Some cf -> cf <> f ->
                    ComputeAt cf (LevelAt f v) ∈ tr)
  end.

Lemma placed_in_mono m vm tr vm' suf :
  dom vm ⊆ dom vm' -> placed_in m vm tr -> placed_in m vm' (tr ++ suf).
Proof.
  unfold placed_in. intros Hdom. destruct (func m) as [f|].
  - intros (Hf & v & Hst & Hca). split; [set_solver|]. exists v. split.
    + intros g Hg. apply elem_of_app. left. by apply Hst.
    + intros c cf Hc Hcf Hne. apply elem_of_app. left. by eapply Hca.
  - intros H c cf Hc Hcf. apply elem_of_app. left. by eapply H.
Qed.

Lemma store_at_fold here (fs : list Function) tr :
  fold_left (fun tr f => tr ++ [StoreAt f here]) fs tr =
  tr ++ ((fun f => StoreAt f here) <$> fs).
Proof.
  revert tr. induction fs as [|g fs IH]; intros tr; cbn [fold_left].
  - by rewrite fmap_nil, app_nil_r.
  - by rewrite IH, fmap_cons, <- app_assoc.
Qed.

Lemma apply_places (n : PartialScheduleNode D) :
  forall here num_cores vars_map tr vars_map' tr',
  apply dag n here num_cores (vars_map, tr) = Ok (vars_map', tr') ->
  dom vars_map ⊆ dom vars_map' /\ (exists suf, tr' = tr ++ suf) /\
  forall m, node_of m n -> placed_in m vars_map' tr'.
Proof.
  induction n as [n IH] using PartialScheduleNode_ind'.
  intros here num_cores vars_map tr vars_map' tr'.
  rewrite apply_unfold.
  assert (Hkids : forall placed here' nc cs vm0 tr0,
    (forall c, c ∈ cs -> c ∈ children n) ->
    apply_children placed here' nc cs (vm0, tr0) = Ok (vars_map', tr') ->
    dom vm0 ⊆ dom vars_map' /\ (exists suf, tr' = tr0 ++ suf) /\
    (forall c m, c ∈ cs -> node_of m c.2 -> placed_in m vars_map' tr') /\
    (forall c cf d, c ∈ cs -> func c.2 = Some cf -> placed cf = Some d ->
                    d ∈ tr')).
  { intros placed here' nc cs. induction cs as [|c cs IHcs];
      intros vm0 tr0 Hsub; cbn [apply_children].
    - intros [= <- <-]. split; [done|]. split; [exists []; by rewrite app_nil_r|].
      split; [intros c m Hc; by apply elem_of_nil in Hc|].
      intros c cf d Hc; by apply elem_of_nil in Hc.
    - intros H. apply bind_Ok_inv in H as (cf & Hcf & H).
      destruct (func c.2) as [cf'|] eqn:Hfc; [|discriminate].
      injection Hcf as ->.
      apply bind_Ok_inv in H as ([vm1 tr1] & Hc & H).
      apply IHcs in H as (Hdom & [suf2 ->] & Hnodes & Hplaced);
        [|intros c' Hc'; apply Hsub; by apply list_elem_of_further].
      assert (Hcin : c ∈ children n) by (apply Hsub, list_elem_of_here).
      rewrite Forall_forall in IH.
      assert (Hrun : forall tr2,
        apply dag c.2 here' nc (vm0, tr2) = Ok (vm1, tr1) ->
        dom vm0 ⊆ dom vars_map' /\ (exists suf, tr1 ++ suf2 = tr2 ++ suf) /\
        forall m, node_of m c.2 -> placed_in m vars_map' (tr1 ++ suf2)).
      { intros tr2 Hr. apply (IH c Hcin) in Hr as (Hd1 & [suf1 ->] & Hn1).
        split; [set_solver|]. split; [exists (suf1 ++ suf2); by rewrite app_assoc|].
        intros m Hm. apply (placed_in_mono m vm1); [done|]. by apply Hn1. }
      assert (Hgoal : forall tr2,
        (exists suf0, tr2 = tr0 ++ suf0) ->
        apply dag c.2 here' nc (vm0, tr2) = Ok (vm1, tr1) ->
        (forall d, placed cf = Some d -> d ∈ tr2) ->
        dom vm0 ⊆ dom vars_map' /\ (exists suf, tr1 ++ suf2 = tr0 ++ suf) /\
        (forall c0 m, c0 ∈ c :: cs -> node_of m c0.2 ->
                      placed_in m vars_map' (tr1 ++ suf2)) /\
        (forall c0 cf0 d, c0 ∈ c :: cs -> func c0.2 = Some cf0 ->
                          placed cf0 = Some d -> d ∈ tr1 ++ suf2)).
      { intros tr2 [suf0 ->] Hr Hd.
        destruct (Hrun _ Hr) as (Hd1 & [suf1 Hs1] & Hn1).
        split; [done|]. split; [exists (suf0 ++ suf1); by rewrite Hs1, app_assoc|].
        split.
        - intros c0 m Hc0 Hm. apply elem_of_cons in Hc0 as [->|Hc0];
            [by apply Hn1|by eapply Hnodes].
        - intros c0 cf0 d Hc0 Hcf0 Hpl.
          apply elem_of_cons in Hc0 as [->|Hc0]; [|by eapply Hplaced].
          rewrite Hfc in Hcf0. injection Hcf0 as <-.
          rewrite Hs1. apply elem_of_app. left. by apply Hd. }
      destruct (placed cf) as [d|] eqn:Hpl.
      + cbn [fst snd] in Hc. eapply Hgoal; [by exists [d]|exact Hc|].
        intros d' [= <-]. apply elem_of_app. right. apply list_elem_of_here.
      + eapply Hgoal; [exists []; by rewrite app_nil_r|exact Hc|done]. }
  destruct (func n) as [fn|] eqn:Hfn.
  - cbv zeta.
    intros H. apply bind_Ok_inv in H as ([[[here1 vars1] nc1] tr1] & Hown & H).
    assert (Hown' : (exists v, here1 = LevelAt fn v) /\ exists suf, tr1 = tr ++ suf).
    { destruct (innermost n) eqn:Hin.
      - apply bind_Ok_inv in Hown as ([here2 tr2] & Hi & Hown).
        injection Hown as <- <- <- <-.
        apply (apply_innermost_calls n) in Hi as [Hh (suf & -> & _)]; [|done..].
        split; [done|by exists suf].
      - apply (apply_tiled_calls n) in Hown as (Hh & _ & (suf & -> & _));
          [|done..]. split; [done|by exists suf]. }
    destruct Hown' as ([v ->] & [suf1 ->]).
    rewrite store_at_fold in H.
    apply Hkids in H as (Hdom & [suf2 Hs2] & Hnodes & Hplaced); [|done].
    split; [set_solver|].
    split; [exists (suf1 ++ ((fun f => StoreAt f (LevelAt fn v)) <$>
                              elements (store_at n)) ++ suf2);
            by rewrite Hs2, !app_assoc|].
    intros m Hm. inversion Hm as [|c ? Hc Hmc]; subst.
    + unfold placed_in. rewrite Hfn. split; [set_solver|]. exists v. split.
      * intros g Hg. apply elem_of_app. left.
        apply elem_of_app. right. apply list_elem_of_fmap. exists g.
        split; [done|]. by apply elem_of_elements.
      * intros c cf Hc Hcf Hne. eapply Hplaced; [exact Hc|exact Hcf|].
        by rewrite bool_decide_eq_false_2.
    + by eapply Hnodes.
  - intros H. apply Hkids in H as (Hdom & Hsuf & Hnodes & Hplaced); [|done].
    split; [done|]. split; [done|].
    intros m Hm. inversion Hm as [|c ? Hc Hmc]; subst.
    + unfold placed_in. rewrite Hfn. intros c cf Hc Hcf.
      by eapply Hplaced.
    + by eapply Hnodes.
Qed.

(** The functions that [apply] gives loop variables are those of the loops
    of the tree. *)
Lemma apply_keys (n : PartialScheduleNode D) :
  forall here num_cores vars_map tr vars_map' tr' f,
  apply dag n here num_cores (vars_map, tr) = Ok (vars_map', tr') ->
  f ∈ dom vars_map' ->
  f ∈ dom vars_map \/ exists m, node_of m n /\ func m = Some f.
Proof.
  induction n as [n IH] using PartialScheduleNode_ind'.
  intros here num_cores vars_map tr vars_map' tr' f.
  rewrite apply_unfold.
  assert (Hkids : forall placed here' nc cs vm0 tr0,
    (forall c, c ∈ cs -> c ∈ children n) ->
    apply_children placed here' nc cs (vm0, tr0) = Ok (vars_map', tr') ->
    f ∈ dom vars_map' ->
    f ∈ dom vm0 \/ exists m, node_of m n /\ func m = Some f).
  { intros placed here' nc cs. induction cs as [|c cs IHcs];
      intros vm0 tr0 Hsub; cbn [apply_children].
    - intros [= <- <-]. by left.
    - intros H Hf. apply bind_Ok_inv in H as (cf & _ & H).
      apply bind_Ok_inv in H as ([vm1 tr1] & Hc & H).
      apply IHcs in H as [H|H]; [| |intros c' Hc'; apply Hsub;
                                     by apply list_elem_of_further|done];
        [|by right].
      assert (Hcin : c ∈ children n) by (apply Hsub, list_elem_of_here).
      rewrite Forall_forall in IH.
      assert (Hrun : forall st2, st2.1 = vm0 ->
                apply dag c.2 here' nc st2 = Ok (vm1, tr1) ->
                f ∈ dom vm0 \/ exists m, node_of m n /\ func m = Some f).
      { intros [vm2 tr2] Hvm Hr. cbn in Hvm. subst vm2.
        eapply (IH c Hcin) in Hr as [Hr|(m & Hm & Hfm)]; [by left| |exact H].
        right. exists m. split; [|done]. by eapply node_child. }
      eapply Hrun; [|exact Hc]. by destruct (placed cf). }
  destruct (func n) as [fn|] eqn:Hfn.
  - cbv zeta. intros H Hf.
    apply bind_Ok_inv in H as ([[[here1 vars1] nc1] tr1] & _ & H).
    apply Hkids in H as [H|H]; [|by right|done|done].
    rewrite dom_insert in H. apply elem_of_union in H as [H|H]; [|by left].
    apply elem_of_singleton in H as ->. right. exists n.
    split; [constructor|done].
  - intros H Hf. by eapply Hkids.
Qed.

Lemma reorder_fold (l : list (Function * list string)) tr :
  fold_left (fun tr p => tr ++ [Reorder p.1 p.2]) l tr =
  tr ++ ((fun p => Reorder p.1 p.2) <$> l).
Proof.
  revert tr. induction l as [|p l IH]; intros tr; cbn [fold_left].
  - by rewrite fmap_nil, app_nil_r.
  - by rewrite IH, fmap_cons, <- app_assoc.
Qed.

(** [apply_schedule] as the calls of [apply] followed by one [reorder] for
    each function that was given loop variables. *)
Lemma apply_schedule_inv (s : State D) (parallelism : Z) (tr : list directive) :
  apply_schedule dag s parallelism = Ok tr ->
  exists vm calls,
    apply dag (root s) LevelRoot (d_of_int parallelism) (∅, []) = Ok (vm, calls) /\
    tr = calls ++ ((fun p => Reorder p.1 p.2) <$> map_to_list vm).
Proof.
  unfold apply_schedule. intros H.
  apply bind_Ok_inv in H as ([vm calls] & Hrun & H). injection H as <-.
  exists vm, calls. split; [done|]. apply reorder_fold.
Qed.

(** X19. With no more than one core ([num_cores > 1] does not hold of
    [params.parallelism]), [apply_schedule] makes no call of [parallel] and
    no call of [fuse]. *)
Theorem apply_schedule_one_core (s : State D) (parallelism : Z)
    (tr : list directive) :
  d_ltb (d_of_int 1) (d_of_int parallelism) = false ->
  apply_schedule dag s parallelism = Ok tr ->
  forall d, d ∈ tr ->
    match d with
    | Parallel _ _ _ | Fuse _ _ _ _ => False
    | _ => True
    end.
Proof.
  intros Hone H d Hd.
  apply apply_schedule_inv in H as (vm & calls & Hrun & ->).
  apply apply_calls in Hrun as (suf & Hsuf & Hall). cbn in Hsuf. subst suf.
  apply elem_of_app in Hd as [Hd|Hd].
  - rewrite Forall_forall in Hall. destruct (Hall d Hd) as [_ Hpar].
    specialize (Hpar Hone). by destruct d.
  - apply list_elem_of_fmap in Hd as (p & -> & _). done.
Qed.

(** X20. Every [vectorize] that [apply_schedule] calls is for an innermost
    loop of the tree, on the function of that loop, and its width is the
    greatest of 16, 8 and 4 that does not exceed the extent [size[0]] of
    the loop. *)
Theorem apply_schedule_vectorize (s : State D) (parallelism : Z)
    (tr : list directive) (f : Function) (v : string) (k : Z) :
  apply_schedule dag s parallelism = Ok tr ->
  Vectorize f v k ∈ tr ->
  exists m s0,
    node_of m (root s) /\ func m = Some f /\ innermost m = true /\
    size m !! 0%nat = Some s0 /\
    (k = 4 \/ k = 8 \/ k = 16) /\ k <= s0 /\ (s0 < 2 * k \/ k = 16).
Proof.
  intros H Hd.
  apply apply_schedule_inv in H as (vm & calls & Hrun & ->).
  apply apply_calls in Hrun as (suf & Hsuf & Hall). cbn in Hsuf. subst suf.
  apply elem_of_app in Hd as [Hd|Hd].
  - rewrite Forall_forall in Hall.
    destruct (Hall _ Hd) as [(m & Hm & Hf & Hin & s0 & Hs0 & Hk) _].
    by exists m, s0.
  - apply list_elem_of_fmap in Hd as (p & Heq & _). discriminate.
Qed.

(** X21. Where [apply_schedule] places: every [compute_root] is for a child
    of the root; every [store_at] and every [compute_at] names a loop
    variable of the function of a node of the tree, never the root level:
    [store_at] for a function in the [store_at] set of that node, and
    [compute_at] for the function of a child of that node that is not the
    function of the node itself. *)
Theorem apply_schedule_placements (s : State D) (parallelism : Z)
    (tr : list directive) (g : Function) :
  apply_schedule dag s parallelism = Ok tr ->
  (ComputeRoot g ∈ tr ->
   exists m c, node_of m (root s) /\ func m = None /\
               c ∈ children m /\ func c.2 = Some g) /\
  (forall level, StoreAt g level ∈ tr ->
   exists m f v, node_of m (root s) /\ level = LevelAt f v /\
                 func m = Some f /\ g ∈ store_at m) /\
  (forall level, ComputeAt g level ∈ tr ->
   exists m f v c, node_of m (root s) /\ level = LevelAt f v /\
                   func m = Some f /\ g <> f /\
                   c ∈ children m /\ func c.2 = Some g).
Proof.
  intros H.
  apply apply_schedule_inv in H as (vm & calls & Hrun & ->).
  apply apply_calls in Hrun as (suf & Hsuf & Hall). cbn in Hsuf. subst suf.
  rewrite Forall_forall in Hall.
  assert (Hin : forall d, d ∈ calls ++ ((fun p => Reorder p.1 p.2) <$> map_to_list vm) ->
            (forall f0 vs, d <> Reorder f0 vs) ->
            exists m, node_of m (root s) /\ local_call m d).
  { intros d Hd Hne. apply elem_of_app in Hd as [Hd|Hd].
    - by destruct (Hall d Hd) as [Hc _].
    - apply list_elem_of_fmap in Hd as (p & -> & _). by destruct (Hne p.1 p.2). }
  split; [|split].
  - intros Hd. apply Hin in Hd as (m & Hm & Hroot & c & Hc & Hfc); [|done].
    by exists m, c.
  - intros level Hd.
    apply Hin in Hd as (m & Hm & f & v & -> & Hf & Hg); [|done].
    by exists m, f, v.
  - intros level Hd.
    apply Hin in Hd as (m & Hm & f & v & -> & Hf & Hne & c & Hc & Hfc); [|done].
    by exists m, f, v, c.
Qed.

(** X22. What [apply_schedule] does for every node of the tree, when it
    returns: the children of the root are [compute_root]; the function of a
    loop is reordered, once, and at one loop variable of it every function
    in the [store_at] set of the node is [store_at], and every child of
    another function is [compute_at]. A function is reordered only if it
    has a loop in the tree. *)
Theorem apply_schedule_complete (s : State D) (parallelism : Z)
    (tr : list directive) :
  apply_schedule dag s parallelism = Ok tr ->
  (forall m, node_of m (root s) ->
     match func m with
     | None =>
       forall c cf, c ∈ children m -> func c.2 = Some cf ->
                    ComputeRoot cf ∈ tr
     | Some f =>
       (exists vars, Reorder f vars ∈ tr) /\
       exists v,
         (forall g, g ∈ store_at m -> StoreAt g (LevelAt f v) ∈ tr) /\
         (forall c cf, c ∈ children m -> func c.2 = Some cf -> cf <> f ->
                       ComputeAt cf (LevelAt f v) ∈ tr)
     end) /\
  (forall f vars, Reorder f vars ∈ tr ->
     (exists m, node_of m (root s) /\ func m = Some f) /\
     forall vars', Reorder f vars' ∈ tr -> vars' = vars).
Proof.
  intros H.
  apply apply_schedule_inv in H as (vm & calls & Hrun & ->).
  pose proof (apply_places _ _ _ _ _ _ _ Hrun) as (_ & _ & Hplaced).
  pose proof (apply_calls _ _ _ _ _ _ _ Hrun) as (suf & Hsuf & Hall).
  cbn in Hsuf. subst suf. rewrite Forall_forall in Hall.
  assert (Hre : forall f vars,
    Reorder f vars ∈ calls ++ ((fun p => Reorder p.1 p.2) <$> map_to_list vm) <->
    vm !! f = Some vars).
  { intros f vars. rewrite elem_of_app, list_elem_of_fmap. split.
    - intros [Hd|([f' vars'] & [= <- <-] & Hp)].
      + by destruct (Hall _ Hd) as [(m & _ & Hfalse) _].
      + by apply elem_of_map_to_list in Hp.
    - intros Hf. right. exists (f, vars). split; [done|].
      by apply elem_of_map_to_list. }
  split.
  - intros m Hm. specialize (Hplaced m Hm). unfold placed_in in Hplaced.
    destruct (func m) as [f|].
    + destruct Hplaced as (Hf & v & Hst & Hca). split.
      * apply elem_of_dom in Hf as [vars Hvars]. exists vars. by apply Hre.
      * exists v. split.
        -- intros g Hg. apply elem_of_app. left.
           specialize (Hst g Hg). done.
        -- intros c cf Hc Hcf Hne. apply elem_of_app. left. by eapply Hca.
    + intros c cf Hc Hcf. apply elem_of_app. left. by eapply Hplaced.
  - intros f vars Hd. apply Hre in Hd. split.
    + eapply apply_keys in Hrun as [Hk|Hk]; [|exact Hk|by apply elem_of_dom].
      by rewrite dom_empty in Hk; apply elem_of_empty in Hk.
    + intros vars' Hd'. apply Hre in Hd'. congruence.
Qed.

End ApplyUnfold.

(** ** The runs of the driver *)

Section TimedRuns.
Variable log : Q -> Q.
#[local] Instance timed_ops : DoubleOps Q := exact_ops log.
Variable dag : FunctionDAG Q.
Variables (passes : nat) (time_limit : Q) (elapsed : nat -> Q).

(** The beam size of run [k], as a [size_t], and the state that the run
    returns. *)
Definition beam_of_run (k : nat) : Z := 2 ^ Z.of_nat k mod 2 ^ 64.

Definition run (k : nat) : outcome Q :=
  optimal_schedule dag passes (cast_int (beam_of_run k)).

Lemma beam_of_run_S k : (2 * beam_of_run k) mod 2 ^ 64 = beam_of_run (S k).
Proof.
  unfold beam_of_run. rewrite Z.mul_mod_idemp_r by lia.
  by rewrite Nat2Z.inj_succ, Z.pow_succ_r by lia.
Qed.

Lemma beam_of_run_1 k : (beam_of_run k =? 1) = bool_decide (k = 0%nat).
Proof.
  unfold beam_of_run. destruct k as [|k]; [done|].
  rewrite bool_decide_eq_false_2 by done. apply Z.eqb_neq.
  destruct (decide (S k < 64)%nat) as [Hlt|Hge].
  - assert (0 <= 2 ^ Z.of_nat (S k) < 2 ^ 64).
    { split; [lia|]. apply Z.pow_lt_mono_r; lia. }
    rewrite Z.mod_small by done.
    rewrite Nat2Z.inj_succ, Z.pow_succ_r by lia.
    pose proof (Z.pow_pos_nonneg 2 (Z.of_nat k)). lia.
  - replace (Z.of_nat (S k)) with (64 + (Z.of_nat (S k) - 64)) by lia.
    rewrite Z.pow_add_r by lia.
    rewrite Z.mul_comm, Z.mod_mul by lia. done.
Qed.

(** The best of the runs before [k]: a state that one of them returned,
    and that costs no more than what any of them returned. *)
Definition best_before (k : nat) (optimal : State Q) : Prop :=
  (exists k0, (k0 < k)%nat /\ run k0 = Found optimal) /\
  forall j, (j < k)%nat ->
    exists sj, run j = Found sj /\ (state_cost optimal <= state_cost sj)%Q.

Lemma timed_runs_best runs k optimal s :
  (k = 0%nat \/ best_before k optimal) ->
  timed_runs dag passes runs time_limit elapsed k (beam_of_run k) optimal
    = Found s ->
  exists last,
    (k <= last < k + runs)%nat /\ best_before (S last) s /\
    (time_limit / 2 < elapsed last)%Q /\
    forall j, (k <= j < last)%nat -> (elapsed j <= time_limit / 2)%Q.
Proof.
  revert k optimal. induction runs as [|runs IH]; intros k optimal Hinv;
    cbn [timed_runs]; [done|].
  fold (run k). destruct (run k) as [sk| |] eqn:Hrun; [|done..].
  rewrite beam_of_run_1.
  set (opt' := if bool_decide (k = 0%nat) ||
                  d_ltb (state_cost sk) (state_cost optimal)
               then sk else optimal).
  assert (Hbest : best_before (S k) opt').
  { unfold opt'. destruct Hinv as [->|[(k0 & Hk0 & Hr0) Hmin]].
    - cbn. split; [exists 0%nat; split; [lia|done]|].
      intros j Hj. assert (j = 0%nat) as -> by lia. exists sk.
      split; [done|]. apply Qle_refl.
    - rewrite bool_decide_eq_false_2 by lia. cbn [orb d_ltb timed_ops exact_ops].
      destruct (Qle_bool (state_cost optimal) (state_cost sk)) eqn:Hle; cbn [negb].
      + apply Qle_bool_iff in Hle. split; [exists k0; split; [lia|done]|].
        intros j Hj. destruct (decide (j = k)) as [->|Hne].
        * by exists sk.
        * apply Hmin. lia.
      + assert (Hlt : (state_cost sk < state_cost optimal)%Q).
        { apply Qnot_le_lt. intros H. apply Qle_bool_iff in H.
          rewrite H in Hle. discriminate. }
        split; [exists k; split; [lia|done]|].
        intros j Hj. destruct (decide (j = k)) as [->|Hne].
        * exists sk. split; [done|]. apply Qle_refl.
        * destruct (Hmin j ltac:(lia)) as (sj & Hsj & Hc). exists sj.
          split; [done|]. eapply Qle_trans; [|exact Hc]. by apply Qlt_le_weak. }
  cbn [d_ltb d_div d_of_int timed_ops exact_ops].
  change (inject_Z 2) with 2%Q.
  destruct (Qle_bool (elapsed k) (time_limit / 2)) eqn:Hel; cbn [negb].
  - apply Qle_bool_iff in Hel. rewrite beam_of_run_S. intros H.
    apply IH in H as (last & Hlast & Hb & Hstop & Hgo); [|by right].
    exists last. split; [lia|]. split; [done|]. split; [done|].
    intros j Hj. destruct (decide (j = k)) as [->|Hne]; [done|]. apply Hgo. lia.
  - intros [= <-]. exists k. split; [lia|]. split; [done|]. split.
    + apply Qnot_le_lt. intros H. apply Qle_bool_iff in H.
      rewrite H in Hel. discriminate.
    + intros j Hj. lia.
Qed.

(** X23. With a fixed running time the driver runs the search with the beam
    sizes 1, 2, 4, ... until, after a run, more than half of the time limit
    has elapsed, and keeps the cheapest of the states that the runs
    returned (the earliest of them, among equals): the state it ends with
    was returned by one of the runs made, and costs no more than the state
    that any of them returned. Costs and times are exact rationals. *)
Theorem timed_runs_cheapest (runs : nat) (s : State Q) :
  timed_runs dag passes runs time_limit elapsed 0 1 initial_state = Found s ->
  exists last,
    (last < runs)%nat /\
    (exists k, (k <= last)%nat /\ run k = Found s) /\
    (forall j, (j <= last)%nat ->
       exists sj, run j = Found sj /\ (state_cost s <= state_cost sj)%Q) /\
    (time_limit / 2 < elapsed last)%Q /\
    forall j, (j < last)%nat -> (elapsed j <= time_limit / 2)%Q.
Proof.
  intros H.
  apply (timed_runs_best runs 0 initial_state s) in H
    as (last & Hlast & [(k & Hk & Hrun) Hmin] & Hstop & Hgo); [|by left].
  exists last. split; [lia|]. split; [exists k; split; [lia|done]|].
  split; [intros j Hj; apply Hmin; lia|]. split; [done|].
  intros j Hj. apply Hgo. lia.
Qed.

End TimedRuns.

(** ** What the driver schedules *)

Section DriverSchedules.
Context {D : Type} {dops : DoubleOps D} {dceil : DoubleCeil D}.
Variable dag : FunctionDAG D.

Lemma computes_node_of (n : PartialScheduleNode D) (f : Function) :
  computes n f = true <->
  exists m, node_of m n /\
            (func m = Some f \/ is_Some (inlined m !! f)).
Proof.
  induction n as [n IH] using PartialScheduleNode_ind'.
  rewrite computes_unfold, !orb_true_iff, !bool_decide_eq_true. split.
  - intros [[H|H]|H].
    + exists n. split; [constructor|by left].
    + exists n. split; [constructor|by right].
    + apply existsb_exists in H as (c & Hc & Hcf).
      apply list_elem_of_In in Hc. rewrite Forall_forall in IH.
      apply (IH c Hc) in Hcf as (m & Hm & Hf).
      exists m. split; [by eapply node_child|done].
  - intros (m & Hm & Hf). inversion Hm as [|c ? Hc Hmc]; subst.
    + destruct Hf; [left; by left|left; by right].
    + right. apply existsb_exists. exists c.
      split; [by apply list_elem_of_In|].
      rewrite Forall_forall in IH. apply (IH c Hc). by exists m.
Qed.

Lemma node_of_set_bounds (m n : PartialScheduleNode D) cache :
  node_of m (set_bounds n cache) ->
  node_of m n \/ m = set_bounds n cache.
Proof.
  intros H. inversion H as [|c ? Hc Hmc]; subst; [by right|].
  left. eapply node_child; [|exact Hmc]. by destruct n.
Qed.

Lemma timed_runs_found passes runs time_limit elapsed k beam_size
    (optimal s : State D) :
  timed_runs dag passes runs time_limit elapsed k beam_size optimal = Found s ->
  (s = optimal /\ beam_size <> 1) \/
  exists b, optimal_schedule dag passes b = Found s.
Proof.
  revert k beam_size optimal. induction runs as [|runs IH];
    intros k beam_size optimal; cbn [timed_runs]; [done|].
  destruct (optimal_schedule dag passes (cast_int beam_size)) as [s0| |] eqn:Hrun;
    [|done..].
  set (opt' := if (beam_size =? 1) || _ then s0 else optimal).
  assert (Hopt : (opt' = optimal /\ beam_size <> 1) \/
                 exists b, optimal_schedule dag passes b = Found opt').
  { unfold opt'. destruct (beam_size =? 1) eqn:Hb; [right; eauto|].
    apply Z.eqb_neq in Hb. cbn [orb].
    destruct (d_ltb _ _); [right; eauto|by left]. }
  destruct (d_ltb _ (elapsed k)).
  - by intros [= <-].
  - intros H. apply IH in H as [[-> _]|H]; [done|by right].
Qed.

(** X24. When the driver returns, whether it ran the search once or for a
    fixed running time, the calls that it made schedule a tree that
    computes every function of the DAG: every function has a loop in the
    tree, and is then reordered, or is inlined into a loop of the tree, and
    no function without a loop is reordered. *)
Theorem generate_schedules_top_down_covers (passes runs : nat)
    (beam_size_env : option Z) (time_limit : option D) (elapsed : nat -> D)
    (parallelism : Z) (calls : list directive) :
  generate_schedules_top_down dag passes runs beam_size_env time_limit elapsed
                              parallelism = Scheduled calls ->
  exists s : State D,
    is_root (root s) = true /\
    apply_schedule dag s parallelism = Ok calls /\
    (forall node, node ∈ FunctionDAG.nodes dag ->
       (exists vars, Reorder (FunctionDAG.func node) vars ∈ calls) \/
       (exists m, node_of m (root s) /\
                  is_Some (inlined m !! FunctionDAG.func node))) /\
    (forall f vars, Reorder f vars ∈ calls ->
       exists m, node_of m (root s) /\ func m = Some f).
Proof.
  unfold generate_schedules_top_down.
  set (found := match time_limit with Some _ => _ | None => _ end).
  destruct found as [optimal| |] eqn:Hfound; [|done..].
  assert (Hrun : exists b, optimal_schedule dag passes b = Found optimal).
  { unfold found in Hfound. destruct time_limit as [limit|]; [|eauto].
    by apply timed_runs_found in Hfound as [[_ ?]|H]. }
  destruct Hrun as [b Hrun].
  pose proof (search_found _ _ _ _ _ _ Hrun) as Hnum.
  unfold optimal_schedule in Hrun.
  apply (search_invariant dag (scheduled dag)) in Hrun as [Hroot Hall];
    [|intros ? ? ? ?; apply generate_children_scheduled|].
  2:{ constructor; [|constructor]. split; [done|]. cbn. intros j node Hj. lia. }
  destruct (calculate_cost dag optimal) as [s|] eqn:Hcost; [|done]. cbn.
  destruct (apply_schedule dag s parallelism) as [tr|] eqn:Happly; [|done].
  intros [= <-].
  unfold calculate_cost in Hcost.
  apply bind_Ok_inv in Hcost as ([c1 maps] & _ & Hcost).
  apply bind_Ok_inv in Hcost as ([rt c2] & Hsub & Hcost). injection Hcost as <-.
  apply subtract_essential_spec in Hsub as (cache & -> & _).
  eexists. split; [|split; [exact Happly|]].
  { cbn [root]. unfold is_root in *. by destruct (root optimal). }
  cbn [root] in *.
  apply apply_schedule_inv in Happly as (vm & calls0 & Hrun & ->).
  pose proof (apply_places _ _ _ _ _ _ _ _ Hrun) as (_ & _ & Hplaced).
  pose proof (apply_calls _ _ _ _ _ _ _ _ Hrun) as (suf & Hsuf & Hcalls).
  cbn in Hsuf. subst suf. rewrite Forall_forall in Hcalls.
  assert (Hre : forall f vars,
    Reorder f vars ∈ calls0 ++ ((fun p => Reorder p.1 p.2) <$> map_to_list vm) <->
    vm !! f = Some vars).
  { intros f vars. rewrite elem_of_app, list_elem_of_fmap. split.
    - intros [Hd|([f' vars'] & [= <- <-] & Hp)].
      + by destruct (Hcalls _ Hd) as [(m & _ & Hfalse) _].
      + by apply elem_of_map_to_list in Hp.
    - intros Hf. right. exists (f, vars). split; [done|].
      by apply elem_of_map_to_list. }
  split.
  - intros node Hnode. apply list_elem_of_lookup in Hnode as [j Hj].
    assert (Hc : computes (set_bounds (root optimal) cache)
                          (FunctionDAG.func node) = true).
    { rewrite computes_unfold.
      replace (func (set_bounds (root optimal) cache)) with (func (root optimal))
        by by destruct (root optimal).
      replace (inlined (set_bounds (root optimal) cache))
        with (inlined (root optimal)) by by destruct (root optimal).
      replace (children (set_bounds (root optimal) cache))
        with (children (root optimal)) by by destruct (root optimal).
      rewrite <- computes_unfold. apply (Hall j); [|done].
      rewrite Hnum. by eapply lookup_lt_Some. }
    apply computes_node_of in Hc as (m & Hm & [Hf|Hf]).
    + left. specialize (Hplaced m Hm). unfold placed_in in Hplaced.
      rewrite Hf in Hplaced. destruct Hplaced as [Hdom _].
      apply elem_of_dom in Hdom as [vars Hvars]. exists vars. by apply Hre.
    + right. by exists m.
  - intros f vars Hd. apply Hre in Hd.
    eapply apply_keys in Hrun as [Hk|Hk]; [|exact Hk|by apply elem_of_dom].
    by rewrite dom_empty in Hk; apply elem_of_empty in Hk.
Qed.

End DriverSchedules.

(** * Examples *)

(** The symbolic bounds of dimension [i] of a function. *)
Definition vmin (f : string) (i : nat) : Expr := Var (f +:+ "." +:+ pretty i +:+ ".min").
Definition vmax (f : string) (i : nat) : Expr := Var (f +:+ "." +:+ pretty i +:+ ".max").

(** An upper bound of the natural logarithm on the rationals from 1 on:
    the binary logarithm of the next integer, rounded up. The memory cost
    grows with the value of the logarithm, so a cost evaluated with this
    function bounds the cost evaluated with the logarithm itself from
    above. *)
Definition log2_ceil (q : Q) : Q := inject_Z (Z.log2_up (Qceiling q)).

Module TilingExample.

(** C6, counterexample: for the single extent 100 the second sweep emits
    the outer factor 50, which is not a power of two, exceeds its inner
    factor 2, and leaves an inner factor below 16 in dimension 0. *)
Lemma generate_tilings_split_counterexample :
  generate_tilings [100] 1 true = Ok [[2]; [4]; [50]; [25]; [13]] /\
  ~ pow2 50 /\
  ceil_div_int 100 50 = 2 /\ 2 < 50 /\ 2 < 16.
Proof.
  split; [vm_compute; reflexivity|].
  split; [|split; [vm_compute; reflexivity | lia]].
  intros [k Hk].
  destruct (decide (k < 6)%nat) as [Hlt|Hge].
  - do 6 (destruct k as [|k]; [vm_compute in Hk; discriminate|]). lia.
  - assert (2 ^ 6 <= 2 ^ Z.of_nat k) by (apply Z.pow_le_mono_r; lia).
    change (2 ^ 6) with 64 in *. lia.
Qed.

Lemma generate_tilings_split_factors_witness :
  length [50] = length [100] /\
  forall i o, [50] !! i = Some o ->
    1 <= o <= [100] !!! i /\
    ((pow2 o /\ o <= ceil_div_int ([100] !!! i) o /\
      (i = 0%nat -> 16 <= ceil_div_int ([100] !!! i) o)) \/
     (exists p, pow2 p /\ p < [100] !!! i /\
                o = ceil_div_int ([100] !!! i) p /\ p < o)).
Proof.
  apply (generate_tilings_split_factors [100] [[2]; [4]; [50]; [25]; [13]] [50]).
  - vm_compute. reflexivity.
  - do 2 apply list_elem_of_further. apply list_elem_of_here.
Defined.

End TilingExample.

Module BoundsExample.

(** [h(x) = g(x) + f(x)], [g(x) = f(x + 2)], [h] estimated over
    [[0, 9]]: [f] has the two consumers [h] and [g]. *)
Definition h : Function := Function.mk "h" ["x"] [mkEstimate "x" 0 10].
Definition g : Function := Function.mk "g" ["x"] [].
Definition f : Function := Function.mk "f" ["x"] [].

Definition f_h : FunctionDAG.Edge :=
  FunctionDAG.mkEdge f h [mkInterval (vmin "h" 0) (vmax "h" 0)] 1.
Definition g_h : FunctionDAG.Edge :=
  FunctionDAG.mkEdge g h [mkInterval (vmin "h" 0) (vmax "h" 0)] 1.
Definition f_g : FunctionDAG.Edge :=
  FunctionDAG.mkEdge f g [mkInterval (Add (vmin "g" 0) (IntImm 2))
                                     (Add (vmax "g" 0) (IntImm 2))] 1.

#[local] Instance ops : DoubleOps Q := exact_ops log2_ceil.

Definition h_node : FunctionDAG.Node Q :=
  FunctionDAG.mkNode h 24%Q 16%Q 24%Q [].
Definition g_node : FunctionDAG.Node Q :=
  FunctionDAG.mkNode g 16%Q 12%Q 24%Q [].
Definition f_node : FunctionDAG.Node Q :=
  FunctionDAG.mkNode f 8%Q 4%Q 24%Q [].

Definition dag : FunctionDAG Q :=
  FunctionDAG.mk [h_node; g_node; f_node] [f_h; g_h; f_g].

(** The region of [f] that one edge requires, given the consumer's region. *)
Definition edge_footprint (e : FunctionDAG.Edge) (consumer_region : list (Z * Z))
    : Res (list (Z * Z)) :=
  merge_dims (consumer_scope (FunctionDAG.consumer e) 0 consumer_region ∅)
             e 0 (length (FunctionDAG.bounds e)) [].

(** C1, the code at the failing input: at the root, [h] and [g] both have
    the region [[0, 9]]; [f] is required over [[0, 9]] through its edge to
    [h] and over [[2, 11]] through its edge to [g]; [get_bounds] returns
    [[0, 9]] for [f], which leaves out 10 and 11. *)
Theorem get_bounds_drops_upper_end :
  (fun r => region r.1) <$> get_bounds dag empty_node f = Ok [(0, 9)] /\
  (fun r => region <$> bounds r.2 !! h) <$> get_bounds dag empty_node f
    = Ok (Some [(0, 9)]) /\
  (fun r => region <$> bounds r.2 !! g) <$> get_bounds dag empty_node f
    = Ok (Some [(0, 9)]) /\
  edge_footprint f_h [(0, 9)] = Ok [(0, 9)] /\
  edge_footprint f_g [(0, 9)] = Ok [(2, 11)].
Proof. repeat split; vm_compute; reflexivity. Qed.


End BoundsExample.

Module GatherExample.

(** [h(x) = f(x*x) + f(x*x + 1) + ... + f(x*x + 39)] over [[0, 255]]: 40
    calls of [f] per point of [h], at an index that grows with the square
    of [x]. The footprint of [f] is the interval of [x*x] (the least and the
    greatest of the four products of the ends), widened by 39. Costs per
    point are those of 4-byte values with [balance = 1]: [memory] is taken
    as 1/4, just above 4 / ln(2^24). *)
Definition h : Function := Function.mk "h" ["x"] [mkEstimate "x" 0 256].
Definition f : Function := Function.mk "f" ["x"] [].

Definition square_min : Expr :=
  Min (Min (Mul (vmin "h" 0) (vmin "h" 0)) (Mul (vmin "h" 0) (vmax "h" 0)))
      (Min (Mul (vmax "h" 0) (vmin "h" 0)) (Mul (vmax "h" 0) (vmax "h" 0))).
Definition square_max : Expr :=
  Max (Max (Mul (vmin "h" 0) (vmin "h" 0)) (Mul (vmin "h" 0) (vmax "h" 0)))
      (Max (Mul (vmax "h" 0) (vmin "h" 0)) (Mul (vmax "h" 0) (vmax "h" 0))).

Definition f_h : FunctionDAG.Edge :=
  FunctionDAG.mkEdge f h
    [mkInterval square_min (Add square_max (IntImm 39))] 40.

Definition h_node : FunctionDAG.Node Q :=
  FunctionDAG.mkNode h 644%Q 640%Q (1 # 4)%Q [].
Definition f_node : FunctionDAG.Node Q :=
  FunctionDAG.mkNode f 16%Q 12%Q (1 # 4)%Q [].

Definition dag : FunctionDAG Q := FunctionDAG.mk [h_node; f_node] [f_h].

#[local] Instance ops : DoubleOps Q := exact_ops log2_ceil.

(** The state after the first move: [h] realized at the root. *)
Definition first_children : Res (list (State Q) * ptr) :=
  generate_children dag initial_state 1%nat.

(** The children produced by a move, when it returns. *)
Definition moves (r : Res (list (State Q) * ptr)) : list (State Q) :=
  match r with Ok (l, _) => l | Err _ => [] end.

Definition st1 : State Q := default initial_state (moves first_children !! 0%nat).

(** The states after the second move. *)
Definition second_children : Res (list (State Q) * ptr) :=
  generate_children dag st1 2%nat.

(** The fourth of them: [h] tiled 16 x 16 at the root, [f] stored and
    computed at the loop over the tiles. *)
Definition tiled : State Q :=
  default initial_state (moves second_children !! 3%nat).

(** The shape of [tiled]: at the root, storing [h], one loop of [h] over 16
    tiles, storing [f]; under it the innermost loop of [h] over the 16
    points of a tile and the innermost loop of [f] over the 265 points
    that a tile requires. *)
Definition tiled_shape : bool :=
  bool_decide (store_at (root tiled) = {[h]}) &&
  match children (root tiled) with
  | [(_, outer)] =>
    bool_decide (func outer = Some h) && bool_decide (size outer = [16]) &&
    bool_decide (store_at outer = {[f]}) && negb (innermost outer) &&
    match children outer with
    | [(_, inner); (_, leaf)] =>
      bool_decide (func inner = Some h) && bool_decide (size inner = [16]) &&
      innermost inner &&
      bool_decide (func leaf = Some f) && bool_decide (size leaf = [265]) &&
      innermost leaf
    | _ => false
    end
  | _ => false
  end.

Example tiled_shape_holds : tiled_shape = true.
Proof. vm_compute. reflexivity. Qed.




(** The ways to realize [f] in the tree of [st1]. *)
Definition realizations : list (PartialScheduleNode Q) :=
  match compute_in_tiles dag (root st1) f None false 2%nat with
  | Ok (l, _) => l
  | Err _ => []
  end.

(** The second of them: [f] pushed into the innermost loop of [h]. *)
Definition in_leaf : PartialScheduleNode Q :=
  default empty_node (realizations !! 1%nat).

Definition in_leaf_shape : bool :=
  match children in_leaf with
  | [(_, c)] =>
    bool_decide (func c = Some h) && innermost c &&
    match children c with
    | [(_, l)] => bool_decide (func l = Some f) && innermost l
    | _ => false
    end
  | _ => false
  end.

(** C7, counterexample: the tree of [st1] has "innermost implies no
    children" at every node; among the trees that [compute_in_tiles]
    returns for [f] on it, the second has the innermost loop of [h] with a
    child, the loop of [f]. *)
Lemma compute_in_tiles_innermost_with_child :
  innermost_is_leaf (root st1) = true /\
  length realizations = 10%nat /\
  in_leaf_shape = true /\
  innermost_is_leaf in_leaf = false.
Proof. repeat split; vm_compute; reflexivity. Qed.

(** The root after [compute_here] of [h] at the empty root. *)
Definition realized_h : PartialScheduleNode Q :=
  match compute_here dag empty_node h 1%nat with
  | Ok (n, _) => n
  | Err _ => empty_node
  end.

(** C7 as amended, at a concrete input. *)
Lemma compute_here_innermost_witness :
  (exists leaf,
     children realized_h = children empty_node ++ [(1%nat, leaf)] /\
     func leaf = Some h /\ innermost leaf = true /\ children leaf = []) /\
  innermost realized_h = innermost (empty_node (D := Q)) /\
  innermost_is_leaf realized_h = negb (innermost (empty_node (D := Q))).
Proof.
  assert (H : compute_here dag empty_node h 1%nat = Ok (realized_h, 2%nat))
    by (vm_compute; reflexivity).
  destruct (compute_here_innermost dag empty_node realized_h h 1%nat 2%nat
              eq_refl H) as (H1 & H2 & H3 & _).
  exact (conj H1 (conj H2 H3)).
Defined.


(** On this example the search does return, with both functions
    scheduled. *)
Example optimal_schedule_returns :
  match optimal_schedule dag 3 1 with
  | Found s => num_funcs_scheduled s
  | _ => 0%nat
  end = 2%nat.
Proof. vm_compute. reflexivity. Qed.

(** C10, at a concrete input: [f] inlined into the tree of [st1]. *)
Lemma inline_func_frame_witness :
  exists n' next',
    inline_func dag (root st1) f 2%nat = Ok (n', next') /\
    inlined_copy [f_h] f 2%nat (root st1) n' /\
    (calls_in [f_h] (root st1) = false -> n' = root st1).
Proof.
  apply (inline_func_frame dag f [f_h] (root st1) 2%nat).
  vm_compute. reflexivity.
Defined.



End GatherExample.

Module OvercomputeExample.

(** C5, counterexample: an innermost loop of extents 16 and 0. The number
    of instances is 0, the factor recorded on binary64 is 0 / 0, not a
    number, and in particular not 1.000625. *)
Lemma overcompute_factor_of_empty_loop :
  exists factor,
    (forall log,
       vector_overcompute (dops := binary64_ops log) [16; 0]
                          (fold_left Z.mul [16; 0] 1) = Ok (0, factor)) /\
    PrimFloat.is_nan factor = true /\
    PrimFloat.eqb factor 1.000625%float = false.
Proof.
  exists (PrimFloat.mul (PrimFloat.div 0 0)
            (PrimFloat.div (PrimFloat.add 16 0.01) 16))%float.
  split; [intros log; vm_compute; reflexivity|].
  split; vm_compute; reflexivity.
Qed.

(** An innermost loop of extents 16 and 50. *)
Definition leaf : PartialScheduleNode Q :=
  mkPSN None true true [16; 50] [] ∅ ∅ ∅.

(** C5 as amended, at a concrete input. *)
Lemma overcompute_factor_recorded_witness :
  exists sub overcompute' factor,
    record_overcompute (dops := exact_ops log2_ceil) leaf
      (fold_left Z.mul (size leaf) 3) ∅ = Ok (sub, overcompute') /\
    overcompute' !! func leaf = Some factor /\
    (factor ==
     (inject_Z (vector_ceil 16) / inject_Z 16) *
     ((inject_Z 16 + (1 # 100)) / inject_Z 16))%Q /\
    (16 = 16 -> (factor == 1000625 # 1000000)%Q).
Proof.
  apply (overcompute_factor_recorded log2_ceil leaf 3 ∅).
  - reflexivity.
  - simpl. discriminate.
  - simpl. repeat constructor; lia.
  - lia.
Defined.

End OvercomputeExample.

Module TrimExample.



End TrimExample.

(** ** Further properties at concrete inputs *)

Module TilingChecks.

(** X1, at a concrete input: the extents 4 and 3 without splits. *)
Lemma generate_tilings_no_split_witness :
  [4; 1] ∈ [[1; 3]; [4; 1]] <->
  Forall2 (fun o sd => o = 1 \/ o = sd) [4; 1] [4; 3] /\
  [4; 1] <> replicate (length [4; 3]) 1 /\ [4; 1] <> [4; 3].
Proof.
  apply (generate_tilings_no_split [4; 3] [[1; 3]; [4; 1]] [4; 1] 3).
  - reflexivity.
  - lia.
  - vm_compute. reflexivity.
Defined.

(** X2, at a concrete input: the extent 100 with splits. *)
Lemma generate_tilings_skips_trivial_witness :
  replicate (length [100]) 1 ∉ [[2]; [4]; [50]; [25]; [13]] /\
  (true = true -> [100] ∉ [[2]; [4]; [50]; [25]; [13]]).
Proof.
  apply (generate_tilings_skips_trivial [100] true).
  - discriminate.
  - vm_compute. reflexivity.
Defined.

(** X3, at a concrete input. *)
Lemma generate_tilings_total_witness :
  exists ts, generate_tilings [100; 2147483647] 2 true = Ok ts.
Proof.
  apply (generate_tilings_total [100; 2147483647] 2 true).
  repeat constructor; unfold INT_MAX; lia.
Defined.

(** X5, at a concrete input: five leaves, two dimensions, one value of
    four bytes. *)
Lemma node_cost_model_inlined_witness :
  let '(compute, compute_if_inlined, _) :=
    node_cost_model (dops := exact_ops log2_ceil) 5 2 [4] 1%Q 16777216 in
  (compute == inject_Z (5 * foldr Z.add 0 [4])%Z)%Q /\
  (compute_if_inlined == inject_Z (Z.max 0 (5 - 2) * foldr Z.add 0 [4])%Z)%Q /\
  (0 <= compute_if_inlined)%Q /\ (compute_if_inlined <= compute)%Q.
Proof.
  apply (node_cost_model_inlined log2_ceil 5 2 [4] 1%Q 16777216).
  - unfold INT_MAX. lia.
  - unfold INT_MAX. lia.
  - repeat constructor. lia.
  - vm_compute. discriminate.
Defined.

End TilingChecks.

Module BoundsChecks.
Import BoundsExample.

#[local] Instance ops : DoubleOps Q := exact_ops log2_ceil.

(** The bound of [f] at the empty root, and the root with its memo table
    filled. *)
Definition bounded_f : Res (Bound Q * PartialScheduleNode Q) :=
  get_bounds dag empty_node f.

(** X6, at a concrete input. *)
Lemma get_bounds_memoizes_witness :
  exists b n',
    bounded_f = Ok (b, n') /\
    bounds empty_node ⊆ bounds n' /\ bounds n' !! f = Some b /\
    n' = set_bounds empty_node (bounds n') /\
    get_bounds dag n' f = Ok (b, n').
Proof.
  assert (Hok : is_Ok bounded_f = true) by (vm_compute; reflexivity).
  destruct bounded_f as [[b n']|e] eqn:H; [|discriminate Hok].
  exists b, n'. split; [reflexivity|].
  exact (get_bounds_memoizes dag empty_node n' f b H).
Defined.

(** X7, at a concrete input. *)
Lemma get_bounds_region_dimensions_witness :
  exists b n',
    bounded_f = Ok (b, n') /\
    length (region b) = Function.dimensions f /\
    (FunctionDAG.outgoing_edges dag !! f <> Some [] ->
     (0 < Function.dimensions f)%nat).
Proof.
  assert (Hok : is_Ok bounded_f = true) by (vm_compute; reflexivity).
  destruct bounded_f as [[b n']|e] eqn:H; [|discriminate Hok].
  exists b, n'. split; [reflexivity|].
  exact (get_bounds_region_dimensions dag empty_node n' f b eq_refl H).
Defined.

(** A loop of [h] that does not have the bound of [h] in its memo table. *)
Definition bare_loop : PartialScheduleNode Q :=
  mkPSN (Some h) true true [10] [] ∅ ∅ ∅.

(** X8, at a concrete input: the output [h] asked for at a loop. *)
Lemma get_bounds_without_consumers_witness :
  (FunctionDAG.outgoing_edges dag !! h = None ->
   get_bounds dag bare_loop h = Err OutOfRange) /\
  (FunctionDAG.outgoing_edges dag !! h = Some [] -> is_root bare_loop = false ->
   get_bounds dag bare_loop h = Err InternalAssert).
Proof.
  apply (get_bounds_without_consumers dag bare_loop h). reflexivity.
Defined.

(** The position of a function in the reverse realization order [h], [g],
    [f]. *)
Definition position (fn : Function) : nat :=
  if bool_decide (fn = h) then 0 else if bool_decide (fn = g) then 1 else 2.

(** X9, at a concrete input. *)
Lemma get_bounds_terminates_witness :
  get_bounds dag empty_node f <> Err Cyclic.
Proof.
  apply (get_bounds_terminates dag position empty_node f).
  - intros e He. unfold dag in He. cbn [FunctionDAG.edges] in He.
    repeat (apply elem_of_cons in He as [->|He]);
      [vm_compute; lia..|by apply elem_of_nil in He].
  - intros fn. unfold position. cbn.
    destruct (bool_decide (fn = h)); [lia|].
    destruct (bool_decide (fn = g)); lia.
Defined.

(** X25, at a concrete input: the region of [f] at the empty root. *)
Lemma get_bounds_region_least_witness :
  exists b n',
    bounded_f = Ok (b, n') /\
    exists ps,
      Forall2 (fun e p => exists cb,
                 bounds n' !! FunctionDAG.consumer e = Some cb /\
                 edge_interval
                   (consumer_scope (FunctionDAG.consumer e) 0 (region cb) ∅)
                   e 0 = Ok p) [f_h; f_g] ps /\
      region b !! 0%nat = Some (least ps.*1, least ps.*2).
Proof.
  assert (Hok : is_Ok bounded_f = true) by (vm_compute; reflexivity).
  destruct bounded_f as [[b n']|e] eqn:H; [|discriminate Hok].
  exists b, n'. split; [reflexivity|].
  assert (Hout : FunctionDAG.outgoing_edges dag !! f = Some [f_h; f_g])
    by (vm_compute; reflexivity).
  assert (Hself : Forall (fun e => FunctionDAG.consumer e <> f) [f_h; f_g])
    by (repeat constructor; discriminate).
  assert (Hlt : (0 < Function.dimensions f)%nat) by (cbn; lia).
  exact (get_bounds_region_least dag empty_node n' f [f_h; f_g] b eq_refl Hout
           ltac:(discriminate) Hself H 0%nat Hlt).
Defined.

End BoundsChecks.

Module GatherChecks.
Import GatherExample.

#[local] Instance ops : DoubleOps Q := exact_ops log2_ceil.

(** X11, at a concrete input: [f] inlined into the tree of [st1]. *)
Lemma inline_func_computes_witness :
  exists n' next',
    inline_func dag (root st1) f 2%nat = Ok (n', next') /\
    computes n' f =
    computes (root st1) f || (bool_decide (f = f) && direct_caller [f_h] (root st1)).
Proof.
  assert (Hok : is_Ok (inline_func dag (root st1) f 2%nat) = true)
    by (vm_compute; reflexivity).
  destruct (inline_func dag (root st1) f 2%nat) as [[n' next']|e] eqn:H;
    [|discriminate Hok].
  exists n', next'. split; [reflexivity|].
  apply (inline_func_computes dag f [f_h] (root st1) n' 2%nat next' f).
  - vm_compute. reflexivity.
  - exact H.
Defined.

(** The loop of [h] in the tree of [st1]. *)
Definition h_loop : PartialScheduleNode Q :=
  default empty_node (snd <$> children (root st1) !! 0%nat).

(** X12, at a concrete input: the loop of [h], of extent 256, in tiles of
    16. *)
Lemma tile_node_covers_witness :
  exists outer inner,
    tile_node dag h_loop (root st1) [16] = Ok (outer, inner) /\
    length (size outer) = length (size h_loop) /\
    length (size inner) = length (size h_loop) /\
    forall i ti s,
      [16] !! i = Some ti -> size h_loop !! i = Some s ->
      1 <= ti <= INT_MAX -> 1 <= s ->
      size outer !! i = Some ti /\
      size inner !! i = Some ((s + ti - 1) / ti) /\
      s <= ti * ((s + ti - 1) / ti) < s + ti.
Proof.
  assert (Hok : is_Ok (tile_node dag h_loop (root st1) [16]) = true)
    by (vm_compute; reflexivity).
  destruct (tile_node dag h_loop (root st1) [16]) as [[outer inner]|e] eqn:H;
    [|discriminate Hok].
  exists outer, inner. split; [reflexivity|].
  exact (tile_node_covers dag h_loop (root st1) outer inner [16] H).
Defined.

(** X13, at a concrete input: the placements of [f] in the tree of [st1]. *)
Lemma compute_in_tiles_computes_witness :
  exists l next',
    compute_in_tiles dag (root st1) f None false 2%nat = Ok (l, next') /\
    Forall (fun n' : PartialScheduleNode Q =>
              func n' = func (root st1) /\ computes n' f = true /\
              forall g, computes (root st1) g = true -> computes n' g = true) l.
Proof.
  assert (Hok : is_Ok (compute_in_tiles dag (root st1) f None false 2%nat) = true)
    by (vm_compute; reflexivity).
  destruct (compute_in_tiles dag (root st1) f None false 2%nat)
    as [[l next']|e] eqn:H; [|discriminate Hok].
  exists l, next'. split; [reflexivity|].
  exact (compute_in_tiles_computes dag (root st1) f None false 2%nat next' l H).
Defined.

(** X14, at a concrete input: the cost of [st1] calculated again. *)
Lemma calculate_cost_frame_witness :
  exists c,
    calculate_cost dag st1 = Ok c /\
    num_funcs_scheduled c = num_funcs_scheduled st1 /\
    root c = set_bounds (root st1) (bounds (root c)) /\
    bounds (root st1) ⊆ bounds (root c) /\
    forall j node, (j < num_funcs_scheduled st1)%nat ->
      FunctionDAG.nodes dag !! j = Some node ->
      is_Some (bounds (root c) !! FunctionDAG.func node).
Proof.
  assert (Hok : is_Ok (calculate_cost dag st1) = true)
    by (vm_compute; reflexivity).
  destruct (calculate_cost dag st1) as [c|e] eqn:H; [|discriminate Hok].
  exists c. split; [reflexivity|].
  exact (calculate_cost_frame dag st1 c H).
Defined.

(** X15, at a concrete input: the first move schedules the output [h]. *)
Lemma generate_children_output_witness :
  exists cs next',
    generate_children dag initial_state 1%nat = Ok (cs, next') /\
    exists c leaf,
      cs = [c] /\ next' = 2%nat /\
      num_funcs_scheduled c = 1%nat /\
      children (root c) = children (root (initial_state (D := Q))) ++ [(1%nat, leaf)] /\
      func leaf = Some h /\
      innermost leaf = true /\ children leaf = [] /\
      store_at (root c) = {[h]} ∪ store_at (root (initial_state (D := Q))) /\
      inlined (root c) = inlined (root (initial_state (D := Q))).
Proof.
  assert (Hok : is_Ok (generate_children dag initial_state 1%nat) = true)
    by (vm_compute; reflexivity).
  destruct (generate_children dag initial_state 1%nat) as [[cs next']|e] eqn:H;
    [|discriminate Hok].
  exists cs, next'. split; [reflexivity|].
  apply (generate_children_output dag initial_state h_node 1%nat next' cs).
  - reflexivity.
  - vm_compute. reflexivity.
  - exact H.
Defined.

(** X17, at a concrete input: three passes with a beam of one state. *)
Lemma optimal_schedule_computes_all_witness :
  exists s,
    optimal_schedule dag 3 1 = Found s /\
    is_root (root s) = true /\
    forall node, node ∈ FunctionDAG.nodes dag ->
      computes (root s) (FunctionDAG.func node) = true.
Proof.
  assert (Hok : match optimal_schedule dag 3 1 with Found _ => true | _ => false end
                = true) by (vm_compute; reflexivity).
  destruct (optimal_schedule dag 3 1) as [s| |] eqn:H; [|discriminate Hok..].
  exists s. split; [reflexivity|].
  exact (optimal_schedule_computes_all dag 3 1 s H).
Defined.

(** The calls that schedule [tiled], on one core and on eight. *)
Definition calls_on (cores : Z) : list directive :=
  match apply_schedule dag tiled cores with
  | Ok calls => calls
  | Err _ => []
  end.

(** X19, at a concrete input: [tiled] on one core. *)
Lemma apply_schedule_one_core_witness :
  apply_schedule dag tiled 1 = Ok (calls_on 1) /\
  forall d, d ∈ calls_on 1 ->
    match d with
    | Parallel _ _ _ | Fuse _ _ _ _ => False
    | _ => True
    end.
Proof.
  assert (H : apply_schedule dag tiled 1 = Ok (calls_on 1))
    by (vm_compute; reflexivity).
  split; [exact H|].
  apply (apply_schedule_one_core dag tiled 1 (calls_on 1)); [|exact H].
  vm_compute. reflexivity.
Defined.

(** X20, at a concrete input: the inner loop of [h], of 16 points, is
    vectorized by 16. *)
Lemma apply_schedule_vectorize_witness :
  exists m s0,
    node_of m (root tiled) /\ func m = Some h /\ innermost m = true /\
    size m !! 0%nat = Some s0 /\
    (16 = 4 \/ 16 = 8 \/ 16 = 16) /\ 16 <= s0 /\ (s0 < 2 * 16 \/ 16 = 16).
Proof.
  apply (apply_schedule_vectorize dag tiled 8 (calls_on 8) h "xi" 16).
  - vm_compute. reflexivity.
  - apply list_elem_of_lookup. exists 4%nat. vm_compute. reflexivity.
Defined.

(** X21, at a concrete input: where [f] is placed. *)
Lemma apply_schedule_placements_witness :
  (ComputeRoot f ∈ calls_on 8 ->
   exists m c, node_of m (root tiled) /\ func m = None /\
               c ∈ children m /\ func c.2 = Some f) /\
  (forall level, StoreAt f level ∈ calls_on 8 ->
   exists m f0 v, node_of m (root tiled) /\ level = LevelAt f0 v /\
                  func m = Some f0 /\ f ∈ store_at m) /\
  (forall level, ComputeAt f level ∈ calls_on 8 ->
   exists m f0 v c, node_of m (root tiled) /\ level = LevelAt f0 v /\
                    func m = Some f0 /\ f <> f0 /\
                    c ∈ children m /\ func c.2 = Some f).
Proof.
  apply (apply_schedule_placements dag tiled 8 (calls_on 8) f).
  vm_compute. reflexivity.
Defined.

(** X22, at a concrete input. *)
Lemma apply_schedule_complete_witness :
  (forall m, node_of m (root tiled) ->
     match func m with
     | None =>
       forall c cf, c ∈ children m -> func c.2 = Some cf ->
                    ComputeRoot cf ∈ calls_on 8
     | Some f0 =>
       (exists vars, Reorder f0 vars ∈ calls_on 8) /\
       exists v,
         (forall g, g ∈ store_at m -> StoreAt g (LevelAt f0 v) ∈ calls_on 8) /\
         (forall c cf, c ∈ children m -> func c.2 = Some cf -> cf <> f0 ->
                       ComputeAt cf (LevelAt f0 v) ∈ calls_on 8)
     end) /\
  (forall f0 vars, Reorder f0 vars ∈ calls_on 8 ->
     (exists m, node_of m (root tiled) /\ func m = Some f0) /\
     forall vars', Reorder f0 vars' ∈ calls_on 8 -> vars' = vars).
Proof.
  apply (apply_schedule_complete dag tiled 8 (calls_on 8)).
  vm_compute. reflexivity.
Defined.

(** X23, at a concrete input: a time limit of one second, of which more
    than half has elapsed after the first run. *)
Lemma timed_runs_cheapest_witness :
  exists s,
    timed_runs dag 3 2 1%Q (fun _ => 1%Q) 0 1 initial_state = Found s /\
    exists last,
      (last < 2)%nat /\
      (exists k, (k <= last)%nat /\ run log2_ceil dag 3 k = Found s) /\
      (forall j, (j <= last)%nat ->
         exists sj, run log2_ceil dag 3 j = Found sj /\
                    (state_cost s <= state_cost sj)%Q) /\
      (1 / 2 < 1)%Q /\
      forall j, (j < last)%nat -> (1 <= 1 / 2)%Q.
Proof.
  assert (Hok : match timed_runs dag 3 2 1%Q (fun _ => 1%Q) 0 1 initial_state
                with Found _ => true | _ => false end = true)
    by (vm_compute; reflexivity).
  destruct (timed_runs dag 3 2 1%Q (fun _ => 1%Q) 0 1 initial_state)
    as [s| |] eqn:H; [|discriminate Hok..].
  exists s. split; [reflexivity|].
  exact (timed_runs_cheapest log2_ceil dag 3 1%Q (fun _ => 1%Q) 2 s H).
Defined.

(** X24, at a concrete input: one run of three passes, eight cores. *)
Lemma generate_schedules_top_down_covers_witness :
  exists calls,
    generate_schedules_top_down dag 3 1 None None (fun _ => 0%Q) 8
      = Scheduled calls /\
    exists s : State Q,
      is_root (root s) = true /\
      apply_schedule dag s 8 = Ok calls /\
      (forall node, node ∈ FunctionDAG.nodes dag ->
         (exists vars, Reorder (FunctionDAG.func node) vars ∈ calls) \/
         (exists m, node_of m (root s) /\
                    is_Some (inlined m !! FunctionDAG.func node))) /\
      (forall f0 vars, Reorder f0 vars ∈ calls ->
         exists m, node_of m (root s) /\ func m = Some f0).
Proof.
  assert (Hok : match generate_schedules_top_down dag 3 1 None None
                        (fun _ => 0%Q) 8
                with Scheduled _ => true | _ => false end = true)
    by (vm_compute; reflexivity).
  destruct (generate_schedules_top_down dag 3 1 None None (fun _ => 0%Q) 8)
    as [calls| |] eqn:H; [|discriminate Hok..].
  exists calls. split; [reflexivity|].
  exact (generate_schedules_top_down_covers dag 3 1 None None (fun _ => 0%Q) 8
           calls H).
Defined.

(** X26, at a concrete input: the placements of [f] in the tree of [st1]. *)
Lemma compute_in_tiles_storage_witness :
  exists l next',
    compute_in_tiles dag (root st1) f None false 2%nat = Ok (l, next') /\
    Forall (fun n' : PartialScheduleNode Q =>
              inside n' f = true /\
              (forall g, inside (root st1) g = true -> inside n' g = true) /\
              (forall g, loops_over n' g = true ->
                 g = f \/ loops_over (root st1) g = true) /\
              (forall g, stores (root st1) g = true -> stores n' g = true) /\
              (false = false -> stores n' f = true) /\
              (stored_inside (root st1) = true -> stored_inside n' = true)) l.
Proof.
  assert (Hok : is_Ok (compute_in_tiles dag (root st1) f None false 2%nat) = true)
    by (vm_compute; reflexivity).
  destruct (compute_in_tiles dag (root st1) f None false 2%nat)
    as [[l next']|e] eqn:H; [|discriminate Hok].
  exists l, next'. split; [reflexivity|].
  exact (compute_in_tiles_storage dag (root st1) f None false 2%nat next' l H).
Defined.

(** X27, at a concrete input: three passes with a beam of one state. *)
Lemma optimal_schedule_storage_witness :
  exists s,
    optimal_schedule dag 3 1 = Found s /\
    stored_inside (root s) = true /\
    forall g, inside (root s) g = true -> stores (root s) g = true.
Proof.
  assert (Hok : match optimal_schedule dag 3 1 with Found _ => true | _ => false end
                = true) by (vm_compute; reflexivity).
  destruct (optimal_schedule dag 3 1) as [s| |] eqn:H; [|discriminate Hok..].
  exists s. split; [reflexivity|].
  exact (optimal_schedule_storage dag 3 1 s H).
Defined.

End GatherChecks.
